(** * The ambient-audio engine (class [AudioEngine]) against its specification

    The engine is the TypeScript singleton [audioEngine].  JavaScript numbers
    are read as real numbers (no NaN, no infinities, no rounding); Web Audio
    nodes are records holding what the engine sets on them; the value of
    [ctx.currentTime] at a call and the outcomes of [Math.random()] are
    arguments of the operation that reads them. *)

From Stdlib Require Import Reals Lra.
From stdpp Require Import gmap list strings.

Local Open Scope R_scope.

(** ** Sound identifiers *)

Inductive SoundId := BIRD | WIND | LEAVES | WATER | RAIN | INSECT.

#[global] Instance SoundId_eq_dec : EqDecision SoundId.
Proof. solve_decision. Defined.

Definition SoundId_to_nat (x : SoundId) : nat :=
  match x with
  | BIRD => 0 | WIND => 1 | LEAVES => 2 | WATER => 3 | RAIN => 4 | INSECT => 5
  end.

Definition SoundId_of_nat (n : nat) : option SoundId :=
  match n with
  | 0%nat => Some BIRD | 1%nat => Some WIND | 2%nat => Some LEAVES
  | 3%nat => Some WATER | 4%nat => Some RAIN | 5%nat => Some INSECT
  | _ => None
  end.

#[global] Instance SoundId_countable : Countable SoundId.
Proof.
  apply (inj_countable SoundId_to_nat SoundId_of_nat).
  intros []; reflexivity.
Defined.

(** ** Pitch mapper *)

Module Pitch.

(** [Math.max] and [Math.min] on two arguments. *)
Definition Math_max (a b : R) : R := Rmax a b.
Definition Math_min (a b : R) : R := Rmin a b.

(** The closure [calculatePitch] of [playInteractionSound]; [tinnitusFreq]
    is the variable it captures. *)
Definition calculatePitch (tinnitusFreq baseFreq : R) (aggressive : bool) : R :=
  let ratio := tinnitusFreq / baseFreq in
  if aggressive
  then Math_max 0.5 (Math_min 2.5 ratio)
  else Math_max 0.6 (Math_min 1.8 (sqrt ratio)).

(** The [rate] each branch of [playInteractionSound] computes. *)
Definition rate (type : SoundId) (tinnitusFreq : R) : R :=
  match type with
  | BIRD => calculatePitch tinnitusFreq 8000 true
  | LEAVES => calculatePitch tinnitusFreq 8000 false
  | WIND => calculatePitch tinnitusFreq 8000 false
  | WATER => calculatePitch tinnitusFreq 8000 false
  | RAIN => calculatePitch tinnitusFreq 8000 false
  | INSECT => calculatePitch tinnitusFreq 8000 true
  end.

(** The specification's vocabulary: clamping, and the two mapping
    policies. *)
Definition clamp (x lo hi : R) : R :=
  if Rlt_dec x lo then lo else if Rlt_dec hi x then hi else x.

Inductive Mapping := Aggressive | Damped.

Definition mapping_of (type : SoundId) : Mapping :=
  match type with
  | BIRD | INSECT => Aggressive
  | WIND | LEAVES | WATER | RAIN => Damped
  end.

Definition spec_multiplier (m : Mapping) (F : R) : R :=
  match m with
  | Aggressive => clamp (F / 8000) 0.5 2.5
  | Damped => clamp (sqrt (F / 8000)) 0.6 1.8
  end.

End Pitch.

(** ** Exceptions

    An operation that can throw returns [Res]. *)

Inductive Exn :=
| TypeError            (* a property read through a null reference *)
| InvalidStateError    (* [start] on a started source, [stop] on one never started *)
| NoContext.           (* [new Error("No Context")] of [createNoiseBuffer] *)

Inductive Res (A : Type) :=
| Ok (a : A)
| Throw (e : Exn).

Arguments Ok {A} a.
Arguments Throw {A} e.

#[global] Instance Res_ret : MRet Res := fun A a => Ok a.

#[global] Instance Res_bind : MBind Res := fun A B k m =>
  match m with
  | Ok a => k a
  | Throw e => Throw e
  end.

(** [try { body } catch (e) {}]: a thrown exception leaves [a] as it was
    before the block. *)
Definition try_catch {A : Type} (a : A) (body : Res A) : A :=
  match body with
  | Ok a' => a'
  | Throw _ => a
  end.

#[global] Instance Rlt_decision (x y : R) : Decision (x < y) := Rlt_dec x y.
#[global] Instance R_eq_dec : EqDecision R := Req_dec_T.

(** ** The Web Audio objects the engine drives *)

Module WebAudio.

(** An automation event of an [AudioParam], named after the method that
    schedules it. *)
Inductive AutoEvent :=
| SetValueAtTime (value startTime : R)
| LinearRampToValueAtTime (value endTime : R)
| ExponentialRampToValueAtTime (value endTime : R)
| SetTargetAtTime (target startTime timeConstant : R).

Inductive AutoType := TSetValue | TLinearRamp | TExponentialRamp | TSetTarget.

#[global] Instance AutoType_eq_dec : EqDecision AutoType.
Proof. solve_decision. Defined.

Definition ev_type (e : AutoEvent) : AutoType :=
  match e with
  | SetValueAtTime _ _ => TSetValue
  | LinearRampToValueAtTime _ _ => TLinearRamp
  | ExponentialRampToValueAtTime _ _ => TExponentialRamp
  | SetTargetAtTime _ _ _ => TSetTarget
  end.

Definition ev_time (e : AutoEvent) : R :=
  match e with
  | SetValueAtTime _ t => t
  | LinearRampToValueAtTime _ t => t
  | ExponentialRampToValueAtTime _ t => t
  | SetTargetAtTime _ t _ => t
  end.

Definition ev_value (e : AutoEvent) : R :=
  match e with
  | SetValueAtTime v _ => v
  | LinearRampToValueAtTime v _ => v
  | ExponentialRampToValueAtTime v _ => v
  | SetTargetAtTime v _ _ => v
  end.

(** An [AudioParam]: the [value] attribute as last assigned and the
    timeline of scheduled events, ordered by time. *)
Record AudioParam := mkParam {
  value : R;
  events : list AutoEvent
}.

(** A new event goes after the events scheduled at or before its time and
    before the later ones; it replaces an event of its own type scheduled at
    exactly its time. *)
Fixpoint insert_event (e : AutoEvent) (l : list AutoEvent) : list AutoEvent :=
  match l with
  | [] => [e]
  | x :: l' =>
      if decide (ev_time e < ev_time x) then e :: x :: l'
      else if decide (ev_type e = ev_type x /\ ev_time e = ev_time x) then e :: l'
      else x :: insert_event e l'
  end.

Definition schedule (e : AutoEvent) (p : AudioParam) : AudioParam :=
  {| value := value p; events := insert_event e (events p) |}.

Definition set_value (v : R) (p : AudioParam) : AudioParam :=
  {| value := v; events := events p |}.

Definition setValueAtTime (v t : R) : AudioParam -> AudioParam :=
  schedule (SetValueAtTime v t).
Definition linearRampToValueAtTime (v t : R) : AudioParam -> AudioParam :=
  schedule (LinearRampToValueAtTime v t).
Definition exponentialRampToValueAtTime (v t : R) : AudioParam -> AudioParam :=
  schedule (ExponentialRampToValueAtTime v t).
Definition setTargetAtTime (v t tc : R) : AudioParam -> AudioParam :=
  schedule (SetTargetAtTime v t tc).

(** [cancelScheduledValues(t)] removes every event scheduled at or after
    [t]. *)
Definition cancelScheduledValues (t : R) (p : AudioParam) : AudioParam :=
  {| value := value p; events := filter (fun x => ev_time x < t) (events p) |}.

(** The value the parameter is finally driven to: the value of the last
    event of the timeline, or the [value] attribute when nothing is
    scheduled. *)
Definition target (p : AudioParam) : R :=
  match last (events p) with
  | Some e => ev_value e
  | None => value p
  end.

(** Events of the timeline due strictly after [now]. *)
Definition pending (now : R) (p : AudioParam) : list AutoEvent :=
  filter (fun x => now < ev_time x) (events p).

Record GainNode := mkGain { gain : AudioParam }.

(** The scheduling state of an [AudioScheduledSourceNode]: the argument of
    its [start], the argument of its latest [stop], and whether playback is
    over. *)
Record Sched := mkSched {
  started : option R;
  stopped : option R;
  ended : bool
}.

Definition unscheduled : Sched :=
  {| started := None; stopped := None; ended := false |}.

Definition sched_start (when : R) (s : Sched) : Res Sched :=
  match started s with
  | Some _ => Throw InvalidStateError
  | None => Ok {| started := Some when; stopped := stopped s; ended := ended s |}
  end.

(** A later [stop] overrides an earlier one; on a source whose playback is
    over it has no effect. *)
Definition sched_stop (when : R) (s : Sched) : Res Sched :=
  match started s with
  | None => Throw InvalidStateError
  | Some _ =>
      if ended s then Ok s
      else Ok {| started := started s; stopped := Some when; ended := false |}
  end.

Definition sched_end (s : Sched) : Sched :=
  {| started := started s; stopped := stopped s; ended := true |}.

Inductive OscType := sine | square | sawtooth | triangle.

Record OscillatorNode := mkOsc {
  osc_type : OscType;
  frequency : AudioParam;
  detune : AudioParam;
  osc_sched : Sched
}.

Inductive FilterType := lowpass | highpass.

Record BiquadFilterNode := mkFilter {
  filter_type : FilterType;
  filter_frequency : AudioParam;
  filter_Q : AudioParam
}.

(** An [AudioBuffer]: a decoded asset of some duration, or the two seconds
    of white noise that [createNoiseBuffer] fills in. *)
Inductive AudioBuffer :=
| Decoded (duration : R)
| WhiteNoise.

Definition duration (b : AudioBuffer) : R :=
  match b with
  | Decoded d => d
  | WhiteNoise => 2
  end.

Record AudioBufferSourceNode := mkSrc {
  buffer : option AudioBuffer;
  loop : bool;
  playbackRate : AudioParam;
  src_sched : Sched
}.

(** What [createGain], [createOscillator], [createBiquadFilter] and
    [createBufferSource] return. *)
Definition createGain : GainNode := {| gain := mkParam 1 [] |}.

Definition createOscillator : OscillatorNode :=
  {| osc_type := sine; frequency := mkParam 440 []; detune := mkParam 0 [];
     osc_sched := unscheduled |}.

Definition createBiquadFilter : BiquadFilterNode :=
  {| filter_type := lowpass; filter_frequency := mkParam 350 [];
     filter_Q := mkParam 1 [] |}.

Definition createBufferSource : AudioBufferSourceNode :=
  {| buffer := None; loop := false; playbackRate := mkParam 1 [];
     src_sched := unscheduled |}.

(** Field updates. *)
Definition on_gain (f : AudioParam -> AudioParam) (g : GainNode) : GainNode :=
  {| gain := f (gain g) |}.

Definition on_frequency (f : AudioParam -> AudioParam) (o : OscillatorNode) : OscillatorNode :=
  {| osc_type := osc_type o; frequency := f (frequency o); detune := detune o;
     osc_sched := osc_sched o |}.

Definition on_detune (f : AudioParam -> AudioParam) (o : OscillatorNode) : OscillatorNode :=
  {| osc_type := osc_type o; frequency := frequency o; detune := f (detune o);
     osc_sched := osc_sched o |}.

Definition with_osc_type (ty : OscType) (o : OscillatorNode) : OscillatorNode :=
  {| osc_type := ty; frequency := frequency o; detune := detune o;
     osc_sched := osc_sched o |}.

Definition with_osc_sched (s : Sched) (o : OscillatorNode) : OscillatorNode :=
  {| osc_type := osc_type o; frequency := frequency o; detune := detune o;
     osc_sched := s |}.

Definition osc_start (when : R) (o : OscillatorNode) : Res OscillatorNode :=
  s ← sched_start when (osc_sched o); Ok (with_osc_sched s o).

Definition osc_stop (when : R) (o : OscillatorNode) : Res OscillatorNode :=
  s ← sched_stop when (osc_sched o); Ok (with_osc_sched s o).

Definition mk_filter (ty : FilterType) (freq : R) (q : option R) : BiquadFilterNode :=
  {| filter_type := ty;
     filter_frequency := set_value freq (filter_frequency createBiquadFilter);
     filter_Q := match q with
                 | Some v => set_value v (filter_Q createBiquadFilter)
                 | None => filter_Q createBiquadFilter
                 end |}.

Definition with_src_sched (s : Sched) (b : AudioBufferSourceNode) : AudioBufferSourceNode :=
  {| buffer := buffer b; loop := loop b; playbackRate := playbackRate b;
     src_sched := s |}.

Definition on_playbackRate (f : AudioParam -> AudioParam) (b : AudioBufferSourceNode)
  : AudioBufferSourceNode :=
  {| buffer := buffer b; loop := loop b; playbackRate := f (playbackRate b);
     src_sched := src_sched b |}.

Definition src_start (when : R) (b : AudioBufferSourceNode) : Res AudioBufferSourceNode :=
  s ← sched_start when (src_sched b); Ok (with_src_sched s b).

Definition src_stop (when : R) (b : AudioBufferSourceNode) : Res AudioBufferSourceNode :=
  s ← sched_stop when (src_sched b); Ok (with_src_sched s b).

(** Any node, as the element type of [droneNodes]. *)
Inductive AudioNode :=
| NGain (g : GainNode)
| NOsc (o : OscillatorNode)
| NFilter (f : BiquadFilterNode)
| NSrc (b : AudioBufferSourceNode).

End WebAudio.

(** ** The engine *)

Module Engine.
Import WebAudio.

Inductive ContextState := suspended | running.

#[global] Instance ContextState_eq_dec : EqDecision ContextState.
Proof. solve_decision. Defined.

Record AudioContext := mkCtx { ctx_state : ContextState }.

(** The fields of [class AudioEngine].  [ambientGain] and [pianoNodes] are
    declared in the class and never read or written; they are left out.
    [rainGainNode] refers to the [gain] node of a channel: it holds the
    index of that channel in the table of channels below. *)
Record AudioEngine := mkEngine {
  ctx : option AudioContext;
  tinnitusOsc : option OscillatorNode;
  tinnitusGain : option GainNode;
  masterGain : option GainNode;
  birdBuffer : option AudioBuffer;
  windBuffer : option AudioBuffer;
  leavesBuffer : option AudioBuffer;
  waterBuffer : option AudioBuffer;
  rainBuffer : option AudioBuffer;
  insectBuffer : option AudioBuffer;
  ambientSource : option AudioBufferSourceNode;
  droneNodes : list AudioNode;
  pianoTimeout : option nat;
  activeSounds : gset SoundId;
  rainGainNode : option nat
}.

Definition set_ctx (v : option AudioContext) (e : AudioEngine) : AudioEngine :=
  {| ctx := v; tinnitusOsc := tinnitusOsc e; tinnitusGain := tinnitusGain e;
     masterGain := masterGain e; birdBuffer := birdBuffer e; windBuffer :=
     windBuffer e; leavesBuffer := leavesBuffer e; waterBuffer := waterBuffer e;
     rainBuffer := rainBuffer e; insectBuffer := insectBuffer e; ambientSource :=
     ambientSource e; droneNodes := droneNodes e; pianoTimeout := pianoTimeout e;
     activeSounds := activeSounds e; rainGainNode := rainGainNode e |}.

Definition set_tinnitusOsc (v : option OscillatorNode) (e : AudioEngine) : AudioEngine :=
  {| ctx := ctx e; tinnitusOsc := v; tinnitusGain := tinnitusGain e; masterGain :=
     masterGain e; birdBuffer := birdBuffer e; windBuffer := windBuffer e;
     leavesBuffer := leavesBuffer e; waterBuffer := waterBuffer e; rainBuffer :=
     rainBuffer e; insectBuffer := insectBuffer e; ambientSource := ambientSource e;
     droneNodes := droneNodes e; pianoTimeout := pianoTimeout e; activeSounds :=
     activeSounds e; rainGainNode := rainGainNode e |}.

Definition set_tinnitusGain (v : option GainNode) (e : AudioEngine) : AudioEngine :=
  {| ctx := ctx e; tinnitusOsc := tinnitusOsc e; tinnitusGain := v; masterGain :=
     masterGain e; birdBuffer := birdBuffer e; windBuffer := windBuffer e;
     leavesBuffer := leavesBuffer e; waterBuffer := waterBuffer e; rainBuffer :=
     rainBuffer e; insectBuffer := insectBuffer e; ambientSource := ambientSource e;
     droneNodes := droneNodes e; pianoTimeout := pianoTimeout e; activeSounds :=
     activeSounds e; rainGainNode := rainGainNode e |}.

Definition set_masterGain (v : option GainNode) (e : AudioEngine) : AudioEngine :=
  {| ctx := ctx e; tinnitusOsc := tinnitusOsc e; tinnitusGain := tinnitusGain e;
     masterGain := v; birdBuffer := birdBuffer e; windBuffer := windBuffer e;
     leavesBuffer := leavesBuffer e; waterBuffer := waterBuffer e; rainBuffer :=
     rainBuffer e; insectBuffer := insectBuffer e; ambientSource := ambientSource e;
     droneNodes := droneNodes e; pianoTimeout := pianoTimeout e; activeSounds :=
     activeSounds e; rainGainNode := rainGainNode e |}.

Definition set_birdBuffer (v : option AudioBuffer) (e : AudioEngine) : AudioEngine :=
  {| ctx := ctx e; tinnitusOsc := tinnitusOsc e; tinnitusGain := tinnitusGain e;
     masterGain := masterGain e; birdBuffer := v; windBuffer := windBuffer e;
     leavesBuffer := leavesBuffer e; waterBuffer := waterBuffer e; rainBuffer :=
     rainBuffer e; insectBuffer := insectBuffer e; ambientSource := ambientSource e;
     droneNodes := droneNodes e; pianoTimeout := pianoTimeout e; activeSounds :=
     activeSounds e; rainGainNode := rainGainNode e |}.

Definition set_windBuffer (v : option AudioBuffer) (e : AudioEngine) : AudioEngine :=
  {| ctx := ctx e; tinnitusOsc := tinnitusOsc e; tinnitusGain := tinnitusGain e;
     masterGain := masterGain e; birdBuffer := birdBuffer e; windBuffer := v;
     leavesBuffer := leavesBuffer e; waterBuffer := waterBuffer e; rainBuffer :=
     rainBuffer e; insectBuffer := insectBuffer e; ambientSource := ambientSource e;
     droneNodes := droneNodes e; pianoTimeout := pianoTimeout e; activeSounds :=
     activeSounds e; rainGainNode := rainGainNode e |}.

Definition set_leavesBuffer (v : option AudioBuffer) (e : AudioEngine) : AudioEngine :=
  {| ctx := ctx e; tinnitusOsc := tinnitusOsc e; tinnitusGain := tinnitusGain e;
     masterGain := masterGain e; birdBuffer := birdBuffer e; windBuffer :=
     windBuffer e; leavesBuffer := v; waterBuffer := waterBuffer e; rainBuffer :=
     rainBuffer e; insectBuffer := insectBuffer e; ambientSource := ambientSource e;
     droneNodes := droneNodes e; pianoTimeout := pianoTimeout e; activeSounds :=
     activeSounds e; rainGainNode := rainGainNode e |}.

Definition set_waterBuffer (v : option AudioBuffer) (e : AudioEngine) : AudioEngine :=
  {| ctx := ctx e; tinnitusOsc := tinnitusOsc e; tinnitusGain := tinnitusGain e;
     masterGain := masterGain e; birdBuffer := birdBuffer e; windBuffer :=
     windBuffer e; leavesBuffer := leavesBuffer e; waterBuffer := v; rainBuffer :=
     rainBuffer e; insectBuffer := insectBuffer e; ambientSource := ambientSource e;
     droneNodes := droneNodes e; pianoTimeout := pianoTimeout e; activeSounds :=
     activeSounds e; rainGainNode := rainGainNode e |}.

Definition set_rainBuffer (v : option AudioBuffer) (e : AudioEngine) : AudioEngine :=
  {| ctx := ctx e; tinnitusOsc := tinnitusOsc e; tinnitusGain := tinnitusGain e;
     masterGain := masterGain e; birdBuffer := birdBuffer e; windBuffer :=
     windBuffer e; leavesBuffer := leavesBuffer e; waterBuffer := waterBuffer e;
     rainBuffer := v; insectBuffer := insectBuffer e; ambientSource := ambientSource
     e; droneNodes := droneNodes e; pianoTimeout := pianoTimeout e; activeSounds :=
     activeSounds e; rainGainNode := rainGainNode e |}.

Definition set_insectBuffer (v : option AudioBuffer) (e : AudioEngine) : AudioEngine :=
  {| ctx := ctx e; tinnitusOsc := tinnitusOsc e; tinnitusGain := tinnitusGain e;
     masterGain := masterGain e; birdBuffer := birdBuffer e; windBuffer :=
     windBuffer e; leavesBuffer := leavesBuffer e; waterBuffer := waterBuffer e;
     rainBuffer := rainBuffer e; insectBuffer := v; ambientSource := ambientSource
     e; droneNodes := droneNodes e; pianoTimeout := pianoTimeout e; activeSounds :=
     activeSounds e; rainGainNode := rainGainNode e |}.

Definition set_ambientSource (v : option AudioBufferSourceNode) (e : AudioEngine) : AudioEngine :=
  {| ctx := ctx e; tinnitusOsc := tinnitusOsc e; tinnitusGain := tinnitusGain e;
     masterGain := masterGain e; birdBuffer := birdBuffer e; windBuffer :=
     windBuffer e; leavesBuffer := leavesBuffer e; waterBuffer := waterBuffer e;
     rainBuffer := rainBuffer e; insectBuffer := insectBuffer e; ambientSource := v;
     droneNodes := droneNodes e; pianoTimeout := pianoTimeout e; activeSounds :=
     activeSounds e; rainGainNode := rainGainNode e |}.

Definition set_droneNodes (v : list AudioNode) (e : AudioEngine) : AudioEngine :=
  {| ctx := ctx e; tinnitusOsc := tinnitusOsc e; tinnitusGain := tinnitusGain e;
     masterGain := masterGain e; birdBuffer := birdBuffer e; windBuffer :=
     windBuffer e; leavesBuffer := leavesBuffer e; waterBuffer := waterBuffer e;
     rainBuffer := rainBuffer e; insectBuffer := insectBuffer e; ambientSource :=
     ambientSource e; droneNodes := v; pianoTimeout := pianoTimeout e; activeSounds
     := activeSounds e; rainGainNode := rainGainNode e |}.

Definition set_pianoTimeout (v : option nat) (e : AudioEngine) : AudioEngine :=
  {| ctx := ctx e; tinnitusOsc := tinnitusOsc e; tinnitusGain := tinnitusGain e;
     masterGain := masterGain e; birdBuffer := birdBuffer e; windBuffer :=
     windBuffer e; leavesBuffer := leavesBuffer e; waterBuffer := waterBuffer e;
     rainBuffer := rainBuffer e; insectBuffer := insectBuffer e; ambientSource :=
     ambientSource e; droneNodes := droneNodes e; pianoTimeout := v; activeSounds :=
     activeSounds e; rainGainNode := rainGainNode e |}.

Definition set_activeSounds (v : gset SoundId) (e : AudioEngine) : AudioEngine :=
  {| ctx := ctx e; tinnitusOsc := tinnitusOsc e; tinnitusGain := tinnitusGain e;
     masterGain := masterGain e; birdBuffer := birdBuffer e; windBuffer :=
     windBuffer e; leavesBuffer := leavesBuffer e; waterBuffer := waterBuffer e;
     rainBuffer := rainBuffer e; insectBuffer := insectBuffer e; ambientSource :=
     ambientSource e; droneNodes := droneNodes e; pianoTimeout := pianoTimeout e;
     activeSounds := v; rainGainNode := rainGainNode e |}.

Definition set_rainGainNode (v : option nat) (e : AudioEngine) : AudioEngine :=
  {| ctx := ctx e; tinnitusOsc := tinnitusOsc e; tinnitusGain := tinnitusGain e;
     masterGain := masterGain e; birdBuffer := birdBuffer e; windBuffer :=
     windBuffer e; leavesBuffer := leavesBuffer e; waterBuffer := waterBuffer e;
     rainBuffer := rainBuffer e; insectBuffer := insectBuffer e; ambientSource :=
     ambientSource e; droneNodes := droneNodes e; pianoTimeout := pianoTimeout e;
     activeSounds := activeSounds e; rainGainNode := v |}.

Definition engine0 : AudioEngine :=
  {| ctx := None; tinnitusOsc := None; tinnitusGain := None; masterGain := None;
     birdBuffer := None; windBuffer := None; leavesBuffer := None;
     waterBuffer := None; rainBuffer := None; insectBuffer := None;
     ambientSource := None; droneNodes := []; pianoTimeout := None;
     activeSounds := ∅; rainGainNode := None |}.

(** *** Channels, timers and notes

    The nodes a call of [playInteractionSound] creates, by the shape of the
    branch that creates them: a sample player, filtered noise, or a
    modulated oscillator. *)
Inductive ChannelGraph :=
| Sample (src : AudioBufferSourceNode) (gain : GainNode)
| Noise (noiseSrc : AudioBufferSourceNode) (filter : BiquadFilterNode)
    (lfo : option (OscillatorNode * GainNode)) (gain : GainNode)
| FM (carrier modulator : OscillatorNode) (modGain mainGain : GainNode).

(** One call of [playInteractionSound]: what its closures capture. *)
Record Channel := mkChannel {
  ch_type : SoundId;
  ch_graph : ChannelGraph;
  ch_onEnded : bool          (* was an [onEnded] callback passed *)
}.

(** The gain node that feeds the master gain ([gain], or [mainGain]). *)
Definition graph_gain (g : ChannelGraph) : GainNode :=
  match g with
  | Sample _ gain => gain
  | Noise _ _ _ gain => gain
  | FM _ _ _ mainGain => mainGain
  end.

Definition on_graph_gain (f : AudioParam -> AudioParam) (g : ChannelGraph) : ChannelGraph :=
  match g with
  | Sample src gain => Sample src (on_gain f gain)
  | Noise noiseSrc filter lfo gain => Noise noiseSrc filter lfo (on_gain f gain)
  | FM carrier modulator modGain mainGain => FM carrier modulator modGain (on_gain f mainGain)
  end.

Definition on_ch_gain (f : AudioParam -> AudioParam) (c : Channel) : Channel :=
  {| ch_type := ch_type c; ch_graph := on_graph_gain f (ch_graph c);
     ch_onEnded := ch_onEnded c |}.

Definition with_graph (g : ChannelGraph) (c : Channel) : Channel :=
  {| ch_type := ch_type c; ch_graph := g; ch_onEnded := ch_onEnded c |}.

(** The scheduled sources of a channel. *)
Definition graph_scheds (g : ChannelGraph) : list Sched :=
  match g with
  | Sample src _ => [src_sched src]
  | Noise noiseSrc _ None _ => [src_sched noiseSrc]
  | Noise noiseSrc _ (Some (lfo, _)) _ => [src_sched noiseSrc; osc_sched lfo]
  | FM carrier modulator _ _ => [osc_sched carrier; osc_sched modulator]
  end.

(** Playback of every source of the channel is over. *)
Definition graph_end (g : ChannelGraph) : ChannelGraph :=
  match g with
  | Sample src gain => Sample (with_src_sched (sched_end (src_sched src)) src) gain
  | Noise noiseSrc filter lfo gain =>
      Noise (with_src_sched (sched_end (src_sched noiseSrc)) noiseSrc) filter
        (match lfo with
         | Some (o, g) => Some (with_osc_sched (sched_end (osc_sched o)) o, g)
         | None => None
         end) gain
  | FM carrier modulator modGain mainGain =>
      FM (with_osc_sched (sched_end (osc_sched carrier)) carrier)
        (with_osc_sched (sched_end (osc_sched modulator)) modulator) modGain mainGain
  end.

(** The callbacks the engine passes to [setTimeout]. *)
Inductive TimerCallback :=
| PianoTick                                     (* [() => this.playNextPianoNote()] *)
| ChirpDone (k : nat)                           (* end of the synthesized BIRD chirp of channel [k] *)
| DroneTeardown (nodesToStop : list AudioNode). (* stop and disconnect the drone's nodes *)

Record Timer := mkTimer {
  timer_id : nat;
  timer_ms : R;
  timer_cb : TimerCallback
}.

Record PianoNote := mkNote {
  note_osc : OscillatorNode;
  note_filter : BiquadFilterNode;
  note_gain : GainNode
}.

(** The engine together with what its closures and the platform hold:
    the channels created so far (a stop handle is the index of its channel),
    the pending [setTimeout] callbacks, the piano notes created, and the
    channels whose [onEnded] callback has been called. *)
Record World := mkWorld {
  engine : AudioEngine;
  channels : list Channel;
  timers : list Timer;
  next_timer : nat;
  notes : list PianoNote;
  notified : list nat
}.

Definition set_engine (v : AudioEngine) (w : World) : World :=
  {| engine := v; channels := channels w; timers := timers w; next_timer :=
     next_timer w; notes := notes w; notified := notified w |}.

Definition set_channels (v : list Channel) (w : World) : World :=
  {| engine := engine w; channels := v; timers := timers w; next_timer := next_timer
     w; notes := notes w; notified := notified w |}.

Definition set_timers (v : list Timer) (w : World) : World :=
  {| engine := engine w; channels := channels w; timers := v; next_timer :=
     next_timer w; notes := notes w; notified := notified w |}.

Definition set_next_timer (v : nat) (w : World) : World :=
  {| engine := engine w; channels := channels w; timers := timers w; next_timer :=
     v; notes := notes w; notified := notified w |}.

Definition set_notes (v : list PianoNote) (w : World) : World :=
  {| engine := engine w; channels := channels w; timers := timers w; next_timer :=
     next_timer w; notes := v; notified := notified w |}.

Definition set_notified (v : list nat) (w : World) : World :=
  {| engine := engine w; channels := channels w; timers := timers w; next_timer :=
     next_timer w; notes := notes w; notified := v |}.

Definition on_engine (f : AudioEngine -> AudioEngine) (w : World) : World :=
  set_engine (f (engine w)) w.

(** Timer identifiers are positive. *)
Definition world0 : World :=
  {| engine := engine0; channels := []; timers := []; next_timer := 1;
     notes := []; notified := [] |}.

Definition setTimeout (cb : TimerCallback) (ms : R) (w : World) : nat * World :=
  let id := next_timer w in
  (id, set_next_timer (S id) (set_timers (timers w ++ [mkTimer id ms cb]) w)).

Definition clearTimeout (id : nat) (w : World) : World :=
  set_timers (filter (fun tm => timer_id tm ≠ id) (timers w)) w.

(** [if (x)] on a timer identifier or null. *)
Definition truthy (o : option nat) : bool :=
  match o with
  | Some (S _) => true
  | _ => false
  end.

(** *** [init] *)

Definition init (e : AudioEngine) : AudioEngine :=
  let e1 :=
    match ctx e with
    | None =>
        set_masterGain (Some (on_gain (set_value 0.5) createGain))
          (set_ctx (Some (mkCtx suspended)) e)
    | Some _ => e
    end in
  match ctx e1 with
  | Some c =>
      if decide (ctx_state c = suspended) then set_ctx (Some (mkCtx running)) e1 else e1
  | None => e1
  end.

(** One assignment of [loadAmbientTrack]: the buffer of [type] becomes the
    outcome of its [loadBuffer] (null when the asset cannot be fetched or
    decoded). *)
Definition set_buffer (type : SoundId) (b : option AudioBuffer) (e : AudioEngine)
  : AudioEngine :=
  match type with
  | BIRD => set_birdBuffer b e
  | WIND => set_windBuffer b e
  | LEAVES => set_leavesBuffer b e
  | WATER => set_waterBuffer b e
  | RAIN => set_rainBuffer b e
  | INSECT => set_insectBuffer b e
  end.

(** *** The calibration tone *)

(** The first statement of [stopTinnitusTone]: the fade of the gain. *)
Definition fade_tone (now : R) (e : AudioEngine) : AudioEngine :=
  match tinnitusGain e, ctx e with
  | Some g, Some _ =>
      set_tinnitusGain
        (Some (on_gain (exponentialRampToValueAtTime 0.001 (now + 0.5)) g)) e
  | _, _ => e
  end.

Definition stopTinnitusTone (now : R) (e : AudioEngine) : Res AudioEngine :=
  let e1 := fade_tone now e in
  match tinnitusOsc e1 with
  | Some o =>
      match ctx e1 with
      | None => Throw TypeError
      | Some _ =>
          _ ← osc_stop (now + 0.6) o;
          Ok (set_tinnitusOsc None e1)
      end
  | None => Ok e1
  end.

Definition startTinnitusTone (now frequency vol : R) (e : AudioEngine) : Res AudioEngine :=
  let e := init e in
  match ctx e, masterGain e with
  | Some _, Some _ =>
      e ← match tinnitusOsc e with
          | Some _ => stopTinnitusTone now e
          | None => Ok e
          end;
      let osc := with_osc_type sine createOscillator in
      let osc := on_frequency (setValueAtTime frequency now) osc in
      let g := on_gain (setValueAtTime 0 now) createGain in
      let g := on_gain (linearRampToValueAtTime vol (now + 0.1)) g in
      osc ← osc_start 0 osc;
      Ok (set_tinnitusGain (Some g) (set_tinnitusOsc (Some osc) e))
  | _, _ => Ok e
  end.

Definition updateTinnitusFreq (now frequency : R) (e : AudioEngine) : AudioEngine :=
  match tinnitusOsc e, ctx e with
  | Some o, Some _ =>
      set_tinnitusOsc (Some (on_frequency (setTargetAtTime frequency now 0.1) o)) e
  | _, _ => e
  end.

Definition startAmbientTrack (tinnitusFreq : R) (e : AudioEngine) : AudioEngine :=
  let e := init e in
  match ctx e, masterGain e with
  | Some _, Some _ =>
      match ambientSource e with
      | Some s => set_ambientSource None e
      | None => e
      end
  | _, _ => e
  end.

(** *** The drone *)

Definition startDrone (now : R) (e : AudioEngine) : Res AudioEngine :=
  if bool_decide (0 < length (droneNodes e))%nat then Ok e
  else
    let e := init e in
    match ctx e, masterGain e with
    | Some _, Some _ =>
        let t := now in
        let root := 98.00 in
        let droneMaster := on_gain (set_value 0) createGain in
        let osc1 := on_frequency (set_value root) (with_osc_type sawtooth createOscillator) in
        let filter1 := mk_filter lowpass 350 (Some 1) in
        let osc2 := on_frequency (set_value root) (with_osc_type sawtooth createOscillator) in
        let osc2 := on_detune (set_value 10) osc2 in
        let filter2 := mk_filter lowpass 400 None in
        let osc3 := on_frequency (set_value (root / 2)) (with_osc_type sine createOscillator) in
        let subGain := on_gain (set_value 0.4) createGain in
        let lfo := on_frequency (set_value 0.1) createOscillator in
        let lfoGain := on_gain (set_value 100) createGain in
        osc1 ← osc_start t osc1;
        osc2 ← osc_start t osc2;
        osc3 ← osc_start t osc3;
        lfo ← osc_start t lfo;
        let droneMaster := on_gain (linearRampToValueAtTime 0.06 (t + 4.0)) droneMaster in
        Ok (set_droneNodes
              [NGain droneMaster; NOsc osc1; NFilter filter1; NOsc osc2; NFilter filter2;
               NOsc osc3; NGain subGain; NOsc lfo; NGain lfoGain] e)
    | _, _ => Ok e
    end.

(** The body of the [try] block either completes, or throws at
    [master.gain] when [droneNodes[0]] is no gain node; the [catch] only
    logs. *)
Definition stopDrone (now : R) (w : World) : World :=
  match droneNodes (engine w), ctx (engine w) with
  | master :: rest, Some _ =>
      let w1 :=
        try_catch w
          (match master with
           | NGain g =>
               let g := on_gain (cancelScheduledValues now) g in
               let g := on_gain (linearRampToValueAtTime 0 (now + 1.5)) g in
               let nodesToStop := NGain g :: rest in
               Ok (snd (setTimeout (DroneTeardown nodesToStop) 1600 w))
           | _ => Throw TypeError
           end) in
      on_engine (set_droneNodes []) w1
  | _, _ => w
  end.

Definition toggleDrone (now : R) (shouldPlay : bool) (w : World) : Res World :=
  if shouldPlay
  then e ← startDrone now (engine w); Ok (set_engine e w)
  else Ok (stopDrone now w).

(** *** The generative piano *)

(** The four outcomes of [Math.random()] that one note consumes, in the
    order of the calls. *)
Record NoteRandoms := mkRandoms {
  rnd_pitch : R;
  rnd_velocity : R;
  rnd_filter : R;
  rnd_delay : R
}.

Definition Math_floor (x : R) : Z := Int_part x.

Definition scale : list R := [196.00; 233.08; 261.63; 293.66; 349.23; 392.00; 466.16].

(** Reading past the end of [scale] gives [undefined], which an
    [AudioParam] refuses as a value. *)
Definition playNextPianoNote (now : R) (rnd : NoteRandoms) (w : World) : Res World :=
  match ctx (engine w), masterGain (engine w) with
  | Some _, Some _ =>
      match Math_floor (rnd_pitch rnd * INR (length scale)) with
      | Zneg _ => Throw TypeError
      | i =>
          match scale !! Z.to_nat i with
          | None => Throw TypeError
          | Some freq =>
              let velocity := 0.03 + rnd_velocity rnd * 0.03 in
              let t := now in
              let osc := with_osc_type triangle createOscillator in
              let osc := on_frequency (set_value freq) osc in
              let filter := mk_filter lowpass (600 + rnd_filter rnd * 200) (Some 0.5) in
              let g := on_gain (setValueAtTime 0 t) createGain in
              let g := on_gain (linearRampToValueAtTime velocity (t + 0.1)) g in
              let g := on_gain (exponentialRampToValueAtTime 0.001 (t + 4.0)) g in
              osc ← osc_start t osc;
              osc ← osc_stop (t + 4.5) osc;
              let w := set_notes (notes w ++ [mkNote osc filter g]) w in
              let nextTime := 2000 + rnd_delay rnd * 3000 in
              let '(id, w) := setTimeout PianoTick nextTime w in
              Ok (on_engine (set_pianoTimeout (Some id)) w)
          end
      end
  | _, _ => Ok w
  end.

Definition startPiano (now : R) (rnd : NoteRandoms) (w : World) : Res World :=
  if truthy (pianoTimeout (engine w)) then Ok w
  else playNextPianoNote now rnd (on_engine init w).

Definition stopPiano (w : World) : World :=
  if truthy (pianoTimeout (engine w)) then
    match pianoTimeout (engine w) with
    | Some id => on_engine (set_pianoTimeout None) (clearTimeout id w)
    | None => w
    end
  else w.

Definition togglePiano (now : R) (rnd : NoteRandoms) (shouldPlay : bool) (w : World)
  : Res World :=
  if shouldPlay then startPiano now rnd w else Ok (stopPiano w).

(** The [onended] handler of a note disconnects its nodes; in the table of
    notes the note's playback is marked as over. *)
Definition note_ended (i : nat) (w : World) : World :=
  set_notes
    (alter (fun n => mkNote (with_osc_sched (sched_end (osc_sched (note_osc n))) (note_osc n))
                       (note_filter n) (note_gain n)) i (notes w)) w.
(** *** Dynamic mixing *)

(** [Array.from(this.activeSounds).some(t => t !== 'RAIN')]. *)
Definition othersPlaying (e : AudioEngine) : bool :=
  existsb (fun t => bool_decide (t ≠ RAIN)) (elements (activeSounds e)).

Definition on_channel_gain (k : nat) (f : AudioParam -> AudioParam) (w : World) : World :=
  set_channels (alter (on_ch_gain f) k (channels w)) w.

Definition updateRainDynamics (now : R) (w : World) : World :=
  match rainGainNode (engine w), ctx (engine w) with
  | Some r, Some _ =>
      let othersPlaying := othersPlaying (engine w) in
      let targetVol := if othersPlaying then 0.05 else 0.15 in
      on_channel_gain r
        (fun p => setTargetAtTime targetVol now 0.5 (cancelScheduledValues now p)) w
  | _, _ => w
  end.

(** *** Interaction sounds *)

Definition createSource (e : AudioEngine) (buf : option AudioBuffer) (lp : bool)
  : option AudioBufferSourceNode :=
  match ctx e with
  | None => None
  | Some _ =>
      match buf with
      | Some b =>
          Some {| buffer := Some b; loop := lp;
                  playbackRate := playbackRate createBufferSource;
                  src_sched := src_sched createBufferSource |}
      | None => None
      end
  end.

Definition fadeInOut (t : R) (gainNode : GainNode) (dur : R) (lp : bool)
    (fadeTime targetVol : R) : GainNode :=
  let g := on_gain (setValueAtTime 0 t) gainNode in
  let g := on_gain (linearRampToValueAtTime targetVol (t + fadeTime)) g in
  if negb lp && bool_decide (0 < dur) then
    let g := on_gain (setValueAtTime targetVol (t + dur - fadeTime)) g in
    on_gain (linearRampToValueAtTime 0 (t + dur)) g
  else g.

Definition createNoiseBuffer (e : AudioEngine) : Res AudioBuffer :=
  match ctx e with
  | None => Throw NoContext
  | Some _ => Ok WhiteNoise
  end.

(** A looping noise source over a fresh noise buffer. *)
Definition noise_source (e : AudioEngine) : Res AudioBufferSourceNode :=
  buf ← createNoiseBuffer e;
  Ok {| buffer := Some buf; loop := true;
        playbackRate := playbackRate createBufferSource;
        src_sched := src_sched createBufferSource |}.

Definition buffer_of (type : SoundId) (e : AudioEngine) : option AudioBuffer :=
  match type with
  | BIRD => birdBuffer e
  | WIND => windBuffer e
  | LEAVES => leavesBuffer e
  | WATER => waterBuffer e
  | RAIN => rainBuffer e
  | INSECT => insectBuffer e
  end.

(** The nodes built by the branch of [type], as they are when
    [playInteractionSound] returns.  [t] is [ctx.currentTime], [rnd] the
    outcome of the branch's [Math.random()]. *)
Definition build_graph (t rnd : R) (type : SoundId) (tinnitusFreq : R) (e : AudioEngine)
  : Res ChannelGraph :=
  let calculatePitch := Pitch.calculatePitch tinnitusFreq in
  match type with
  | BIRD =>
      let src := createSource e (birdBuffer e) false in
      let rate := calculatePitch 8000 true in
      match src with
      | Some src =>
          let gain := createGain in
          let src := on_playbackRate (set_value rate) src in
          buf ← match buffer src with Some b => Ok b | None => Throw TypeError end;
          let gain := fadeInOut t gain (duration buf / rate) false 0.2 0.7 in
          src ← src_start t src;
          Ok (Sample src gain)
      | None =>
          let carrier := with_osc_type sine createOscillator in
          let carrier := on_frequency (setValueAtTime 2000 t) carrier in
          let carrier := on_frequency (exponentialRampToValueAtTime 1200 (t + 0.15)) carrier in
          let modulator := with_osc_type sine createOscillator in
          let modulator := on_frequency (set_value 40) modulator in
          let modGain := on_gain (set_value 500) createGain in
          let mainGain := on_gain (setValueAtTime 0 t) createGain in
          let mainGain := on_gain (linearRampToValueAtTime 0.1 (t + 0.05)) mainGain in
          let mainGain := on_gain (exponentialRampToValueAtTime 0.001 (t + 0.4)) mainGain in
          carrier ← osc_start t carrier;
          modulator ← osc_start t modulator;
          carrier ← osc_stop (t + 0.5) carrier;
          modulator ← osc_stop (t + 0.5) modulator;
          Ok (FM carrier modulator modGain mainGain)
      end
  | LEAVES =>
      let src := createSource e (leavesBuffer e) true in
      let gain := createGain in
      let rate := calculatePitch 8000 false in
      match src with
      | Some src =>
          let src := on_playbackRate (set_value (rate * (0.9 + rnd * 0.2))) src in
          src ← src_start t src;
          Ok (Sample src (fadeInOut t gain 0 true 0.3 0.6))
      | None =>
          noiseSrc ← noise_source e;
          let filter := mk_filter highpass 1200 (Some 1.0) in
          let lfo := on_frequency (set_value 1.5) createOscillator in
          let lfoGain := on_gain (set_value 300) createGain in
          noiseSrc ← src_start t noiseSrc;
          lfo ← osc_start t lfo;
          Ok (Noise noiseSrc filter (Some (lfo, lfoGain)) (fadeInOut t gain 0 true 0.5 0.15))
      end
  | WIND =>
      let src := createSource e (windBuffer e) true in
      let gain := createGain in
      let rate := calculatePitch 8000 false in
      match src with
      | Some src =>
          let src := on_playbackRate (set_value rate) src in
          src ← src_start t src;
          Ok (Sample src (fadeInOut t gain 0 true 1.0 0.8))
      | None =>
          noiseSrc ← noise_source e;
          let filter := mk_filter lowpass 300 (Some 0.5) in
          noiseSrc ← src_start t noiseSrc;
          Ok (Noise noiseSrc filter None (fadeInOut t gain 0 true 2.0 0.25))
      end
  | WATER =>
      let src := createSource e (waterBuffer e) true in
      let gain := createGain in
      let rate := calculatePitch 8000 false in
      match src with
      | Some src =>
          let src := on_playbackRate (set_value (rate * (0.95 + rnd * 0.1))) src in
          src ← src_start t src;
          Ok (Sample src (fadeInOut t gain 0 true 1.5 0.7))
      | None =>
          noiseSrc ← noise_source e;
          let filter := mk_filter lowpass 150 None in
          noiseSrc ← src_start t noiseSrc;
          Ok (Noise noiseSrc filter None (fadeInOut t gain 0 true 2.0 0.3))
      end
  | RAIN =>
      let src := createSource e (rainBuffer e) true in
      let gain := createGain in
      let rate := calculatePitch 8000 false in
      match src with
      | Some src =>
          let src := on_playbackRate (set_value rate) src in
          src ← src_start t src;
          let othersPlaying := othersPlaying e in
          let startVol := if othersPlaying then 0.05 else 0.15 in
          let gain := on_gain (setValueAtTime 0 t) gain in
          let gain := on_gain (linearRampToValueAtTime startVol (t + 0.8)) gain in
          Ok (Sample src gain)
      | None =>
          noiseSrc ← noise_source e;
          let filter := mk_filter highpass 800 None in
          noiseSrc ← src_start t noiseSrc;
          let othersPlaying := othersPlaying e in
          let startVol := if othersPlaying then 0.03 else 0.08 in
          let gain := on_gain (setValueAtTime 0 t) gain in
          let gain := on_gain (linearRampToValueAtTime startVol (t + 1.0)) gain in
          Ok (Noise noiseSrc filter None gain)
      end
  | INSECT =>
      let src := createSource e (insectBuffer e) true in
      let rate := calculatePitch 8000 true in
      match src with
      | Some src =>
          let gain := createGain in
          let src := on_playbackRate (set_value rate) src in
          src ← src_start t src;
          Ok (Sample src (fadeInOut t gain 0 true 0.3 0.5))
      | None =>
          let carrier := with_osc_type triangle createOscillator in
          let carrier :=
            on_frequency
              (set_value (if decide (0 < tinnitusFreq) then tinnitusFreq else 6000))
              carrier in
          let modulator := with_osc_type square createOscillator in
          let modulator := on_frequency (set_value 30) modulator in
          let modGain := on_gain (set_value 800) createGain in
          let mainGain := createGain in
          carrier ← osc_start t carrier;
          modulator ← osc_start t modulator;
          Ok (FM carrier modulator modGain (fadeInOut t mainGain 0 true 0.5 0.05))
      end
  end.

(** What [playInteractionSound] returns: the inert [() => {}], or the
    [stopFn] of the channel it created. *)
Inductive Handle :=
| Inert
| StopFn (k : nat).

Definition playInteractionSound (now rnd : R) (type : SoundId) (tinnitusFreq : R)
    (onEnded : bool) (w : World) : Res (Handle * World) :=
  let w := on_engine init w in
  match ctx (engine w), masterGain (engine w) with
  | Some _, Some _ =>
      let t := now in
      let w := on_engine (fun e => set_activeSounds ({[type]} ∪ activeSounds e) e) w in
      let w := updateRainDynamics now w in
      let k := length (channels w) in
      let w :=
        match type with
        | RAIN => on_engine (set_rainGainNode (Some k)) w
        | _ => w
        end in
      g ← build_graph t rnd type tinnitusFreq (engine w);
      let w := set_channels (channels w ++ [mkChannel type g onEnded]) w in
      let w :=
        match type, g with
        | BIRD, FM _ _ _ _ => snd (setTimeout (ChirpDone k) 500 w)
        | _, _ => w
        end in
      Ok (StopFn k, w)
  | _, _ => Ok (Inert, w)
  end.

(** The [internalStop] closure of the branch that built the channel. *)
Definition internalStop (now : R) (c : Channel) (e : AudioEngine)
  : Res (ChannelGraph * AudioEngine) :=
  (* [this.ctx!.currentTime] *)
  let currentTime := match ctx e with Some _ => Ok now | None => Throw TypeError end in
  (* fade [gain] over [fade] seconds, cancelling first when [cancel]; stop
     the sources [stop] seconds from now *)
  let looping (cancel : bool) (fade stop : R) (g : ChannelGraph) : Res ChannelGraph :=
    now ← currentTime;
    let ramp p :=
      linearRampToValueAtTime 0 (now + fade)
        (if cancel then cancelScheduledValues now p else p) in
    match g with
    | Sample src gain =>
        let gain := on_gain ramp gain in
        src ← src_stop (now + stop) src;
        Ok (Sample src gain)
    | Noise noiseSrc filter lfo gain =>
        let gain := on_gain ramp gain in
        noiseSrc ← src_stop (now + stop) noiseSrc;
        lfo ← match lfo with
              | Some (o, lg) => o ← osc_stop (now + stop) o; Ok (Some (o, lg))
              | None => Ok None
              end;
        Ok (Noise noiseSrc filter lfo gain)
    | FM carrier modulator modGain mainGain =>
        let mainGain := on_gain ramp mainGain in
        carrier ← osc_stop (now + stop) carrier;
        modulator ← osc_stop (now + stop) modulator;
        Ok (FM carrier modulator modGain mainGain)
    end in
  let sampled := match ch_graph c with Sample _ _ => true | _ => false end in
  match ch_type c with
  | BIRD =>
      match ch_graph c with
      | Sample src gain =>
          Ok (try_catch (ch_graph c)
                (now ← currentTime;
                 src ← src_stop (now + 0.5) src;
                 Ok (Sample src (on_gain (linearRampToValueAtTime 0 (now + 0.5)) gain))),
              e)
      | g => Ok (g, e)
      end
  | LEAVES =>
      g ← (if sampled then looping true 0.6 0.7 (ch_graph c)
           else looping false 0.5 0.6 (ch_graph c));
      Ok (g, e)
  | WIND =>
      g ← (if sampled then looping true 1.5 1.6 (ch_graph c)
           else looping false 2.0 2.1 (ch_graph c));
      Ok (g, e)
  | WATER =>
      g ← (if sampled then looping true 1.5 1.6 (ch_graph c)
           else looping false 2.0 2.1 (ch_graph c));
      Ok (g, e)
  | RAIN =>
      _ ← currentTime;
      let e := set_rainGainNode None e in
      g ← (if sampled then looping true 0.8 0.9 (ch_graph c)
           else looping false 1.0 1.1 (ch_graph c));
      Ok (g, e)
  | INSECT =>
      g ← (if sampled then looping true 0.5 0.6 (ch_graph c)
           else looping false 0.3 0.4 (ch_graph c));
      Ok (g, e)
  end.

(** The wrapper [stopFn] returned for channel [k]. *)
Definition stopFn (k : nat) (now : R) (w : World) : Res World :=
  match channels w !! k with
  | None => Ok w
  | Some c =>
      '(g, e) ← internalStop now c (engine w);
      let w := set_channels (<[k := with_graph g c]> (channels w)) (set_engine e w) in
      let w := on_engine (fun e => set_activeSounds (activeSounds e ∖ {[ch_type c]}) e) w in
      Ok (updateRainDynamics now w)
  end.

Definition call_handle (h : Handle) (now : R) (w : World) : Res World :=
  match h with
  | Inert => Ok w
  | StopFn k => stopFn k now w
  end.

(** The body shared by the [onended] handler of the sampled BIRD and the
    [setTimeout] callback of the synthesized one, for channel [k]. *)
Definition natural_end (k : nat) (now : R) (w : World) : World :=
  match channels w !! k with
  | None => w
  | Some c =>
      let w := on_engine (fun e => set_activeSounds (activeSounds e ∖ {[ch_type c]}) e) w in
      let w := updateRainDynamics now w in
      if ch_onEnded c then set_notified (notified w ++ [k]) w else w
  end.

(** Playback of the sources of channel [k] is over. *)
Definition mark_ended (k : nat) (w : World) : World :=
  set_channels (alter (fun c => with_graph (graph_end (ch_graph c)) c) k (channels w)) w.

(** Only the branch of the sampled BIRD assigns [src.onended]. *)
Definition has_onended (c : Channel) : bool :=
  match ch_type c, ch_graph c with
  | BIRD, Sample _ _ => true
  | _, _ => false
  end.

(** Playback of channel [k] ends: its sample ran out, or the time passed
    to [stop] has come.  The [onended] handler, where there is one, runs in
    the same step. *)
Definition playback_ends (k : nat) (now : R) (w : World) : World :=
  match channels w !! k with
  | None => w
  | Some c =>
      let w := mark_ended k w in
      if has_onended c then natural_end k now w else w
  end.

(** The callback of a timer runs.  The synthesized BIRD chirp stops at
    [t + 0.5] and its timer is set to 500 ms: the end of its playback and
    the callback are one step. *)
Definition run_callback (cb : TimerCallback) (now : R) (rnd : NoteRandoms) (w : World)
  : Res World :=
  match cb with
  | PianoTick => playNextPianoNote now rnd w
  | ChirpDone k => Ok (natural_end k now (mark_ended k w))
  | DroneTeardown nodesToStop => Ok w
  end.

Definition find_timer (id : nat) (w : World) : option Timer :=
  head (filter (fun tm => timer_id tm = id) (timers w)).

Definition timer_fires (id : nat) (now : R) (rnd : NoteRandoms) (w : World) : Res World :=
  match find_timer id w with
  | None => Ok w
  | Some tm => run_callback (timer_cb tm) now rnd (clearTimeout id w)
  end.

(** *** Runs of the engine *)

Inductive Op :=
| Init
| BufferLoaded (type : SoundId) (b : option AudioBuffer)
| StartTinnitusTone (now frequency vol : R)
| UpdateTinnitusFreq (now frequency : R)
| StopTinnitusTone (now : R)
| StartAmbientTrack (tinnitusFreq : R)
| ToggleDrone (now : R) (shouldPlay : bool)
| TogglePiano (now : R) (rnd : NoteRandoms) (shouldPlay : bool)
| PlayInteractionSound (now rnd : R) (type : SoundId) (tinnitusFreq : R) (onEnded : bool)
| CallStop (k : nat) (now : R)
| TimerFires (id : nat) (now : R) (rnd : NoteRandoms)
| PlaybackEnds (k : nat) (now : R)
| NoteEnds (i : nat).

Definition exec (op : Op) (w : World) : Res World :=
  match op with
  | Init => Ok (on_engine init w)
  | BufferLoaded type b => Ok (on_engine (set_buffer type b) w)
  | StartTinnitusTone now frequency vol =>
      e ← startTinnitusTone now frequency vol (engine w); Ok (set_engine e w)
  | UpdateTinnitusFreq now frequency => Ok (on_engine (updateTinnitusFreq now frequency) w)
  | StopTinnitusTone now => e ← stopTinnitusTone now (engine w); Ok (set_engine e w)
  | StartAmbientTrack tinnitusFreq => Ok (on_engine (startAmbientTrack tinnitusFreq) w)
  | ToggleDrone now shouldPlay => toggleDrone now shouldPlay w
  | TogglePiano now rnd shouldPlay => togglePiano now rnd shouldPlay w
  | PlayInteractionSound now rnd type tinnitusFreq onEnded =>
      r ← playInteractionSound now rnd type tinnitusFreq onEnded w; Ok (snd r)
  | CallStop k now => stopFn k now w
  | TimerFires id now rnd => timer_fires id now rnd w
  | PlaybackEnds k now => Ok (playback_ends k now w)
  | NoteEnds i => Ok (note_ended i w)
  end.

Definition unit_interval (x : R) : Prop := 0 <= x < 1.

Definition randoms_ok (rnd : NoteRandoms) : Prop :=
  unit_interval (rnd_pitch rnd) /\ unit_interval (rnd_velocity rnd)
  /\ unit_interval (rnd_filter rnd) /\ unit_interval (rnd_delay rnd).

(** Can playback of channel [c] end now: it has not ended yet, and either
    it plays a sample once, or its sources have been told to stop.  (The
    end of the synthesized BIRD chirp is the step of its timer.) *)
Definition may_end (c : Channel) : Prop :=
  Forall (fun s => ended s = false) (graph_scheds (ch_graph c))
  /\ match ch_graph c with
     | Sample src _ => loop src = false \/ stopped (src_sched src) <> None
     | Noise noiseSrc _ _ _ => stopped (src_sched noiseSrc) <> None
     | FM carrier _ _ _ => ch_type c <> BIRD /\ stopped (osc_sched carrier) <> None
     end.

(** When can a step happen: [Math.random()] is in [0, 1); buffers are
    assigned by [loadAmbientTrack] after its [init]; a stop handle has been
    returned; a timer is pending; playback can end. *)
Definition enabled (op : Op) (w : World) : Prop :=
  match op with
  | BufferLoaded _ _ => ctx (engine w) <> None
  | TogglePiano _ rnd _ => randoms_ok rnd
  | PlayInteractionSound _ rnd _ _ _ => unit_interval rnd
  | CallStop k _ => (k < length (channels w))%nat
  | TimerFires id _ rnd => randoms_ok rnd /\ is_Some (find_timer id w)
  | PlaybackEnds k _ => exists c, channels w !! k = Some c /\ may_end c
  | NoteEnds i =>
      exists n, notes w !! i = Some n /\ ended (osc_sched (note_osc n)) = false
  | _ => True
  end.

(** Runs: [steps w w'] when the engine can go from [w] to [w'] by steps
    that can happen and do not throw.  The states of the engine are those
    reached from the initial one. *)
Inductive steps : World -> World -> Prop :=
| steps_refl w : steps w w
| steps_step w w1 op w2 :
    steps w w1 -> enabled op w1 -> exec op w1 = Ok w2 -> steps w w2.

Definition reachable (w : World) : Prop := steps world0 w.

(** Running a list of steps. *)
Fixpoint run (ops : list Op) (w : World) : Res World :=
  match ops with
  | [] => Ok w
  | op :: ops => w ← exec op w; run ops w
  end.

(** *** What the claims observe *)

(** The final gain of the channel that [rainGainNode] refers to. *)
Definition rain_target (w : World) : option R :=
  r ← rainGainNode (engine w);
  c ← channels w !! r;
  Some (target (gain (graph_gain (ch_graph c)))).

(** Is the channel a synthesized fallback. *)
Definition synthesized (c : Channel) : bool :=
  match ch_graph c with
  | Sample _ _ => false
  | _ => true
  end.

(** The parameter that tunes a synthesized channel: the cutoff of its
    filter, or the frequency of its carrier. *)
Definition tuning (g : ChannelGraph) : option AudioParam :=
  match g with
  | Sample _ _ => None
  | Noise _ filter _ _ => Some (filter_frequency filter)
  | FM carrier _ _ _ => Some (frequency carrier)
  end.

(** The channel produces audio: playback of none of its sources is over. *)
Definition audible (c : Channel) : Prop :=
  Forall (fun s => ended s = false) (graph_scheds (ch_graph c)).

(** The channel plays undisturbed: it is audible and, unless it is a
    one-shot BIRD, none of its sources has been told to stop. *)
Definition playing (c : Channel) : Prop :=
  audible c
  /\ (ch_type c <> BIRD -> Forall (fun s => stopped s = None) (graph_scheds (ch_graph c))).

(** The pending callbacks of the piano. *)
Definition is_piano_tick (tm : Timer) : bool :=
  match timer_cb tm with
  | PianoTick => true
  | _ => false
  end.

Definition piano_timers (w : World) : list Timer :=
  filter (fun tm => is_piano_tick tm = true) (timers w).

Definition oscillators (l : list AudioNode) : list OscillatorNode :=
  omap (fun n => match n with NOsc o => Some o | _ => None end) l.

(** *** The worlds after a start and after a stop *)

(** The engine as the branch of [type] finds it: initialised, [type]
    added to the active sounds, and for RAIN [rainGainNode] set. *)
Definition started_engine (k : nat) (type : SoundId) (e : AudioEngine) : AudioEngine :=
  let e := init e in
  let e := set_activeSounds ({[type]} ∪ activeSounds e) e in
  match type with
  | RAIN => set_rainGainNode (Some k) e
  | _ => e
  end.

Definition started_world (now : R) (type : SoundId) (g : ChannelGraph) (onEnded : bool)
    (w : World) : World :=
  let k := length (channels w) in
  let w1 :=
    updateRainDynamics now
      (on_engine (fun e => set_activeSounds ({[type]} ∪ activeSounds e) e)
         (on_engine init w)) in
  let w1 :=
    match type with
    | RAIN => on_engine (set_rainGainNode (Some k)) w1
    | _ => w1
    end in
  let w2 := set_channels (channels w1 ++ [mkChannel type g onEnded]) w1 in
  match type, g with
  | BIRD, FM _ _ _ _ => snd (setTimeout (ChirpDone k) 500 w2)
  | _, _ => w2
  end.

(** The world after the stop handle of channel [k]: [c] is the channel
    before the call, [g] its graph after [internalStop]. *)
Definition stopped_world (k : nat) (now : R) (w : World) (c : Channel) (g : ChannelGraph)
  : World :=
  let e := if decide (ch_type c = RAIN) then set_rainGainNode None (engine w) else engine w in
  updateRainDynamics now
    (on_engine (fun e => set_activeSounds (activeSounds e ∖ {[ch_type c]}) e)
       (set_channels (<[k := with_graph g c]> (channels w)) (set_engine e w))).

(** *** Invariants of the runs *)

(** The sources of a channel are started when it is created; only the BIRD
    sample does not loop, and no BIRD is filtered noise. *)
Definition wf_channel (c : Channel) : Prop :=
  Forall (fun s => started s <> None) (graph_scheds (ch_graph c))
  /\ match ch_graph c with
     | Sample src _ => loop src = false -> ch_type c = BIRD
     | Noise _ _ _ _ => ch_type c <> BIRD
     | FM _ _ _ _ => True
     end.

(** The graph after a [stop] on its sources: same shape, same starts, and
    playback over where it was. *)
Definition same_playback (g g' : ChannelGraph) : Prop :=
  Forall2 (fun s s' => started s' = started s /\ ended s' = ended s)
    (graph_scheds g) (graph_scheds g')
  /\ match g, g' with
     | Sample src _, Sample src' _ => loop src' = loop src
     | Noise _ _ _ _, Noise _ _ _ _ => True
     | FM _ _ _ _, FM _ _ _ _ => True
     | _, _ => False
     end.

Record inv (w : World) : Prop := mkInv {
  inv_ctx :
    ctx (engine w) = None -> channels w = [] /\ tinnitusOsc (engine w) = None;
  inv_master :
    ctx (engine w) <> None -> masterGain (engine w) <> None;
  inv_channels :
    Forall wf_channel (channels w);
  inv_tone :
    forall o, tinnitusOsc (engine w) = Some o -> started (osc_sched o) <> None;
  inv_rain :
    forall r, rainGainNode (engine w) = Some r ->
      exists c, channels w !! r = Some c /\ ch_type c = RAIN;
  inv_piano :
    Forall (fun tm => is_piano_tick tm = true ->
                      pianoTimeout (engine w) = Some (timer_id tm)) (timers w);
  inv_timer_ids :
    (1 <= next_timer w)%nat /\ Forall (fun tm => (1 <= timer_id tm)%nat) (timers w);
  inv_active :
    forall X, X ∈ activeSounds (engine w) ->
      exists k c, channels w !! k = Some c /\ ch_type c = X /\ playing c
}.

(** *** Runs and statements used below *)

(** Channels keep their place and their type. *)
Definition chan_mono (w w' : World) : Prop :=
  forall k c, channels w !! k = Some c ->
    exists c', channels w' !! k = Some c' /\ ch_type c' = ch_type c.

(** WIND with no sample loaded, started at time 0 and stopped at 0.5. *)
Definition wind_fallback_run : list Op :=
  [PlayInteractionSound 0 0 WIND 8000 false; CallStop 0 0.5].

(** The same with the sample of WIND loaded. *)
Definition wind_sample_run : list Op :=
  [Init; BufferLoaded WIND (Some (Decoded 30));
   PlayInteractionSound 0 0 WIND 8000 false; CallStop 0 0.5].

(** RAIN with no sample loaded, then WIND started and stopped. *)
Definition rain_fallback_run : list Op :=
  [PlayInteractionSound 0 0 RAIN 8000 false;
   PlayInteractionSound 1 0 WIND 8000 false;
   CallStop 1 2].

(** A calibration tone of 4500 Hz started at time 0. *)
Definition tone_run : list Op := [StartTinnitusTone 0 4500 0.1].

(** Random draws that are all 0. *)
Definition randoms0 : NoteRandoms := mkRandoms 0 0 0 0.



End Engine.

(** ** The earlier copy of the engine

    The repository holds a second, earlier [AudioEngine].  Its
    [calculatePitch], [updateRainDynamics] and [stopFn] read the same; its
    synthesized fallbacks are tuned by the reference frequency.  This is the
    parameter each of them sets: the frequency of the oscillator (BIRD,
    INSECT) or the cutoff of the noise filter. *)

Module V1.
Import WebAudio.

Definition fallback_tuning (t : R) (type : SoundId) (tinnitusFreq : R) : AudioParam :=
  match type with
  | BIRD =>
      exponentialRampToValueAtTime (tinnitusFreq * 1.5) (t + 0.1)
        (setValueAtTime tinnitusFreq t (frequency createOscillator))
  | LEAVES => set_value (900 * (tinnitusFreq / 8000)) (filter_frequency createBiquadFilter)
  | WIND => set_value (400 * (tinnitusFreq / 8000)) (filter_frequency createBiquadFilter)
  | WATER => set_value (200 * (tinnitusFreq / 8000)) (filter_frequency createBiquadFilter)
  | RAIN => set_value (600 * (tinnitusFreq / 8000)) (filter_frequency createBiquadFilter)
  | INSECT => set_value tinnitusFreq (frequency createOscillator)
  end.

End V1.

(** ** What the engine keeps over a run *)

Module Kept.
Import WebAudio Engine.

(** The nodes [startDrone] stores: the master gain of the drone first,
    then eight nodes, four of them oscillators that run. *)
Definition drone_wf (l : list AudioNode) : Prop :=
  l = [] \/
  exists g rest, l = NGain g :: rest /\ length rest = 8%nat
    /\ length (oscillators rest) = 4%nat
    /\ Forall (fun o => started (osc_sched o) <> None /\ stopped (osc_sched o) = None)
         (oscillators rest).

Definition is_FM (g : ChannelGraph) : bool :=
  match g with
  | FM _ _ _ _ => true
  | _ => false
  end.

(** Playback of every source of the channel is over. *)
Definition over (c : Channel) : Prop :=
  Forall (fun s => ended s = true) (graph_scheds (ch_graph c)).

Record kept (w : World) : Prop := mkKept {
  kept_ambient :
    ambientSource (engine w) = None;
  kept_master :
    forall g, masterGain (engine w) = Some g -> g = on_gain (set_value 0.5) createGain;
  kept_running :
    forall c, ctx (engine w) = Some c -> ctx_state c = running;
  kept_drone :
    drone_wf (droneNodes (engine w));
  kept_drone_ctx :
    ctx (engine w) = None -> droneNodes (engine w) = [];
  kept_ctx_timers :
    ctx (engine w) = None -> timers w = [];
  kept_fresh :
    Forall (fun tm => (timer_id tm < next_timer w)%nat) (timers w);
  kept_ids :
    NoDup (timer_id <$> timers w);
  kept_delay :
    Forall (fun tm => is_piano_tick tm = true -> 2000 <= timer_ms tm < 5000) (timers w);
  kept_chirp :
    forall tm k, tm ∈ timers w -> timer_cb tm = ChirpDone k ->
      exists c, channels w !! k = Some c /\ ch_type c = BIRD
                /\ is_FM (ch_graph c) = true /\ audible c;
  kept_chirps :
    forall tm tm' k, tm ∈ timers w -> tm' ∈ timers w ->
      timer_cb tm = ChirpDone k -> timer_cb tm' = ChirpDone k -> timer_id tm = timer_id tm';
  kept_notified :
    forall k, k ∈ notified w ->
      exists c, channels w !! k = Some c /\ ch_type c = BIRD
                /\ ch_onEnded c = true /\ over c;
  kept_once :
    NoDup (notified w)
}.

(** What a step may do to a channel that stays in place. *)
Definition same_call (c c' : Channel) : Prop :=
  ch_type c' = ch_type c /\ ch_onEnded c' = ch_onEnded c
  /\ is_FM (ch_graph c') = is_FM (ch_graph c)
  /\ (over c -> over c').

Definition chan_keep (w w' : World) : Prop :=
  forall k c, channels w !! k = Some c ->
    exists c', channels w' !! k = Some c' /\ same_call c c'.

(** The fields no method but [init], [startAmbientTrack] and the drone
    writes. *)
Definition quad (e : AudioEngine) :=
  (ambientSource e, masterGain e, ctx e, droneNodes e).

Definition engine_kept (e : AudioEngine) : Prop :=
  ambientSource e = None
  /\ (forall g, masterGain e = Some g -> g = on_gain (set_value 0.5) createGain)
  /\ (forall c, ctx e = Some c -> ctx_state c = running)
  /\ drone_wf (droneNodes e)
  /\ (ctx e = None -> droneNodes e = []).

End Kept.

(** ** Statements about the end of a one-shot sound *)

Module OneShot.
Import WebAudio Engine Kept.

(** What the end of BIRD channel [k] leaves: [w] before, [w'] after, [c]
    the channel before. *)
Definition bird_ended (w : World) (k : nat) (c : Channel) (w' : World) : Prop :=
  activeSounds (engine w') = activeSounds (engine w) ∖ {[BIRD]}
  /\ notified w' = notified w ++ (if ch_onEnded c then [k] else [])
  /\ (exists c', channels w' !! k = Some c' /\ over c')
  /\ (forall r, rainGainNode (engine w') = Some r ->
        rain_target w' = Some (if othersPlaying (engine w') then 0.05 else 0.15)).

End OneShot.

(** ** The sequencer over a run *)

Module Sequencer.
Import WebAudio Engine Kept.

(** The timer [pianoTimeout] names is pending. *)
Definition ticking (w : World) : Prop :=
  forall id, pianoTimeout (engine w) = Some id ->
    exists tm, tm ∈ timers w /\ timer_id tm = id /\ is_piano_tick tm = true.

(** The note a tick of the sequencer plays at time [t], by its draws. *)
Definition note_of (t : R) (rnd : NoteRandoms) (n : PianoNote) : Prop :=
  osc_type (note_osc n) = triangle
  /\ value (frequency (note_osc n)) ∈ scale
  /\ osc_sched (note_osc n) = mkSched (Some t) (Some (t + 4.5)) false
  /\ filter_type (note_filter n) = lowpass
  /\ value (filter_frequency (note_filter n)) = 600 + rnd_filter rnd * 200
  /\ events (gain (note_gain n))
     = [SetValueAtTime 0 t;
        LinearRampToValueAtTime (0.03 + rnd_velocity rnd * 0.03) (t + 0.1);
        ExponentialRampToValueAtTime 0.001 (t + 4.0)].

End Sequencer.

(** ** Statements about the graph of a channel *)

Module Graphs.
Import WebAudio Engine Kept.

(** The random detuning of the sample of [type]: LEAVES and WATER only. *)
Definition detune_of (type : SoundId) (rnd : R) : R :=
  match type with
  | LEAVES => 0.9 + rnd * 0.2
  | WATER => 0.95 + rnd * 0.1
  | _ => 1
  end.


End Graphs.

(** ** Loading the assets ([loadAmbientTrack]) *)

Module Loader.
Import WebAudio Engine.

(** What the [try] block of [loadBuffer] meets on one path. *)
Inductive Attempt :=
| FetchRejects                 (* [fetch] throws *)
| NotOk                        (* the response is not [ok] *)
| BodyRejects                  (* [arrayBuffer] throws *)
| DecodeRejects                (* [decodeAudioData] throws *)
| Decodes (decoded : AudioBuffer).

(** The platform, as [loadBuffer] sees it: what each path gives. *)
Definition Network := string -> Attempt.

Definition pathsToTry (filename : string) : list string :=
  ["./" +:+ filename; "/" +:+ filename; filename].

(** The [for] loop over the paths: the first path that decodes returns; a
    response that is not [ok], and an exception, go on to the next path. *)
Fixpoint try_paths (net : Network) (paths : list string) : option AudioBuffer :=
  match paths with
  | [] => None
  | path :: rest =>
      match net path with
      | Decodes decoded => Some decoded
      | _ => try_paths net rest
      end
  end.

Definition loadBuffer (net : Network) (filename : string) : option AudioBuffer :=
  try_paths net (pathsToTry filename).



(** Does a path give a buffer. *)
Definition decodes (net : Network) (path : string) : Prop :=
  exists b, net path = Decodes b.


End Loader.

(** ** The frequency slider ([TuningPanel]) *)

Module TuningPanel.
Import Pitch.

Definition MIN_FREQ : R := 4500.
Definition MAX_FREQ : R := 10000.

(** [Math.pow] on a positive base, [Math.log], and [Math.round], which
    rounds halves up. *)
Definition Math_pow (x y : R) : R := Rpower x y.
Definition Math_round (x : R) : R := IZR (Int_part (x + 0.5)).

(** From the position on the track, 0 to 1, to the frequency. *)
Definition toLogFreq (position : R) : R :=
  let clampedPos := Math_max 0 (Math_min 1 position) in
  Math_round (MIN_FREQ * Math_pow (MAX_FREQ / MIN_FREQ) clampedPos).


(** The frequency a pointer event sets: [left] and [width] are those of the
    track's bounding rectangle. *)
Definition updateFrequencyFromEvent (clientX left width : R) : R :=
  let x := clientX - left in
  let percentage := x / width in
  toLogFreq percentage.

End TuningPanel.

(** ** The sound handlers of [App] *)

(** The handlers are embedded as the functions they are: from the state
    of [App] and of the engine to the new ones.  React runs a state
    updater on the state current when it runs; an engine call throws where
    the engine does. *)

Module App.
Import WebAudio Engine Kept.

Record Preset := mkPreset {
  preset_id : string;
  preset_name : string;
  preset_sounds : list SoundId
}.

Definition PRESETS : list Preset :=
  [mkPreset "forest" "Quiet Forest" [BIRD; LEAVES; INSECT];
   mkPreset "rain" "Rainy Shelter" [RAIN; WATER; WIND];
   mkPreset "ocean" "Ocean Breeze" [WATER; WIND; BIRD];
   mkPreset "night" "Summer Night" [INSECT; WIND]].

(** A JS [Set] of sounds: its elements in insertion order, each once. *)
Definition Set_has (x : SoundId) (s : list SoundId) : bool := bool_decide (x ∈ s).

Definition Set_add (x : SoundId) (s : list SoundId) : list SoundId :=
  if Set_has x s then s else s ++ [x].

Definition Set_delete (x : SoundId) (s : list SoundId) : list SoundId :=
  filter (fun y => y <> x) s.

(** The state of [App] that its sound handlers read and write: the states
    [frequency], [activeSounds], [droneActive] and [pianoActive], and the
    [Map] of the ref [stopFns]. *)
Record AppState := mkApp {
  app_frequency : R;
  app_activeSounds : list SoundId;
  app_stopFns : gmap SoundId Handle;
  app_droneActive : bool;
  app_pianoActive : bool
}.

Definition set_sounds (s : list SoundId) (fns : gmap SoundId Handle) (a : AppState)
  : AppState :=
  {| app_frequency := app_frequency a; app_activeSounds := s; app_stopFns := fns;
     app_droneActive := app_droneActive a; app_pianoActive := app_pianoActive a |}.

(** [const stop = stopFns.current.get(sound); if (stop) stop();] *)
Definition call_stop (now : R) (sound : SoundId) (fns : gmap SoundId Handle) (w : World)
  : Res World :=
  match fns !! sound with
  | Some stop => call_handle stop now w
  | None => Ok w
  end.

(** The callback that [toggleSound] and [applyPreset] pass to
    [playInteractionSound] for [type]: its updater on the current state. *)
Definition onEnded (type : SoundId) (a : AppState) : AppState :=
  set_sounds (Set_delete type (app_activeSounds a)) (delete type (app_stopFns a)) a.


(** The first loop of [applyPreset], over the active sounds. *)
Fixpoint stop_missing (now : R) (sounds : list SoundId) (active : list SoundId)
    (fns : gmap SoundId Handle) (w : World) : Res (gmap SoundId Handle * World) :=
  match active with
  | [] => Ok (fns, w)
  | sound :: rest =>
      if bool_decide (sound ∈ sounds) then stop_missing now sounds rest fns w
      else
        w ← call_stop now sound fns w;
        stop_missing now sounds rest (delete sound fns) w
  end.

(** Its last loop, over the sounds of the preset; [rnd sound] is the draw
    of [Math.random()] in the call that starts [sound]. *)
Fixpoint start_new (now : R) (rnd : SoundId -> R) (frequency : R)
    (activeSounds : list SoundId) (sounds : list SoundId)
    (newActiveSet : list SoundId) (fns : gmap SoundId Handle) (w : World)
  : Res (list SoundId * gmap SoundId Handle * World) :=
  match sounds with
  | [] => Ok (newActiveSet, fns, w)
  | sound :: rest =>
      if Set_has sound activeSounds then
        start_new now rnd frequency activeSounds rest newActiveSet fns w
      else
        '(stop, w) ← playInteractionSound now (rnd sound) sound frequency true w;
        start_new now rnd frequency activeSounds rest
          (Set_add sound newActiveSet) (<[sound := stop]> fns) w
  end.

(** The handler runs in one task: [ctx.currentTime] is [now] throughout. *)
Definition applyPreset (now : R) (rnd : SoundId -> R) (preset : Preset)
    (a : AppState) (w : World) : Res (AppState * World) :=
  let activeSounds := app_activeSounds a in
  '(fns, w) ← stop_missing now (preset_sounds preset) activeSounds (app_stopFns a) w;
  let newActiveSet :=
    foldl (fun s sound => Set_add sound s) []
      (filter (fun sound => sound ∈ preset_sounds preset) activeSounds) in
  '(newActiveSet, fns, w) ←
    start_new now rnd (app_frequency a) activeSounds (preset_sounds preset)
      newActiveSet fns w;
  Ok (set_sounds newActiveSet fns a, w).



(** [activePresetId], from the state [activeSounds]. *)
Definition matches (activeSounds : list SoundId) (p : Preset) : bool :=
  if negb (length (preset_sounds p) =? length activeSounds)%nat then false
  else forallb (fun s => Set_has s activeSounds) (preset_sounds p).

Definition activePresetId (activeSounds : list SoundId) : option string :=
  preset_id <$> List.find (matches activeSounds) PRESETS.


(** The state of [App] agrees with the engine: the same sounds are
    active, [stopFns] holds for each the handle of a channel of that
    sound, and every channel was started with a callback. *)
Definition agrees (a : AppState) (w : World) : Prop :=
  NoDup (app_activeSounds a)
  /\ (forall X, X ∈ app_activeSounds a <-> X ∈ activeSounds (engine w))
  /\ (forall X, X ∈ app_activeSounds a ->
        exists k c, app_stopFns a !! X = Some (StopFn k)
                    /\ channels w !! k = Some c /\ ch_type c = X)
  /\ Forall (fun c => ch_onEnded c = true) (channels w).


(** What the handlers rely on from one engine call to the next: the run
    goes on, the channels stay in place, and no channel without a
    callback appears. *)
Definition frame (w w' : World) : Prop :=
  steps w w' /\ chan_keep w w'
  /\ (Forall (fun c => ch_onEnded c = true) (channels w) ->
      Forall (fun c => ch_onEnded c = true) (channels w')).

Definition handles (l : list SoundId) (fns : gmap SoundId Handle) (w : World) : Prop :=
  forall X, X ∈ l ->
    exists k c, fns !! X = Some (StopFn k) /\ channels w !! k = Some c /\ ch_type c = X.


Definition app0 : AppState :=
  {| app_frequency := 4500; app_activeSounds := []; app_stopFns := ∅;
     app_droneActive := false; app_pianoActive := false |}.

End App.

(** ** The uniforms of [WaterSurface] *)

Module WaterSurface.

Inductive AppMode := INTRO | TUNING | GARDEN.

#[global] Instance AppMode_eq_dec : EqDecision AppMode.
Proof. solve_decision. Defined.

(** [THREE.MathUtils.lerp]. *)
Definition lerp (x y t : R) : R := (1 - t) * x + t * y.

Record Uniforms := mkUniforms {
  uTime : R;
  uFrequency : R;
  uTransition : R;
  uActive : R
}.

Record WaterSurfaceProps := mkProps {
  prop_frequency : R;
  prop_mode : AppMode;
  prop_isActive : bool
}.

(** The uniforms that [useMemo] builds at the first render. *)
Definition uniforms (p : WaterSurfaceProps) : Uniforms :=
  {| uTime := 0; uFrequency := prop_frequency p; uTransition := 0; uActive := 0 |}.

(** A frame: [state.clock.getElapsedTime()] and the props of the render
    whose callback runs in it. *)
Record Frame := mkFrame {
  elapsed : R;
  props : WaterSurfaceProps
}.

(** The callback of [useFrame], with the points mounted. *)
Definition useFrame (f : Frame) (u : Uniforms) : Uniforms :=
  let target := if decide (prop_mode (props f) = GARDEN) then 1.0 else 0.0 in
  let targetActive := if prop_isActive (props f) then 1.0 else 0.0 in
  {| uTime := elapsed f;
     uFrequency := lerp (uFrequency u) (prop_frequency (props f)) 0.05;
     uTransition := lerp (uTransition u) target 0.02;
     uActive := lerp (uActive u) targetActive 0.03 |}.

Definition frames (fs : list Frame) (u : Uniforms) : Uniforms :=
  foldl (fun u f => useFrame f u) u fs.

End WaterSurface.

(** * Proofs *)

Import WebAudio Engine.

(** Evaluation of a concrete run: everything but the arithmetic of reals,
    then the comparisons of times one by one. *)
Ltac evaluate :=
  lazy -[Rlt_dec Req_dec_T IZR Rplus Rminus Rmult Rdiv Rinv Ropp sqrt Rmax Rmin Rlt].

Ltac decide_times :=
  repeat (match goal with
    | |- context [Rlt_dec ?a ?b] =>
        destruct (Rlt_dec a b); [try (exfalso; lra) | try (exfalso; lra)]
    | |- context [Req_dec_T ?a ?b] =>
        destruct (Req_dec_T a b); [try (exfalso; lra) | try (exfalso; lra)]
    end; evaluate).

Section Timeline.

Lemma insert_event_after (e : AutoEvent) (l : list AutoEvent) :
  Forall (fun x => ev_time x < ev_time e) l -> insert_event e l = l ++ [e].
Proof.
  induction 1 as [| x l Hx _ IH]; simpl; [reflexivity |].
  destruct (decide (ev_time e < ev_time x)); [lra |].
  destruct (decide (ev_type e = ev_type x /\ ev_time e = ev_time x)) as [[_ Ht] |]; [lra |].
  by rewrite IH.
Qed.

Lemma insert_event_idem (e : AutoEvent) (l : list AutoEvent) :
  insert_event e (insert_event e l) = insert_event e l.
Proof.
  induction l as [| x l IH]; simpl.
  - destruct (decide (ev_time e < ev_time e)); [lra |].
    destruct (decide (ev_type e = ev_type e /\ ev_time e = ev_time e)) as [| []]; done.
  - destruct (decide (ev_time e < ev_time x)) as [Hlt | Hlt]; simpl.
    + destruct (decide (ev_time e < ev_time e)); [lra |].
      destruct (decide (ev_type e = ev_type e /\ ev_time e = ev_time e)) as [| []]; done.
    + destruct (decide (ev_type e = ev_type x /\ ev_time e = ev_time x)) as [Heq | Hne]; simpl.
      * destruct (decide (ev_time e < ev_time e)); [lra |].
        destruct (decide (ev_type e = ev_type e /\ ev_time e = ev_time e)) as [| []]; done.
      * destruct (decide (ev_time e < ev_time x)); [done |].
        destruct (decide (ev_type e = ev_type x /\ ev_time e = ev_time x)); [done |].
        by rewrite IH.
Qed.

Lemma schedule_idem (e : AutoEvent) (p : AudioParam) :
  schedule e (schedule e p) = schedule e p.
Proof. unfold schedule; simpl. by rewrite insert_event_idem. Qed.

Lemma cancel_before (t : R) (p : AudioParam) :
  Forall (fun x => ev_time x < t) (events (cancelScheduledValues t p)).
Proof.
  unfold cancelScheduledValues; simpl. apply Forall_forall.
  intros x Hx. by apply list_elem_of_filter in Hx as [Hx _].
Qed.

Lemma target_schedule_after (e : AutoEvent) (p : AudioParam) :
  Forall (fun x => ev_time x < ev_time e) (events p) ->
  target (schedule e p) = ev_value e.
Proof.
  intros H. unfold target, schedule; simpl.
  rewrite insert_event_after by done. by rewrite last_snoc.
Qed.

Lemma target_retarget (v now tc : R) (p : AudioParam) :
  target (setTargetAtTime v now tc (cancelScheduledValues now p)) = v.
Proof.
  unfold setTargetAtTime. rewrite target_schedule_after; [done |].
  apply cancel_before.
Qed.

End Timeline.

Section Basics.

Lemma init_cases (e : AudioEngine) :
  (ctx e = None /\
   init e = set_ctx (Some (mkCtx running))
              (set_masterGain (Some (on_gain (set_value 0.5) createGain))
                 (set_ctx (Some (mkCtx suspended)) e)))
  \/ (ctx e <> None /\ init e = set_ctx (Some (mkCtx running)) e).
Proof.
  unfold init. destruct (ctx e) as [[[|]] |] eqn:E; simpl; rewrite ?E; simpl.
  - right. split; [done |]. reflexivity.
  - right. split; [done |]. destruct e; simpl in *. by rewrite E.
  - left. split; [done |]. reflexivity.
Qed.

Lemma init_ctx (e : AudioEngine) : ctx (init e) = Some (mkCtx running).
Proof. destruct (init_cases e) as [[_ ->] | [_ ->]]; reflexivity. Qed.

Lemma init_masterGain (e : AudioEngine) :
  (ctx e <> None -> masterGain e <> None) -> masterGain (init e) <> None.
Proof.
  intros H. destruct (init_cases e) as [[_ ->] | [Hc ->]]; simpl; [done | auto].
Qed.

End Basics.

Section Channels.

Lemma graph_scheds_on_gain f g : graph_scheds (on_graph_gain f g) = graph_scheds g.
Proof. destruct g as [| ? ? [[]|] ? |]; reflexivity. Qed.

Lemma wf_channel_on_gain f c : wf_channel c -> wf_channel (on_ch_gain f c).
Proof.
  unfold wf_channel; simpl. rewrite graph_scheds_on_gain.
  destruct (ch_graph c); simpl; tauto.
Qed.

Lemma playing_on_gain f c : playing c -> playing (on_ch_gain f c).
Proof.
  unfold playing, audible; simpl. by rewrite graph_scheds_on_gain.
Qed.

Lemma audible_on_gain f c : audible c -> audible (on_ch_gain f c).
Proof. unfold audible; simpl. by rewrite graph_scheds_on_gain. Qed.

(** [updateRainDynamics] touches nothing but the gain of one channel. *)
Lemma updateRain_engine now w : engine (updateRainDynamics now w) = engine w.
Proof.
  unfold updateRainDynamics.
  destruct (rainGainNode (engine w)); [| done]. by destruct (ctx (engine w)).
Qed.

Lemma updateRain_timers now w : timers (updateRainDynamics now w) = timers w.
Proof.
  unfold updateRainDynamics.
  destruct (rainGainNode (engine w)); [| done]. by destruct (ctx (engine w)).
Qed.

Lemma updateRain_next_timer now w : next_timer (updateRainDynamics now w) = next_timer w.
Proof.
  unfold updateRainDynamics.
  destruct (rainGainNode (engine w)); [| done]. by destruct (ctx (engine w)).
Qed.

Lemma updateRain_length now w :
  length (channels (updateRainDynamics now w)) = length (channels w).
Proof.
  unfold updateRainDynamics.
  destruct (rainGainNode (engine w)); [| done].
  destruct (ctx (engine w)); [| done]. simpl. apply length_alter.
Qed.

Lemma updateRain_lookup now w k :
  channels (updateRainDynamics now w) !! k = channels w !! k
  \/ exists f c, channels w !! k = Some c
                 /\ channels (updateRainDynamics now w) !! k = Some (on_ch_gain f c).
Proof.
  unfold updateRainDynamics.
  destruct (rainGainNode (engine w)) as [r |]; [| by left].
  destruct (ctx (engine w)); [| by left]. simpl.
  destruct (decide (r = k)) as [-> | Hne].
  - rewrite list_lookup_alter_eq. destruct (channels w !! k) as [c |]; [| by left].
    right. by eexists _, c.
  - left. by apply list_lookup_alter_ne.
Qed.

Lemma updateRain_Forall (P : Channel -> Prop) now w :
  (forall f c, P c -> P (on_ch_gain f c)) ->
  Forall P (channels w) -> Forall P (channels (updateRainDynamics now w)).
Proof.
  intros HP H. apply Forall_lookup. intros k c' Hk.
  destruct (updateRain_lookup now w k) as [Heq | (f & c & Hc & Hc')].
  - rewrite Heq in Hk. by eapply Forall_lookup_1.
  - rewrite Hc' in Hk. injection Hk as <-. apply HP. by eapply Forall_lookup_1.
Qed.

Lemma updateRain_exists (P : Channel -> Prop) now w k c :
  (forall f c, P c -> P (on_ch_gain f c)) ->
  channels w !! k = Some c -> P c ->
  exists c', channels (updateRainDynamics now w) !! k = Some c'
             /\ ch_type c' = ch_type c /\ P c'.
Proof.
  intros HP Hk Hc.
  destruct (updateRain_lookup now w k) as [Heq | (f & c0 & Hc0 & Hc')].
  - exists c. by rewrite Heq.
  - rewrite Hk in Hc0. injection Hc0 as <-. exists (on_ch_gain f c). auto.
Qed.

End Channels.

Section Build.

Lemma fadeInOut_loop t g fadeTime targetVol :
  fadeInOut t g 0 true fadeTime targetVol
  = on_gain (linearRampToValueAtTime targetVol (t + fadeTime))
      (on_gain (setValueAtTime 0 t) g).
Proof. reflexivity. Qed.

Lemma build_graph_ok t rnd type F e cb :
  ctx e <> None ->
  exists g, build_graph t rnd type F e = Ok g
            /\ wf_channel (mkChannel type g cb)
            /\ playing (mkChannel type g cb)
            /\ synthesized (mkChannel type g cb) = negb (bool_decide (is_Some (buffer_of type e))).
Proof.
  intros Hctx. destruct (ctx e) as [c |] eqn:Ec; [| done].
  destruct type; unfold build_graph, createSource, noise_source, createNoiseBuffer;
    rewrite Ec; simpl.
  all: match goal with
       | |- context [birdBuffer ?x] => destruct (birdBuffer x)
       | |- context [windBuffer ?x] => destruct (windBuffer x)
       | |- context [leavesBuffer ?x] => destruct (leavesBuffer x)
       | |- context [waterBuffer ?x] => destruct (waterBuffer x)
       | |- context [rainBuffer ?x] => destruct (rainBuffer x)
       | |- context [insectBuffer ?x] => destruct (insectBuffer x)
       end; simpl.
  all: eexists; split; [reflexivity |].
  all: unfold wf_channel, playing, audible; simpl.
  all: repeat split; repeat constructor; simpl; try done.
Qed.

End Build.

Section Stop.

Lemma sched_stop_ok when s :
  started s <> None ->
  exists s', sched_stop when s = Ok s'
             /\ started s' = started s /\ ended s' = ended s.
Proof.
  intros H. unfold sched_stop. destruct (started s) eqn:E; [| done].
  destruct (ended s) eqn:E'; eexists; (split; [reflexivity |]); simpl; auto.
Qed.

Lemma src_stop_ok when b :
  started (src_sched b) <> None ->
  exists b', src_stop when b = Ok b'
             /\ started (src_sched b') = started (src_sched b)
             /\ ended (src_sched b') = ended (src_sched b)
             /\ loop b' = loop b.
Proof.
  intros H. unfold src_stop.
  destruct (sched_stop_ok when _ H) as (s' & -> & ? & ?). simpl.
  eexists; split; [reflexivity |]. simpl. auto.
Qed.

Lemma osc_stop_ok when o :
  started (osc_sched o) <> None ->
  exists o', osc_stop when o = Ok o'
             /\ started (osc_sched o') = started (osc_sched o)
             /\ ended (osc_sched o') = ended (osc_sched o).
Proof.
  intros H. unfold osc_stop.
  destruct (sched_stop_ok when _ H) as (s' & -> & ? & ?). simpl.
  eexists; split; [reflexivity |]. simpl. auto.
Qed.

Lemma internalStop_ok now c e :
  ctx e <> None -> wf_channel c ->
  exists g,
    internalStop now c e
    = Ok (g, if decide (ch_type c = RAIN) then set_rainGainNode None e else e)
    /\ same_playback (ch_graph c) g.
Proof.
  intros Hctx [Hst _]. destruct (ctx e) as [cx |] eqn:Ec; [| done].
  destruct c as [ty g cb]; simpl in *.
  destruct g as [src gn | src flt [[lfo lg] |] gn | car mdl mg gn]; simpl in Hst.
  - apply Forall_cons in Hst as [H1 _].
    destruct ty; unfold internalStop; simpl; rewrite ?Ec; simpl.
    all: try (destruct (src_stop_ok (now + 0.5) src H1) as (b & -> & ? & ? & ?)).
    all: try (destruct (src_stop_ok (now + 0.7) src H1) as (b & -> & ? & ? & ?)).
    all: try (destruct (src_stop_ok (now + 1.6) src H1) as (b & -> & ? & ? & ?)).
    all: try (destruct (src_stop_ok (now + 0.9) src H1) as (b & -> & ? & ? & ?)).
    all: try (destruct (src_stop_ok (now + 0.6) src H1) as (b & -> & ? & ? & ?)).
    all: simpl; eexists; (split; [reflexivity |]).
    all: split; simpl; auto.
  - apply Forall_cons in Hst as [H1 Hst]. apply Forall_cons in Hst as [H2 _].
    destruct ty; unfold internalStop; simpl; rewrite ?Ec; simpl.
    all: try (eexists; (split; [reflexivity |]); split; simpl; by auto).
    all: match goal with
         | |- context [src_stop ?t ?s] =>
             destruct (src_stop_ok t s H1) as (b & -> & ? & ? & ?); simpl;
             match goal with
             | |- context [osc_stop t ?l] =>
                 destruct (osc_stop_ok t l H2) as (o & -> & ? & ?)
             end
         end.
    all: simpl; eexists; (split; [reflexivity |]).
    all: split; simpl; auto.
  - apply Forall_cons in Hst as [H1 _].
    destruct ty; unfold internalStop; simpl; rewrite ?Ec; simpl.
    all: try (eexists; (split; [reflexivity |]); split; simpl; by auto).
    all: match goal with
         | |- context [src_stop ?t ?s] =>
             destruct (src_stop_ok t s H1) as (b & -> & ? & ? & ?)
         end.
    all: simpl; eexists; (split; [reflexivity |]).
    all: split; simpl; auto.
  - apply Forall_cons in Hst as [H1 Hst]. apply Forall_cons in Hst as [H2 _].
    destruct ty; unfold internalStop; simpl; rewrite ?Ec; simpl.
    all: try (eexists; (split; [reflexivity |]); split; simpl; by auto).
    all: match goal with
         | |- context [osc_stop ?t ?s] =>
             destruct (osc_stop_ok t s H1) as (b & -> & ? & ?); simpl;
             match goal with
             | |- context [osc_stop t ?l] =>
                 destruct (osc_stop_ok t l H2) as (o & -> & ? & ?)
             end
         end.
    all: simpl; eexists; (split; [reflexivity |]).
    all: split; simpl; auto.
Qed.

End Stop.

Section Preservation.

Lemma inv_frame w w' :
  inv w ->
  (ctx (engine w') = None -> ctx (engine w) = None) ->
  (ctx (engine w') <> None -> masterGain (engine w') <> None) ->
  channels w' = channels w ->
  (forall o, tinnitusOsc (engine w') = Some o ->
             ctx (engine w') <> None /\ started (osc_sched o) <> None) ->
  rainGainNode (engine w') = rainGainNode (engine w) ->
  pianoTimeout (engine w') = pianoTimeout (engine w) ->
  timers w' = timers w ->
  next_timer w' = next_timer w ->
  activeSounds (engine w') = activeSounds (engine w) ->
  inv w'.
Proof.
  intros [] Hc Hm Hch Ho Hr Hp Ht Hn Ha.
  constructor; rewrite ?Hch, ?Hr, ?Hp, ?Ht, ?Hn, ?Ha; auto.
  - intros E. split; [by apply inv_ctx0, Hc |].
    destruct (tinnitusOsc (engine w')) as [o |] eqn:Eo; [| done].
    by destruct (Ho o eq_refl).
  - intros o Eo. by destruct (Ho o Eo).
Qed.

Lemma tone_frame w e' :
  inv w -> tinnitusOsc e' = tinnitusOsc (engine w) ->
  (ctx (engine w) <> None -> ctx e' <> None) ->
  forall o, tinnitusOsc e' = Some o -> ctx e' <> None /\ started (osc_sched o) <> None.
Proof.
  intros H Ho Hc o Eo. rewrite Ho in Eo. split; [| by eapply inv_tone].
  apply Hc. intros E. apply (inv_ctx w H) in E as [_ E]. congruence.
Qed.

Lemma init_fields e :
  tinnitusOsc (init e) = tinnitusOsc e /\ tinnitusGain (init e) = tinnitusGain e
  /\ rainGainNode (init e) = rainGainNode e /\ pianoTimeout (init e) = pianoTimeout e
  /\ activeSounds (init e) = activeSounds e /\ droneNodes (init e) = droneNodes e
  /\ (forall type, buffer_of type (init e) = buffer_of type e)
  /\ ambientSource (init e) = ambientSource e.
Proof.
  destruct (init_cases e) as [[_ ->] | [_ ->]]; simpl; repeat split; by intros [].
Qed.

Lemma inv_init w : inv w -> inv (on_engine init w).
Proof.
  intros H. destruct (init_fields (engine w)) as (? & ? & ? & ? & ? & ? & ? & ?).
  apply (inv_frame w); simpl; auto.
  - by rewrite init_ctx.
  - intros _. apply init_masterGain. apply H.
  - apply (tone_frame w); auto. by rewrite init_ctx.
Qed.

Lemma init_idem e : (ctx e <> None -> masterGain e <> None) -> init (init e) = init e.
Proof.
  intros H. destruct (init_cases e) as [[_ ->] | [_ ->]]; reflexivity.
Qed.

Lemma stopTinnitusTone_ok now w :
  inv w ->
  exists e1, stopTinnitusTone now (engine w) = Ok e1
    /\ tinnitusOsc e1 = None
    /\ ctx e1 = ctx (engine w) /\ masterGain e1 = masterGain (engine w)
    /\ rainGainNode e1 = rainGainNode (engine w)
    /\ pianoTimeout e1 = pianoTimeout (engine w)
    /\ activeSounds e1 = activeSounds (engine w)
    /\ droneNodes e1 = droneNodes (engine w).
Proof.
  intros H. unfold stopTinnitusTone.
  set (e1 := fade_tone now (engine w)).
  assert (He1 : tinnitusOsc e1 = tinnitusOsc (engine w) /\ ctx e1 = ctx (engine w)
                /\ masterGain e1 = masterGain (engine w)
                /\ rainGainNode e1 = rainGainNode (engine w)
                /\ pianoTimeout e1 = pianoTimeout (engine w)
                /\ activeSounds e1 = activeSounds (engine w)
                /\ droneNodes e1 = droneNodes (engine w)).
  { subst e1. unfold fade_tone. destruct (tinnitusGain (engine w)); [| by repeat split].
    destruct (ctx (engine w)) eqn:E; simpl; by repeat split. }
  destruct He1 as (Ho & Hc & Hm & Hr & Hp & Ha & Hd).
  rewrite Ho, Hc. destruct (tinnitusOsc (engine w)) as [o |] eqn:Eo.
  - pose proof (inv_tone w H o Eo) as Hst.
    destruct (ctx (engine w)) eqn:Ec.
    + destruct (osc_stop_ok (now + 0.6) o Hst) as (o' & -> & _). simpl.
      eexists; split; [reflexivity |]. simpl. auto 10.
    + destruct (inv_ctx w H Ec) as [_ Hn]. congruence.
  - eexists; split; [reflexivity |]. auto 10.
Qed.

Lemma inv_stopTinnitusTone now w :
  inv w -> exists e', stopTinnitusTone now (engine w) = Ok e' /\ inv (set_engine e' w).
Proof.
  intros H.
  destruct (stopTinnitusTone_ok now w H) as (e1 & He & Ho & Hc & Hm & Hr & Hp & Ha & Hd).
  exists e1. split; [done |].
  apply (inv_frame w); simpl; auto; try congruence.
  rewrite Hc, Hm. apply H.
Qed.

Lemma inv_startTinnitusTone now frequency vol w :
  inv w ->
  exists e', startTinnitusTone now frequency vol (engine w) = Ok e' /\ inv (set_engine e' w).
Proof.
  intros H. pose proof (inv_init w H) as Hi.
  destruct (init_fields (engine w)) as (Ho & Hg & Hr & Hp & Ha & Hd & Hb & Hs).
  unfold startTinnitusTone. rewrite init_ctx.
  destruct (masterGain (init (engine w))) eqn:Em;
    [| by destruct (inv_master _ Hi); simpl; rewrite ?init_ctx].
  destruct (stopTinnitusTone_ok now _ Hi) as (e1 & He & Ho1 & Hc1 & Hm1 & Hr1 & Hp1 & Ha1 & Hd1).
  simpl in *.
  assert (exists e2, match tinnitusOsc (init (engine w)) with
                     | Some _ => stopTinnitusTone now (init (engine w))
                     | None => Ok (init (engine w))
                     end = Ok e2
            /\ ctx e2 = Some (mkCtx running) /\ masterGain e2 <> None
            /\ rainGainNode e2 = rainGainNode (engine w)
            /\ pianoTimeout e2 = pianoTimeout (engine w)
            /\ activeSounds e2 = activeSounds (engine w)) as (e2 & -> & Hc2 & Hm2 & Hr2 & Hp2 & Ha2).
  { destruct (tinnitusOsc (init (engine w))).
    - exists e1. rewrite Hc1, Hm1, Hr1, Hp1, Ha1, init_ctx, Em. repeat split; congruence.
    - exists (init (engine w)). rewrite init_ctx, Em. repeat split; congruence. }
  simpl. eexists; split; [reflexivity |].
  apply (inv_frame w); simpl; auto; try congruence.
  intros o [= <-]. simpl. split; congruence.
Qed.

Lemma inv_updateTinnitusFreq now frequency w :
  inv w -> inv (on_engine (updateTinnitusFreq now frequency) w).
Proof.
  intros H. unfold on_engine, updateTinnitusFreq.
  destruct (tinnitusOsc (engine w)) as [o |] eqn:Eo; [| by destruct w].
  destruct (ctx (engine w)) eqn:Ec; [| by destruct w].
  apply (inv_frame w); simpl; rewrite ?Ec; auto; try done.
  - rewrite <- Ec. apply H.
  - intros o' [= <-]. simpl. split; [done |]. exact (inv_tone w H o Eo).
Qed.

Lemma inv_startAmbientTrack F w :
  inv w -> inv (on_engine (startAmbientTrack F) w).
Proof.
  intros H. pose proof (inv_init w H) as Hi.
  destruct (init_fields (engine w)) as (Ho & Hg & Hr & Hp & Ha & Hd & Hb & Hs).
  assert (Hm : masterGain (init (engine w)) <> None).
  { apply (inv_master _ Hi). simpl. by rewrite init_ctx. }
  unfold on_engine, startAmbientTrack. rewrite init_ctx.
  destruct (masterGain (init (engine w))) eqn:Em; [| done].
  destruct (ambientSource (init (engine w))).
  all: apply (inv_frame w); simpl; rewrite ?init_ctx, ?Em, ?Ho; auto; try done.
  all: intros o Eo; split; [done | exact (inv_tone w H o Eo)].
Qed.

End Preservation.

Section Harmony.

Lemma startDrone_playing now e :
  droneNodes e <> [] -> startDrone now e = Ok e.
Proof.
  intros H. unfold startDrone. destruct (droneNodes e); [done |].
  rewrite bool_decide_eq_true_2; [done |]. simpl. lia.
Qed.

Lemma startDrone_ok now w :
  inv w ->
  exists e', startDrone now (engine w) = Ok e'
    /\ inv (set_engine e' w)
    /\ length (droneNodes e') = (if decide (droneNodes (engine w) = []) then 9%nat
                                 else length (droneNodes (engine w)))
    /\ (droneNodes (engine w) = [] -> length (oscillators (droneNodes e')) = 4%nat).
Proof.
  intros H. destruct (decide (droneNodes (engine w) = [])) as [Hd | Hd].
  - pose proof (inv_init w H) as Hi.
    destruct (init_fields (engine w)) as (Ho & Hg & Hr & Hp & Ha & Hdn & Hb & Hs).
    assert (Hm : masterGain (init (engine w)) <> None).
    { apply (inv_master _ Hi). simpl. by rewrite init_ctx. }
    unfold startDrone. rewrite Hd. simpl. rewrite init_ctx.
    destruct (masterGain (init (engine w))) eqn:Em; [| done]. simpl.
    eexists; split; [reflexivity |]. split; [| split; [reflexivity | reflexivity]].
    apply (inv_frame w); simpl; rewrite ?init_ctx, ?Em, ?Ho; auto; try done.
    intros o Eo; split; [done | exact (inv_tone w H o Eo)].
  - rewrite startDrone_playing by done. exists (engine w).
    split; [done |]. split; [by destruct w |]. split; [done |]. done.
Qed.

Lemma inv_stopDrone now w : inv w -> inv (stopDrone now w).
Proof.
  intros H. unfold stopDrone.
  destruct (droneNodes (engine w)) as [| master rest]; [done |].
  destruct (ctx (engine w)) eqn:Ec; [| done].
  destruct master; simpl.
  2-4: apply (inv_frame w); simpl; rewrite ?Ec; auto; try done;
       [ rewrite <- Ec; apply H
       | intros o' Eo; split; [done | exact (inv_tone w H o' Eo)] ].
  destruct H. constructor; simpl; rewrite ?Ec; auto; try done.
  - rewrite <- Ec. done.
  - apply Forall_app. split; [done |]. by repeat constructor.
  - destruct inv_timer_ids0. split; [lia |].
    apply Forall_app. split; [done |]. by repeat constructor.
Qed.

Lemma floor_scale (x : R) :
  unit_interval x ->
  exists i freq, Math_floor (x * INR (length scale)) = Z.of_nat i
                 /\ scale !! i = Some freq.
Proof.
  intros [H0 H1]. unfold Math_floor.
  replace (INR (length scale)) with 7 by (simpl; lra).
  destruct (base_Int_part (x * 7)) as [Hlo Hhi].
  set (z := Int_part (x * 7)) in *.
  assert (Hz : (0 <= z <= 6)%Z).
  { assert (Ha : IZR (-1) < IZR z) by lra.
    assert (Hb : IZR z < IZR 7) by lra.
    apply lt_IZR in Ha, Hb. lia. }
  exists (Z.to_nat z). rewrite Z2Nat.id by lia.
  assert (Hn : (Z.to_nat z < 7)%nat) by lia.
  destruct (lookup_lt_is_Some_2 scale (Z.to_nat z)) as [freq Hf]; [by simpl |].
  eauto.
Qed.

Lemma piano_timers_nil w :
  piano_timers w = [] <-> Forall (fun tm => is_piano_tick tm = false) (timers w).
Proof.
  unfold piano_timers. induction (timers w) as [| tm l IH]; [done |].
  rewrite filter_cons, Forall_cons. destruct (is_piano_tick tm) eqn:E.
  - rewrite decide_True by done. split; [done | by intros []].
  - rewrite decide_False by done. tauto.
Qed.

Lemma no_piano_timers w :
  inv w -> truthy (pianoTimeout (engine w)) = false -> piano_timers w = [].
Proof.
  intros H Ht. apply piano_timers_nil.
  destruct (inv_timer_ids w H) as [_ Hid].
  pose proof (inv_piano w H) as Hp.
  rewrite Forall_forall in *. intros tm Htm.
  destruct (is_piano_tick tm) eqn:E; [| done].
  specialize (Hp tm Htm E). specialize (Hid tm Htm).
  rewrite Hp in Ht. simpl in Ht. destruct (timer_id tm); [lia | done].
Qed.

Lemma playNextPianoNote_ok now rnd w :
  inv w -> randoms_ok rnd -> piano_timers w = [] ->
  exists w', playNextPianoNote now rnd w = Ok w' /\ inv w'
    /\ (ctx (engine w) <> None ->
        exists ms, timers w' = timers w ++ [mkTimer (next_timer w) ms PianoTick]
                   /\ pianoTimeout (engine w') = Some (next_timer w)).
Proof.
  intros H (Hr & _) Hp. unfold playNextPianoNote.
  destruct (ctx (engine w)) eqn:Ec; [| by exists w].
  destruct (masterGain (engine w)) eqn:Em;
    [| by destruct (inv_master w H); rewrite ?Ec].
  destruct (floor_scale _ Hr) as (i & freq & -> & Hf).
  assert (Hbody : forall z, Z.to_nat z = i -> (0 <= z)%Z ->
            scale !! Z.to_nat z = Some freq) by (intros z <- _; done).
  destruct (Z.of_nat i) as [| p | p] eqn:Ez; [| | lia].
  all: rewrite Hbody by lia; simpl.
  all: eexists; split; [reflexivity |].
  all: split; [| intros _; eexists; split; reflexivity].
  all: destruct H; constructor; simpl; rewrite ?Ec, ?Em; auto; try done.
  all: try (rewrite <- Ec; done).
  all: try (apply Forall_app; split; [| by repeat constructor]).
  all: try (apply piano_timers_nil in Hp; eapply Forall_impl; [exact Hp |];
            simpl; intros tm Htm Hpt; congruence).
  all: destruct inv_timer_ids0; split; [lia |].
  all: apply Forall_app; split; [done |]; by repeat constructor.
Qed.

End Harmony.

Section Piano.

Lemma inv_clearTimeout id w :
  inv w -> pianoTimeout (engine w) = Some id ->
  inv (on_engine (set_pianoTimeout None) (clearTimeout id w))
  /\ piano_timers (on_engine (set_pianoTimeout None) (clearTimeout id w)) = [].
Proof.
  intros H Hid. split.
  - destruct H; constructor; simpl; auto.
    + apply Forall_forall. intros tm Htm Hpt.
      apply list_elem_of_filter in Htm as [Hne Htm].
      rewrite Forall_forall in inv_piano0. specialize (inv_piano0 tm Htm Hpt). congruence.
    + destruct inv_timer_ids0 as [? Hf]. split; [done |].
      apply Forall_forall. intros tm Htm.
      apply list_elem_of_filter in Htm as [_ Htm].
      rewrite Forall_forall in Hf. auto.
  - apply piano_timers_nil. simpl. apply Forall_forall. intros tm Htm.
    apply list_elem_of_filter in Htm as [Hne Htm].
    destruct (is_piano_tick tm) eqn:E; [| done].
    pose proof (inv_piano w H) as Hp. rewrite Forall_forall in Hp.
    specialize (Hp tm Htm E). congruence.
Qed.

Lemma inv_stopPiano w :
  inv w -> inv (stopPiano w) /\ piano_timers (stopPiano w) = [].
Proof.
  intros H. unfold stopPiano.
  destruct (truthy (pianoTimeout (engine w))) eqn:Et.
  - destruct (pianoTimeout (engine w)) as [id |] eqn:Ep; [| done].
    by apply inv_clearTimeout.
  - split; [done |]. by apply no_piano_timers.
Qed.

Lemma startPiano_ok now rnd w :
  inv w -> randoms_ok rnd ->
  exists w', startPiano now rnd w = Ok w' /\ inv w'.
Proof.
  intros H Hr. unfold startPiano.
  destruct (truthy (pianoTimeout (engine w))) eqn:Et; [by exists w |].
  destruct (playNextPianoNote_ok now rnd (on_engine init w)) as (w' & ? & ? & _); auto.
  - by apply inv_init.
  - apply piano_timers_nil. apply (piano_timers_nil w). by apply no_piano_timers.
  - eauto.
Qed.

End Piano.

Section Shrink.

(** A step that starts no channel: channels keep their place and type,
    the set of active sounds does not grow, and a playing channel of a sound
    still in the set keeps playing. *)
Lemma inv_shrink w w' :
  inv w ->
  ctx (engine w') = ctx (engine w) ->
  masterGain (engine w') = masterGain (engine w) ->
  tinnitusOsc (engine w') = tinnitusOsc (engine w) ->
  pianoTimeout (engine w') = pianoTimeout (engine w) ->
  timers w' ⊆ timers w ->
  next_timer w' = next_timer w ->
  (rainGainNode (engine w') = rainGainNode (engine w)
   \/ rainGainNode (engine w') = None) ->
  (forall k c, channels w !! k = Some c ->
     exists c', channels w' !! k = Some c' /\ ch_type c' = ch_type c /\ wf_channel c') ->
  length (channels w') = length (channels w) ->
  (forall X k c, X ∈ activeSounds (engine w') ->
     channels w !! k = Some c -> ch_type c = X -> playing c ->
     exists c', channels w' !! k = Some c' /\ playing c') ->
  activeSounds (engine w') ⊆ activeSounds (engine w) ->
  inv w'.
Proof.
  intros H Hc Hm Ho Hp Ht Hn Hr Hch Hlen Hpl Ha.
  constructor; rewrite ?Hc, ?Hm, ?Ho, ?Hp, ?Hn; try apply H.
  - intros E. destruct (inv_ctx w H E) as [E1 E2]. split; [| done].
    apply nil_length_inv. by rewrite Hlen, E1.
  - apply Forall_lookup. intros k c' Hk.
    assert (Hlt : (k < length (channels w))%nat).
    { rewrite <- Hlen. by eapply lookup_lt_Some. }
    destruct (lookup_lt_is_Some_2 _ _ Hlt) as [c Hc0].
    destruct (Hch k c Hc0) as (c'' & Hk' & _ & Hwf). congruence.
  - intros r Er. destruct Hr as [Hr | Hr]; [| congruence].
    rewrite Hr in Er. destruct (inv_rain w H r Er) as (c & Hk & Hty).
    destruct (Hch r c Hk) as (c' & ? & ? & _). exists c'. split; congruence.
  - pose proof (inv_piano w H) as Hpi. rewrite Forall_forall in *.
    intros tm Htm. apply Hpi. by apply Ht.
  - destruct (inv_timer_ids w H) as [? Hid]. split; [done |].
    rewrite Forall_forall in *. intros tm Htm. apply Hid. by apply Ht.
  - intros X HX. destruct (inv_active w H X (Ha X HX)) as (k & c & Hk & Hty & Hplay).
    destruct (Hpl X k c HX Hk Hty Hplay) as (c' & Hk' & Hplay').
    destruct (Hch k c Hk) as (c'' & Hk'' & Hty' & _).
    exists k, c'. split; [done |]. split; [congruence | done].
Qed.

Lemma same_playback_wf c g :
  wf_channel c -> same_playback (ch_graph c) g -> wf_channel (with_graph g c).
Proof.
  intros [Hst Hsh] [Hf Hs]. split; simpl.
  - clear Hs Hsh. induction Hf as [| s s' l l' [Hs _] _ IH]; [done |].
    apply Forall_cons in Hst as [H1 H2]. constructor; [congruence | auto].
  - destruct (ch_graph c), g; try done. by rewrite Hs.
Qed.


End Shrink.

Section StopFn.

(** A state of a run and one of its channels, the one a stop handle
    refers to. *)
Context (w : World) (k : nat) (c : Channel).
Hypothesis Hinv : inv w.
Hypothesis Hk : channels w !! k = Some c.

Lemma inv_wf_channel : wf_channel c.
Proof. eapply Forall_lookup_1; [exact (inv_channels w Hinv) | exact Hk]. Qed.

Lemma inv_has_ctx : ctx (engine w) <> None.
Proof.
  intros E. destruct (inv_ctx w Hinv E) as [E1 _]. by rewrite E1 in Hk.
Qed.

Lemma stopFn_eq (now : R) :
  exists g, internalStop now c (engine w)
            = Ok (g, if decide (ch_type c = RAIN)
                     then set_rainGainNode None (engine w) else engine w)
            /\ same_playback (ch_graph c) g
            /\ stopFn k now w = Ok (stopped_world k now w c g).
Proof.
  destruct (internalStop_ok now c (engine w) inv_has_ctx inv_wf_channel) as (g & Hg & Hsp).
  exists g. split; [done |]. split; [done |].
  unfold stopFn. rewrite Hk, Hg. reflexivity.
Qed.

Lemma inv_stopped_world (now : R) (g : ChannelGraph) :
  same_playback (ch_graph c) g -> inv (stopped_world k now w c g).
Proof.
  intros Hsp.
  pose proof inv_wf_channel as Hwf.
  assert (Hlt : (k < length (channels w))%nat) by (by eapply lookup_lt_Some).
  unfold stopped_world.
  set (w1 := on_engine _ _).
  assert (Hch1 : forall j cj, channels w !! j = Some cj ->
            exists cj', channels w1 !! j = Some cj' /\ ch_type cj' = ch_type cj
                        /\ wf_channel cj'
                        /\ (j <> k -> cj' = cj)).
  { intros j cj Hj. subst w1. simpl. destruct (decide (j = k)) as [-> | Hne].
    - rewrite list_lookup_insert_eq by done. eexists; split; [done |].
      rewrite Hk in Hj. injection Hj as <-.
      split; [done |]. split; [by apply same_playback_wf | done].
    - rewrite list_lookup_insert_ne by done. exists cj.
      split; [done |]. split; [done |]. split; [| done].
      eapply Forall_lookup_1; [exact (inv_channels w Hinv) | done]. }
  apply (inv_shrink w); rewrite ?updateRain_engine, ?updateRain_timers,
    ?updateRain_next_timer, ?updateRain_length; subst w1; simpl.
  all: try (by destruct (decide (ch_type c = RAIN))).
  - destruct (decide (ch_type c = RAIN)); simpl; auto.
  - intros j cj Hj. destruct (Hch1 j cj Hj) as (cj' & Hj' & Hty & Hwf' & _).
    destruct (updateRain_exists wf_channel now _ j cj' wf_channel_on_gain Hj' Hwf')
      as (c2 & ? & ? & ?).
    exists c2. split; [done |]. split; [congruence | done].
  - by rewrite length_insert.
  - intros X j cj HX Hj Hty Hplay.
    assert (Hne : j <> k).
    { intros ->. rewrite Hk in Hj. injection Hj as <-.
      destruct (decide (ch_type c = RAIN)); simpl in HX; set_solver. }
    destruct (Hch1 j cj Hj) as (cj' & Hj' & _ & _ & Heq). rewrite (Heq Hne) in Hj'.
    destruct (updateRain_exists playing now _ j cj playing_on_gain Hj' Hplay)
      as (c2 & ? & ? & ?).
    by exists c2.
  - destruct (decide (ch_type c = RAIN)); simpl; set_solver.
Qed.

End StopFn.

Section Play.

Lemma started_engine_ctx k type e : ctx (started_engine k type e) = Some (mkCtx running).
Proof. unfold started_engine. destruct type; simpl; apply init_ctx. Qed.

Lemma playInteractionSound_eq now rnd type F cb w :
  inv w ->
  exists g,
    build_graph now rnd type F (started_engine (length (channels w)) type (engine w)) = Ok g
    /\ wf_channel (mkChannel type g cb)
    /\ playing (mkChannel type g cb)
    /\ synthesized (mkChannel type g cb)
       = negb (bool_decide (is_Some (buffer_of type (engine w))))
    /\ playInteractionSound now rnd type F cb w
       = Ok (StopFn (length (channels w)), started_world now type g cb w).
Proof.
  intros H. pose proof (inv_init w H) as Hi.
  assert (Hm : masterGain (init (engine w)) <> None).
  { apply (inv_master _ Hi). simpl. by rewrite init_ctx. }
  set (k := length (channels w)).
  destruct (build_graph_ok now rnd type F (started_engine k type (engine w)) cb)
    as (g & Hg & Hwf & Hpl & Hsy).
  { by rewrite started_engine_ctx. }
  exists g. split; [done |]. split; [done |]. split; [done |]. split.
  { rewrite Hsy. f_equal. f_equal. f_equal.
    destruct (init_fields (engine w)) as (_ & _ & _ & _ & _ & _ & Hb & _).
    rewrite <- Hb. unfold started_engine. by destruct type. }
  unfold playInteractionSound. simpl. rewrite init_ctx.
  destruct (masterGain (init (engine w))) eqn:Em; [| done].
  rewrite updateRain_length. simpl. fold k.
  set (w1 := updateRainDynamics now _).
  assert (He : engine match type with
                      | RAIN => on_engine (set_rainGainNode (Some k)) w1
                      | _ => w1
                      end = started_engine k type (engine w)).
  { subst w1. unfold started_engine.
    destruct type; simpl; by rewrite updateRain_engine. }
  rewrite He, Hg. simpl.
  reflexivity.
Qed.

Lemma started_world_engine now type g cb w :
  engine (started_world now type g cb w)
  = started_engine (length (channels w)) type (engine w).
Proof.
  unfold started_world, started_engine.
  destruct type; simpl; try (by rewrite updateRain_engine).
  destruct g; simpl; by rewrite updateRain_engine.
Qed.

Lemma started_world_channels now type g cb w :
  channels (started_world now type g cb w)
  = channels (updateRainDynamics now
                (on_engine (fun e => set_activeSounds ({[type]} ∪ activeSounds e) e)
                   (on_engine init w)))
    ++ [mkChannel type g cb].
Proof.
  unfold started_world.
  destruct type; simpl; try reflexivity. by destruct g.
Qed.

End Play.

Section PlayInv.

Lemma started_world_timers now type g cb w :
  exists extra, timers (started_world now type g cb w) = timers w ++ extra
    /\ Forall (fun tm => is_piano_tick tm = false /\ timer_id tm = next_timer w) extra
    /\ (next_timer w <= next_timer (started_world now type g cb w))%nat.
Proof.
  unfold started_world.
  set (w1 := updateRainDynamics now _).
  assert (Ht : timers w1 = timers w) by (subst w1; by rewrite updateRain_timers).
  assert (Hn : next_timer w1 = next_timer w) by (subst w1; by rewrite updateRain_next_timer).
  destruct type; simpl; try (exists []; rewrite app_nil_r, ?Ht, ?Hn; by repeat split).
  destruct g; simpl; try (exists []; rewrite app_nil_r, ?Ht, ?Hn; by repeat split).
  eexists [_]. rewrite Ht, Hn. split; [reflexivity |]. split; [| lia].
  by repeat constructor.
Qed.

Lemma started_engine_fields k type e :
  tinnitusOsc (started_engine k type e) = tinnitusOsc e
  /\ pianoTimeout (started_engine k type e) = pianoTimeout e
  /\ activeSounds (started_engine k type e) = {[type]} ∪ activeSounds e
  /\ rainGainNode (started_engine k type e)
     = (if decide (type = RAIN) then Some k else rainGainNode e)
  /\ droneNodes (started_engine k type e) = droneNodes e.
Proof.
  destruct (init_fields e) as (Ho & Hg & Hr & Hp & Ha & Hd & Hb & Hs).
  unfold started_engine. destruct type; simpl; rewrite ?Ha; auto.
Qed.

Lemma inv_started_world now type g cb w :
  inv w -> wf_channel (mkChannel type g cb) -> playing (mkChannel type g cb) ->
  inv (started_world now type g cb w).
Proof.
  intros H Hwf Hpl. pose proof (inv_init w H) as Hi.
  destruct (started_engine_fields (length (channels w)) type (engine w))
    as (Ho & Hp & Ha & Hr & Hd).
  destruct (started_world_timers now type g cb w) as (extra & Ht & Hex & Hn).
  set (w0 := on_engine (fun e => set_activeSounds ({[type]} ∪ activeSounds e) e)
               (on_engine init w)).
  assert (Hlen : length (channels (updateRainDynamics now w0)) = length (channels w)).
  { by rewrite updateRain_length. }
  constructor; rewrite ?started_world_engine, ?started_world_channels,
    ?started_engine_ctx, ?Ho, ?Hp, ?Ha, ?Hr, ?Ht; fold w0.
  - done.
  - intros _. unfold started_engine.
    assert (Hm : masterGain (init (engine w)) <> None).
    { apply (inv_master _ Hi). simpl. by rewrite init_ctx. }
    by destruct type.
  - apply Forall_app. split; [| by constructor].
    apply updateRain_Forall; [apply wf_channel_on_gain |]. exact (inv_channels w H).
  - exact (inv_tone w H).
  - intros r Er. destruct (decide (type = RAIN)) as [-> | Hne].
    + injection Er as <-. exists (mkChannel RAIN g cb). split; [| reflexivity].
      rewrite lookup_app_r by lia. by rewrite Hlen, Nat.sub_diag.
    + destruct (inv_rain w H r Er) as (c & Hk & Hty).
      destruct (updateRain_exists (fun _ => True) now w0 r c) as (c' & Hk' & Hty' & _);
        [done | done | done |].
      exists c'. split; [by apply lookup_app_l_Some | congruence].
  - apply Forall_app. split; [exact (inv_piano w H) |].
    eapply Forall_impl; [exact Hex |]. simpl. intros tm [E _] E'. congruence.
  - destruct (inv_timer_ids w H) as [Hone Hid]. split; [lia |].
    apply Forall_app. split; [done |].
    eapply Forall_impl; [exact Hex |]. simpl. intros tm [_ ->]. done.
  - intros X HX. destruct (decide (X = type)) as [-> | Hne].
    + exists (length (channels w)), (mkChannel type g cb).
      split; [| done]. rewrite lookup_app_r by lia. by rewrite Hlen, Nat.sub_diag.
    + assert (HX' : X ∈ activeSounds (engine w)) by set_solver.
      destruct (inv_active w H X HX') as (k & c & Hk & Hty & Hplay).
      destruct (updateRain_exists playing now w0 k c playing_on_gain Hk Hplay)
        as (c' & Hk' & Hty' & Hplay').
      exists k, c'. split; [by apply lookup_app_l_Some |]. split; [congruence | done].
Qed.

End PlayInv.

Section Ends.

Lemma graph_end_wf c : wf_channel c -> wf_channel (with_graph (graph_end (ch_graph c)) c).
Proof.
  intros [Hst Hsh]. split; simpl.
  - destruct (ch_graph c) as [| ? ? [[]|] ? |]; simpl in *;
      repeat (apply Forall_cons in Hst as [? Hst]); repeat constructor; done.
  - by destruct (ch_graph c).
Qed.

Lemma inv_mark_ended k w :
  inv w ->
  (forall c, channels w !! k = Some c -> playing c ->
             ch_type c ∉ activeSounds (engine w)) ->
  inv (mark_ended k w).
Proof.
  intros H Hk. apply (inv_shrink w); simpl; auto.
  - intros j c Hj. destruct (decide (k = j)) as [-> | Hne].
    + rewrite list_lookup_alter_eq, Hj. simpl. eexists; split; [done |].
      split; [done |]. apply graph_end_wf.
      eapply Forall_lookup_1; [exact (inv_channels w H) | done].
    + rewrite list_lookup_alter_ne by done. exists c. split; [done |]. split; [done |].
      eapply Forall_lookup_1; [exact (inv_channels w H) | done].
  - apply length_alter.
  - intros X j c HX Hj Hty Hpl. destruct (decide (k = j)) as [-> | Hne].
    + exfalso. apply (Hk c Hj Hpl). by rewrite Hty.
    + rewrite list_lookup_alter_ne by done. by exists c.
Qed.

(** Deleting a sound from the set, then re-evaluating the ducking. *)
Lemma inv_delete now X w :
  inv w ->
  inv (updateRainDynamics now
         (on_engine (fun e => set_activeSounds (activeSounds e ∖ {[X]}) e) w)).
Proof.
  intros H. set (w1 := on_engine _ w).
  apply (inv_shrink w); rewrite ?updateRain_engine, ?updateRain_timers,
    ?updateRain_next_timer, ?updateRain_length; subst w1; simpl; auto.
  - intros j c Hj.
    destruct (updateRain_exists wf_channel now
                (on_engine (fun e => set_activeSounds (activeSounds e ∖ {[X]}) e) w)
                j c wf_channel_on_gain Hj) as (c' & ? & ? & ?); [| by exists c'].
    eapply Forall_lookup_1; [exact (inv_channels w H) | done].
  - intros Y j c HY Hj Hty Hpl.
    destruct (updateRain_exists playing now
                (on_engine (fun e => set_activeSounds (activeSounds e ∖ {[X]}) e) w)
                j c playing_on_gain Hj Hpl) as (c' & ? & ? & ?). by exists c'.
  - set_solver.
Qed.

(** After the end of channel [k] and the callback that deletes its sound. *)
Lemma inv_ended_deleted k now w c :
  inv w -> channels w !! k = Some c ->
  inv (natural_end k now (mark_ended k w)).
Proof.
  intros H Hk. unfold natural_end. simpl.
  rewrite list_lookup_alter_eq, Hk. simpl.
  set (w1 := updateRainDynamics now _).
  assert (H1 : inv w1).
  { subst w1.
    apply (inv_shrink w); rewrite ?updateRain_engine, ?updateRain_timers,
      ?updateRain_next_timer, ?updateRain_length; simpl; auto.
    - intros j cj Hj.
      assert (exists cj', alter (fun c => with_graph (graph_end (ch_graph c)) c) k
                            (channels w) !! j = Some cj'
                          /\ ch_type cj' = ch_type cj /\ wf_channel cj')
        as (cj' & Hj' & Hty & Hwf).
      { destruct (decide (k = j)) as [-> | Hne].
        - rewrite list_lookup_alter_eq, Hj. simpl. eexists; split; [done |].
          split; [done |]. apply graph_end_wf.
          eapply Forall_lookup_1; [exact (inv_channels w H) | done].
        - rewrite list_lookup_alter_ne by done. exists cj. split; [done |]. split; [done |].
          eapply Forall_lookup_1; [exact (inv_channels w H) | done]. }
      match goal with
      | |- context [updateRainDynamics now ?w0] =>
          destruct (updateRain_exists wf_channel now w0 j cj'
                      wf_channel_on_gain Hj' Hwf) as (c2 & ? & ? & ?)
      end.
      exists c2. split; [done |]. split; [congruence | done].
    - by rewrite length_alter.
    - intros X j cj HX Hj Hty Hpl.
      assert (Hne : k <> j).
      { intros ->. rewrite Hk in Hj. injection Hj as <-. set_solver. }
      match goal with
      | |- context [updateRainDynamics now ?w0] =>
          destruct (updateRain_exists playing now w0 j cj playing_on_gain) as (c2 & ? & ? & ?)
      end; [by simpl; rewrite list_lookup_alter_ne | done |].
      by exists c2.
    - set_solver. }
  destruct (ch_onEnded c); [| done].
  apply (inv_frame _ _ H1); simpl; auto; try apply H1.
  intros o Eo. split; [| exact (inv_tone _ H1 o Eo)].
  intros E. destruct (inv_ctx _ H1 E) as [_ E']. congruence.
Qed.

Lemma may_end_not_playing c :
  wf_channel c -> may_end c -> playing c -> has_onended c = true.
Proof.
  intros [_ Hsh] [_ Hme] [_ Hpl]. unfold has_onended.
  destruct (ch_graph c) as [src gn | src flt lfo gn | car mdl mg gn] eqn:Eg; simpl in *.
  - destruct (decide (ch_type c = BIRD)) as [-> | Hne]; [done |]. exfalso.
    destruct Hme as [Hl | Hs]; [by apply Hne, Hsh |].
    specialize (Hpl Hne). by apply Forall_cons in Hpl as [? _].
  - exfalso. specialize (Hpl Hsh). destruct lfo as [[] |];
      by apply Forall_cons in Hpl as [? _].
  - exfalso. destruct Hme as [Hne Hs]. specialize (Hpl Hne).
    by apply Forall_cons in Hpl as [? _].
Qed.

Lemma inv_playback_ends k now w c :
  inv w -> channels w !! k = Some c -> may_end c -> inv (playback_ends k now w).
Proof.
  intros H Hk Hme. unfold playback_ends. rewrite Hk.
  destruct (has_onended c) eqn:Eh; [by eapply inv_ended_deleted |].
  apply inv_mark_ended; [done |]. intros c' Hk' Hpl. exfalso.
  rewrite Hk in Hk'. injection Hk' as <-.
  assert (Hwf : wf_channel c) by (eapply Forall_lookup_1; [exact (inv_channels w H) | done]).
  pose proof (may_end_not_playing c Hwf Hme Hpl). congruence.
Qed.

End Ends.

Section Safety.

Lemma inv_clear id w : inv w -> inv (clearTimeout id w).
Proof.
  intros H. apply (inv_shrink w); simpl; auto.
  - intros tm Htm. by apply list_elem_of_filter in Htm as [_ ?].
  - intros k c Hk. exists c. split; [done |]. split; [done |].
    eapply Forall_lookup_1; [exact (inv_channels w H) | done].
  - intros X k c _ Hk _ Hpl. by exists c.
Qed.

Lemma find_timer_Some id w tm :
  find_timer id w = Some tm -> tm ∈ timers w /\ timer_id tm = id.
Proof.
  unfold find_timer. intros Hh. apply head_Some_elem_of in Hh.
  apply list_elem_of_filter in Hh. tauto.
Qed.

Lemma timer_fires_ok id now rnd w :
  inv w -> randoms_ok rnd ->
  exists w', timer_fires id now rnd w = Ok w' /\ inv w'.
Proof.
  intros H Hr. unfold timer_fires.
  destruct (find_timer id w) as [tm |] eqn:Ef; [| by exists w].
  apply find_timer_Some in Ef as [Htm Hid].
  pose proof (inv_clear id w H) as Hc.
  destruct (timer_cb tm) as [| k | nodes] eqn:Ecb; simpl.
  - destruct (playNextPianoNote_ok now rnd (clearTimeout id w)) as (w' & ? & ? & _);
      [done | done | | by exists w'].
    apply piano_timers_nil. simpl. apply Forall_forall. intros tm' Htm'.
    apply list_elem_of_filter in Htm' as [Hne Htm'].
    destruct (is_piano_tick tm') eqn:E; [| done]. exfalso.
    pose proof (inv_piano w H) as Hp. rewrite Forall_forall in Hp.
    pose proof (Hp tm' Htm' E) as E1.
    assert (Etm : is_piano_tick tm = true) by (unfold is_piano_tick; by rewrite Ecb).
    pose proof (Hp tm Htm Etm) as E2. congruence.
  - eexists; split; [reflexivity |].
    destruct (channels (clearTimeout id w) !! k) as [c |] eqn:Ek.
    + by eapply inv_ended_deleted.
    + unfold natural_end. simpl in *. rewrite list_lookup_alter_eq, Ek. simpl.
      apply inv_mark_ended; [done |]. simpl. intros c. by rewrite Ek.
  - by eexists.
Qed.

Lemma inv_note_ended i w : inv w -> inv (note_ended i w).
Proof.
  intros H. apply (inv_frame w); simpl; auto; try apply H.
  intros o Eo. split; [| exact (inv_tone w H o Eo)].
  intros E. destruct (inv_ctx w H E) as [_ E']. congruence.
Qed.

Lemma inv_set_buffer type b w :
  inv w -> inv (on_engine (set_buffer type b) w).
Proof.
  intros H. apply (inv_frame w); destruct type; simpl; auto; try apply H.
  all: intros o Eo; split; [| exact (inv_tone w H o Eo)].
  all: intros E; destruct (inv_ctx w H E) as [_ E']; congruence.
Qed.

(** Every step that can happen happens without an exception, and keeps
    the invariants. *)
Lemma exec_safe op w :
  inv w -> enabled op w -> exists w', exec op w = Ok w' /\ inv w'.
Proof.
  intros H Hen.
  destruct op as [| ty b | t f v | t f | t | F | t sp | t rnd sp | t rnd ty F cb
                 | k t | id t rnd | k t | i]; simpl in *.
  - eexists; split; [done |]. by apply inv_init.
  - eexists; split; [done |]. by apply inv_set_buffer.
  - destruct (inv_startTinnitusTone t f v w H) as (e' & -> & ?). by eexists.
  - eexists; split; [done |]. by apply inv_updateTinnitusFreq.
  - destruct (inv_stopTinnitusTone t w H) as (e' & -> & ?). by eexists.
  - eexists; split; [done |]. by apply inv_startAmbientTrack.
  - unfold toggleDrone. destruct sp.
    + destruct (startDrone_ok t w H) as (e' & -> & ? & _). by eexists.
    + eexists; split; [done |]. by apply inv_stopDrone.
  - unfold togglePiano. destruct sp.
    + by apply startPiano_ok.
    + eexists; split; [done |]. by apply inv_stopPiano.
  - destruct (playInteractionSound_eq t rnd ty F cb w H)
      as (g & _ & Hwf & Hpl & _ & ->). simpl.
    eexists; split; [done |]. by apply inv_started_world.
  - destruct (lookup_lt_is_Some_2 _ _ Hen) as [c Hk].
    destruct (stopFn_eq w k c H Hk t) as (g & _ & Hsp & ->).
    eexists; split; [done |]. by apply inv_stopped_world.
  - destruct Hen as [Hr _]. by apply timer_fires_ok.
  - destruct Hen as (c & Hk & Hme). eexists; split; [done |].
    by eapply inv_playback_ends.
  - eexists; split; [done |]. by apply inv_note_ended.
Qed.

Lemma inv_world0 : inv world0.
Proof.
  constructor; simpl; try done.
Qed.

Lemma steps_inv w w' : inv w -> steps w w' -> inv w'.
Proof.
  intros H Hs. induction Hs as [| w w1 op w2 _ IH Hen Hex]; [done |].
  destruct (exec_safe op w1 (IH H) Hen) as (w2' & Hex' & Hinv). congruence.
Qed.

Lemma reachable_inv w : reachable w -> inv w.
Proof. apply steps_inv, inv_world0. Qed.

(** In a state of a run no step that can happen throws, so nothing is
    lost by following only the steps that return. *)
Lemma reachable_progress w op :
  reachable w -> enabled op w -> exists w', exec op w = Ok w' /\ reachable w'.
Proof.
  intros Hr Hen.
  destruct (exec_safe op w (reachable_inv w Hr) Hen) as (w' & Hex & _).
  exists w'. split; [done |]. by eapply steps_step.
Qed.

Lemma steps_trans wa wb wc : steps wa wb -> steps wb wc -> steps wa wc.
Proof.
  intros H12 H23. induction H23 as [| w w1 op w2 _ IH Hen Hex]; [done |].
  eapply steps_step; [by apply IH | done | done].
Qed.

End Safety.

Section Monotone.

Lemma chan_mono_eq w w' : channels w' = channels w -> chan_mono w w'.
Proof. intros E k c Hk. exists c. by rewrite E. Qed.

Lemma chan_mono_trans w1 w2 w3 : chan_mono w1 w2 -> chan_mono w2 w3 -> chan_mono w1 w3.
Proof.
  intros H12 H23 k c Hk. destruct (H12 k c Hk) as (c' & Hk' & Hty).
  destruct (H23 k c' Hk') as (c'' & Hk'' & Hty'). exists c''. split; [done | congruence].
Qed.

Lemma chan_mono_updateRain now w : chan_mono w (updateRainDynamics now w).
Proof.
  intros k c Hk.
  destruct (updateRain_exists (fun _ => True) now w k c) as (c' & ? & ? & _); eauto.
Qed.

Lemma chan_mono_alter f k w w' :
  (forall c, ch_type (f c) = ch_type c) ->
  channels w' = alter f k (channels w) -> chan_mono w w'.
Proof.
  intros Hf E j c Hj. rewrite E. destruct (decide (k = j)) as [-> | Hne].
  - rewrite list_lookup_alter_eq, Hj. simpl. eauto.
  - rewrite list_lookup_alter_ne by done. eauto.
Qed.

Lemma chan_mono_started now type g cb w : chan_mono w (started_world now type g cb w).
Proof.
  intros k c Hk. rewrite started_world_channels.
  match goal with
  | |- context [updateRainDynamics now ?w0] =>
      destruct (chan_mono_updateRain now w0 k c) as (c' & Hk' & Hty); [done |]
  end.
  exists c'. split; [by apply lookup_app_l_Some | done].
Qed.

Lemma chan_mono_stopped k now w c g :
  channels w !! k = Some c -> chan_mono w (stopped_world k now w c g).
Proof.
  intros Hk. unfold stopped_world.
  eapply chan_mono_trans; [| apply chan_mono_updateRain].
  intros j cj Hj. simpl. destruct (decide (j = k)) as [-> | Hne].
  - rewrite list_lookup_insert_eq by (by eapply lookup_lt_Some).
    eexists; split; [done |]. simpl. congruence.
  - rewrite list_lookup_insert_ne by done. eauto.
Qed.

Lemma chan_mono_natural_end k now w : chan_mono w (natural_end k now w).
Proof.
  unfold natural_end. destruct (channels w !! k) as [c |]; [| by apply chan_mono_eq].
  destruct (ch_onEnded c).
  - eapply chan_mono_trans; [| apply chan_mono_eq; reflexivity].
    simpl. eapply chan_mono_trans; [| apply chan_mono_updateRain]. by apply chan_mono_eq.
  - eapply chan_mono_trans; [| apply chan_mono_updateRain]. by apply chan_mono_eq.
Qed.

Lemma chan_mono_mark_ended k w : chan_mono w (mark_ended k w).
Proof. eapply chan_mono_alter; [| reflexivity]. done. Qed.

Lemma playNextPianoNote_channels now rnd w w' :
  playNextPianoNote now rnd w = Ok w' -> channels w' = channels w.
Proof.
  unfold playNextPianoNote. intros E.
  destruct (ctx (engine w)); [| by injection E as <-].
  destruct (masterGain (engine w)); [| by injection E as <-].
  destruct (Math_floor _); try done.
  all: destruct (scale !! _); try done; simpl in E; by injection E as <-.
Qed.

Lemma exec_chan_mono op w w' :
  inv w -> enabled op w -> exec op w = Ok w' -> chan_mono w w'.
Proof.
  intros H Hen Hex.
  destruct op as [| ty b | t f v | t f | t | F | t sp | t rnd sp | t rnd ty F cb
                 | k t | id t rnd | k t | i]; simpl in *.
  - injection Hex as <-. by apply chan_mono_eq.
  - injection Hex as <-. by apply chan_mono_eq.
  - destruct (startTinnitusTone _ _ _ _); [| done]. injection Hex as <-. by apply chan_mono_eq.
  - injection Hex as <-. by apply chan_mono_eq.
  - destruct (stopTinnitusTone _ _); [| done]. injection Hex as <-. by apply chan_mono_eq.
  - injection Hex as <-. by apply chan_mono_eq.
  - unfold toggleDrone in Hex. destruct sp.
    + destruct (startDrone _ _); [| done]. injection Hex as <-. by apply chan_mono_eq.
    + injection Hex as <-. unfold stopDrone.
      destruct (droneNodes (engine w)) as [| [] ?]; [by apply chan_mono_eq | ..];
        destruct (ctx (engine w)); by apply chan_mono_eq.
  - unfold togglePiano, startPiano, stopPiano in Hex. destruct sp.
    + destruct (truthy _); [injection Hex as <-; by apply chan_mono_eq |].
      apply playNextPianoNote_channels in Hex. by apply chan_mono_eq.
    + injection Hex as <-. destruct (truthy _); [| by apply chan_mono_eq].
      destruct (pianoTimeout _); by apply chan_mono_eq.
  - destruct (playInteractionSound_eq t rnd ty F cb w H) as (g & _ & _ & _ & _ & E).
    rewrite E in Hex. injection Hex as <-. apply chan_mono_started.
  - destruct (lookup_lt_is_Some_2 _ _ Hen) as [c Hk].
    destruct (stopFn_eq w k c H Hk t) as (g & _ & _ & E).
    rewrite E in Hex. injection Hex as <-. by apply chan_mono_stopped.
  - unfold timer_fires in Hex. destruct (find_timer id w) as [tm |];
      [| injection Hex as <-; by apply chan_mono_eq].
    destruct (timer_cb tm); simpl in Hex.
    + apply playNextPianoNote_channels in Hex. by apply chan_mono_eq.
    + injection Hex as <-.
      eapply chan_mono_trans; [| apply chan_mono_natural_end].
      eapply chan_mono_trans; [| apply chan_mono_mark_ended]. by apply chan_mono_eq.
    + injection Hex as <-. by apply chan_mono_eq.
  - injection Hex as <-. unfold playback_ends.
    destruct (channels w !! k) as [c |]; [| by apply chan_mono_eq].
    destruct (has_onended c).
    + eapply chan_mono_trans; [apply chan_mono_mark_ended | apply chan_mono_natural_end].
    + apply chan_mono_mark_ended.
  - injection Hex as <-. by apply chan_mono_eq.
Qed.

Lemma steps_chan_mono w w' : inv w -> steps w w' -> chan_mono w w'.
Proof.
  intros H Hs. induction Hs as [| w w1 op w2 Hs IH Hen Hex]; [by apply chan_mono_eq |].
  eapply chan_mono_trans; [by apply IH |].
  eapply exec_chan_mono; [| done | done]. by eapply steps_inv.
Qed.

End Monotone.

Section Ducking.

Lemma othersPlaying_true e :
  othersPlaying e = true <-> exists X, X ∈ activeSounds e /\ X <> RAIN.
Proof.
  unfold othersPlaying. rewrite existsb_exists. split.
  - intros (X & HX & Hb). exists X. apply bool_decide_eq_true in Hb.
    split; [| done]. by apply elem_of_elements, list_elem_of_In.
  - intros (X & HX & Hne). exists X. split.
    + by apply list_elem_of_In, elem_of_elements.
    + by apply bool_decide_eq_true.
Qed.

Lemma othersPlaying_false e :
  othersPlaying e = false <-> activeSounds e ⊆ {[RAIN]}.
Proof.
  destruct (othersPlaying e) eqn:E.
  - apply othersPlaying_true in E as (X & HX & Hne). split; [done |].
    intros Hs. exfalso. set_solver.
  - split; [| done]. intros _ X HX. apply elem_of_singleton.
    destruct (decide (X = RAIN)) as [| Hne]; [done |].
    assert (othersPlaying e = true) by (apply othersPlaying_true; eauto). congruence.
Qed.

(** What a re-evaluation of the ducking does to the gain of RAIN. *)
Lemma rain_target_updateRain now w r :
  rainGainNode (engine w) = Some r -> ctx (engine w) <> None ->
  is_Some (channels w !! r) ->
  rain_target (updateRainDynamics now w)
  = Some (if othersPlaying (engine w) then 0.05 else 0.15).
Proof.
  intros Er Hc [c Hr]. unfold rain_target. rewrite updateRain_engine, Er. simpl.
  unfold updateRainDynamics. rewrite Er.
  destruct (ctx (engine w)); [| done]. simpl.
  rewrite list_lookup_alter_eq, Hr. simpl. f_equal.
  destruct (ch_graph c); simpl; apply target_retarget.
Qed.

Lemma rain_idle now w :
  rainGainNode (engine w) = None -> updateRainDynamics now w = w.
Proof. intros E. unfold updateRainDynamics. by rewrite E. Qed.

End Ducking.

Section Handles.

Lemma started_world_new_channel now type g cb w :
  channels (started_world now type g cb w) !! length (channels w)
  = Some (mkChannel type g cb).
Proof.
  rewrite started_world_channels, lookup_app_r by (rewrite updateRain_length; simpl; lia).
  rewrite updateRain_length. simpl. by rewrite Nat.sub_diag.
Qed.

Lemma play_step now rnd type F cb w g :
  unit_interval rnd ->
  playInteractionSound now rnd type F cb w
  = Ok (StopFn (length (channels w)), started_world now type g cb w) ->
  steps w (started_world now type g cb w).
Proof.
  intros Hr E.
  apply (steps_step w w (PlayInteractionSound now rnd type F cb)); [apply steps_refl | done |].
  simpl. by rewrite E.
Qed.

Lemma stopped_world_active k now w c g :
  activeSounds (engine (stopped_world k now w c g))
  = activeSounds (engine w) ∖ {[ch_type c]}.
Proof.
  unfold stopped_world. rewrite updateRain_engine. simpl.
  by destruct (decide (ch_type c = RAIN)).
Qed.

Lemma exec_play now rnd type F cb w h w' :
  playInteractionSound now rnd type F cb w = Ok (h, w') ->
  exec (PlayInteractionSound now rnd type F cb) w = Ok w'.
Proof. intros E. simpl. by rewrite E. Qed.

Lemma run_cons op ops w w' : exec op w = Ok w' -> run (op :: ops) w = run ops w'.
Proof. intros E. simpl. by rewrite E. Qed.

Lemma started_world_length now type g cb w :
  length (channels (started_world now type g cb w)) = S (length (channels w)).
Proof.
  rewrite started_world_channels, length_app, updateRain_length. simpl. lia.
Qed.

Lemma started_world_rainGainNode now type g cb w :
  rainGainNode (engine (started_world now type g cb w))
  = if decide (type = RAIN) then Some (length (channels w)) else rainGainNode (engine w).
Proof.
  rewrite started_world_engine.
  by destruct (started_engine_fields (length (channels w)) type (engine w))
    as (_ & _ & _ & -> & _).
Qed.

Lemma started_world_active now type g cb w :
  activeSounds (engine (started_world now type g cb w))
  = {[type]} ∪ activeSounds (engine w).
Proof.
  rewrite started_world_engine.
  by destruct (started_engine_fields (length (channels w)) type (engine w))
    as (_ & _ & -> & _).
Qed.

Lemma stopped_world_rainGainNode k now w c g :
  ch_type c <> RAIN ->
  rainGainNode (engine (stopped_world k now w c g)) = rainGainNode (engine w).
Proof.
  intros Hne. unfold stopped_world. rewrite updateRain_engine. simpl.
  by rewrite decide_False.
Qed.

Lemma stopped_world_rain k now w c g r :
  inv w -> channels w !! k = Some c ->
  rainGainNode (engine (stopped_world k now w c g)) = Some r ->
  rain_target (stopped_world k now w c g)
  = Some (if othersPlaying (engine (stopped_world k now w c g)) then 0.05 else 0.15).
Proof.
  intros H Hk. unfold stopped_world.
  set (w' := on_engine _ _). rewrite updateRain_engine. intros Er.
  apply rain_target_updateRain with (r := r); [done | |].
  - subst w'. simpl. pose proof (inv_has_ctx w k c H Hk).
    by destruct (decide (ch_type c = RAIN)).
  - assert (Er' : rainGainNode (engine w) = Some r).
    { subst w'. simpl in Er. by destruct (decide (ch_type c = RAIN)). }
    destruct (inv_rain w H r Er') as (cr & Hr & _).
    subst w'. simpl. apply lookup_lt_is_Some. rewrite length_insert.
    by eapply lookup_lt_Some.
Qed.

End Handles.

Section Claim1.

Import Pitch.

Lemma max_min_clamp (x lo hi : R) :
  lo <= hi -> Math_max lo (Math_min hi x) = clamp x lo hi.
Proof.
  intros Hlh. unfold Math_max, Math_min, clamp, Rmax, Rmin.
  repeat (destruct (Rle_dec _ _) || destruct (Rlt_dec _ _)); lra.
Qed.

Lemma sqrt_between (x lo hi : R) :
  0 <= lo -> lo * lo <= x <= hi * hi -> 0 <= hi -> lo <= sqrt x <= hi.
Proof.
  intros Hlo [H1 H2] Hhi.
  assert (0 <= x) by nra.
  split; apply Rsqr_incr_0_var; try apply sqrt_pos; try done.
  all: rewrite Rsqr_sqrt by done; unfold Rsqr; lra.
Qed.

(** C1. For every positive reference frequency F the multiplier computed
    for BIRD and INSECT is clamp(F/8000, 0.5, 2.5) and the one computed for
    WIND, LEAVES, WATER and RAIN is clamp(sqrt(F/8000), 0.6, 1.8).  At the
    ends of the calibration range: for F = 4500 the multipliers are 0.5625
    and 0.75, for F = 10000 they are 1.25 and sqrt 1.25, each within its
    clamping bounds. *)
Theorem rate_is_spec_multiplier (type : SoundId) (F : R) :
  0 < F ->
  rate type F = spec_multiplier (mapping_of type) F
  /\ rate BIRD 4500 = 0.5625 /\ rate WIND 4500 = 0.75
  /\ rate BIRD 10000 = 1.25 /\ rate WIND 10000 = sqrt 1.25
  /\ 0.6 <= sqrt 1.25 <= 1.8.
Proof.
  intros _.
  assert (Hs : sqrt 0.5625 = 0.75).
  { replace 0.5625 with (0.75 * 0.75) by lra. apply sqrt_square. lra. }
  assert (Hb : 0.6 <= sqrt 1.25 <= 1.8) by (apply sqrt_between; lra).
  split; [| repeat split; try apply Hb].
  - destruct type; unfold rate, calculatePitch, spec_multiplier, mapping_of;
      apply max_min_clamp; lra.
  - unfold rate, calculatePitch, Math_max, Math_min, Rmax, Rmin.
    repeat destruct (Rle_dec _ _); lra.
  - unfold rate, calculatePitch.
    replace (4500 / 8000) with 0.5625 by lra. rewrite Hs.
    unfold Math_max, Math_min, Rmax, Rmin.
    repeat destruct (Rle_dec _ _); lra.
  - unfold rate, calculatePitch, Math_max, Math_min, Rmax, Rmin.
    repeat destruct (Rle_dec _ _); lra.
  - unfold rate, calculatePitch.
    replace (10000 / 8000) with 1.25 by lra.
    unfold Math_max, Math_min, Rmax, Rmin.
    repeat destruct (Rle_dec _ _); lra.
Qed.

Lemma rate_is_spec_multiplier_witness :
  0 < 8000
  /\ rate WIND 8000 = spec_multiplier (mapping_of WIND) 8000
  /\ rate BIRD 4500 = 0.5625 /\ rate WIND 4500 = 0.75
  /\ rate BIRD 10000 = 1.25 /\ rate WIND 10000 = sqrt 1.25
  /\ 0.6 <= sqrt 1.25 <= 1.8.
Proof.
  assert (H : 0 < 8000) by lra.
  split; [exact H |]. exact (rate_is_spec_multiplier WIND 8000 H).
Defined.

(** The rate computed by [playInteractionSound] is the one set on the
    sample player (for LEAVES and WATER, times the random variation). *)
Lemma sampled_playbackRate t rnd type F e b :
  ctx e <> None -> buffer_of type e = Some b ->
  exists src gn, build_graph t rnd type F e = Ok (Sample src gn)
    /\ value (playbackRate src)
       = match type with
         | LEAVES => rate type F * (0.9 + rnd * 0.2)
         | WATER => rate type F * (0.95 + rnd * 0.1)
         | _ => rate type F
         end.
Proof.
  intros Hc Hb. destruct (ctx e) eqn:Ec; [| done].
  destruct type; simpl in Hb; unfold build_graph, createSource; rewrite Ec, Hb; simpl;
    eexists _, _; split; reflexivity.
Qed.

End Claim1.

Section Claim2.

Lemma rain_target_eq w r c :
  rainGainNode (engine w) = Some r -> channels w !! r = Some c ->
  rain_target w = Some (target (gain (graph_gain (ch_graph c)))).
Proof. unfold rain_target. intros -> . simpl. by intros ->. Qed.

(** Starting another sound while RAIN is registered re-targets the gain of
    RAIN to 0.05, whether RAIN plays its sample or is synthesized. *)
Lemma start_ducks_rain now type g cb w r :
  inv w -> type <> RAIN -> rainGainNode (engine w) = Some r ->
  rain_target (started_world now type g cb w) = Some 0.05.
Proof.
  intros H Hty Er.
  set (w0 := on_engine (fun e => set_activeSounds ({[type]} ∪ activeSounds e) e)
               (on_engine init w)).
  destruct (init_fields (engine w)) as (_ & _ & Hr & _ & Ha & _).
  destruct (inv_rain w H r Er) as (c & Hk & _).
  assert (Hrt : rain_target (updateRainDynamics now w0) = Some 0.05).
  { rewrite rain_target_updateRain with (r := r).
    - assert (Ho : othersPlaying (engine w0) = true).
      { apply othersPlaying_true. exists type. split; [| done].
        subst w0. simpl. set_solver. }
      by rewrite Ho.
    - subst w0. simpl. congruence.
    - subst w0. simpl. by rewrite init_ctx.
    - subst w0. simpl. eauto. }
  revert Hrt. unfold rain_target.
  rewrite started_world_engine, started_world_channels. fold w0.
  destruct (started_engine_fields (length (channels w)) type (engine w))
    as (_ & _ & _ & -> & _).
  rewrite decide_False by done. rewrite updateRain_engine. subst w0. simpl.
  rewrite Hr, Er. simpl.
  match goal with
  | |- context [channels (updateRainDynamics now ?w1) !! r] =>
      destruct (channels (updateRainDynamics now w1) !! r) as [c' |] eqn:Ek; [| done]
  end.
  intros Ht. erewrite lookup_app_l_Some by done. done.
Qed.

Lemma target_fade_in v t d p0 :
  0 < d ->
  target (linearRampToValueAtTime v (t + d) (setValueAtTime 0 t (mkParam p0 []))) = v.
Proof.
  intros Hd. unfold target, linearRampToValueAtTime, setValueAtTime, schedule. simpl.
  rewrite decide_False by lra. done.
Qed.

(** Starting RAIN: the gain fades in to 0.15, or 0.05 when another sound
    is active; for the synthesized RAIN, to 0.08 or 0.03. *)
Lemma start_rain_target now rnd F cb w g :
  inv w ->
  build_graph now rnd RAIN F (started_engine (length (channels w)) RAIN (engine w)) = Ok g ->
  rain_target (started_world now RAIN g cb w)
  = Some (match rainBuffer (engine w), othersPlaying (init (engine w)) with
          | Some _, true => 0.05
          | Some _, false => 0.15
          | None, true => 0.03
          | None, false => 0.08
          end).
Proof.
  intros H Hg.
  destruct (started_engine_fields (length (channels w)) RAIN (engine w))
    as (_ & _ & Ha & Hrain & _).
  rewrite decide_True in Hrain by done.
  rewrite (rain_target_eq _ (length (channels w)) (mkChannel RAIN g cb));
    [| by rewrite started_world_engine | apply started_world_new_channel].
  simpl. f_equal.
  destruct (init_fields (engine w)) as (_ & _ & _ & _ & Hact & _ & Hb & _).
  specialize (Hb RAIN). simpl in Hb.
  assert (Ho : othersPlaying (started_engine (length (channels w)) RAIN (engine w))
               = othersPlaying (init (engine w))).
  { destruct (othersPlaying (init (engine w))) eqn:E.
    - apply othersPlaying_true in E as (X & HX & Hne). apply othersPlaying_true.
      exists X. split; [| done]. rewrite Ha. set_solver.
    - apply othersPlaying_false in E. apply othersPlaying_false. rewrite Ha.
      rewrite <- Hact. set_solver. }
  revert Hg. unfold build_graph, createSource, noise_source, createNoiseBuffer.
  rewrite started_engine_ctx, Ho.
  replace (rainBuffer (started_engine (length (channels w)) RAIN (engine w)))
    with (rainBuffer (engine w)) by (unfold started_engine; simpl; congruence).
  destruct (rainBuffer (engine w)); simpl; intros [= <-]; simpl.
  all: unfold on_gain; simpl; rewrite target_fade_in by lra.
  all: by destruct (othersPlaying _).
Qed.

(** C2, on the code: with no sample of RAIN loaded, RAIN is started, then
    WIND is started and stopped.  RAIN is synthesized and fades in to 0.08.
    The start of WIND re-targets the gain of RAIN to 0.05 (the claim: 0.03)
    and the stop of WIND to 0.15 (the claim: 0.08). *)
Theorem rain_fallback_ducking :
  exists w1 w2 w3 c,
    exec (PlayInteractionSound 0 0 RAIN 8000 false) world0 = Ok w1
    /\ channels w1 !! 0%nat = Some c /\ ch_type c = RAIN /\ synthesized c = true
    /\ rainGainNode (engine w1) = Some 0%nat
    /\ rain_target w1 = Some 0.08
    /\ exec (PlayInteractionSound 1 0 WIND 8000 false) w1 = Ok w2
    /\ rain_target w2 = Some 0.05
    /\ exec (CallStop 1 2) w2 = Ok w3
    /\ rain_target w3 = Some 0.15
    /\ run rain_fallback_run world0 = Ok w3.
Proof.
  pose proof inv_world0 as H0.
  destruct (playInteractionSound_eq 0 0 RAIN 8000 false world0 H0)
    as (g1 & Hg1 & Hwf1 & Hpl1 & Hsy1 & E1).
  set (w1 := started_world 0 RAIN g1 false world0) in *.
  assert (H1 : inv w1) by (by apply inv_started_world).
  assert (Hr1 : rainGainNode (engine w1) = Some 0%nat)
    by (subst w1; by rewrite started_world_rainGainNode).
  assert (Ha1 : activeSounds (engine w1) = {[RAIN]} ∪ ∅)
    by (subst w1; by rewrite started_world_active).
  assert (Hl1 : length (channels w1) = 1%nat)
    by (subst w1; by rewrite started_world_length).
  destruct (playInteractionSound_eq 1 0 WIND 8000 false w1 H1)
    as (g2 & Hg2 & Hwf2 & Hpl2 & Hsy2 & E2).
  rewrite Hl1 in E2.
  set (w2 := started_world 1 WIND g2 false w1) in *.
  assert (H2 : inv w2) by (by apply inv_started_world).
  assert (Hr2 : rainGainNode (engine w2) = Some 0%nat)
    by (subst w2; by rewrite started_world_rainGainNode).
  assert (Ha2 : activeSounds (engine w2) = {[WIND]} ∪ ({[RAIN]} ∪ ∅))
    by (subst w2; by rewrite started_world_active, Ha1).
  assert (Hk2 : channels w2 !! 1%nat = Some (mkChannel WIND g2 false)).
  { subst w2. rewrite <- Hl1. apply started_world_new_channel. }
  destruct (stopFn_eq w2 1 _ H2 Hk2 2) as (g3 & _ & _ & E3).
  set (w3 := stopped_world 1 2 w2 (mkChannel WIND g2 false) g3) in *.
  assert (Hr3 : rainGainNode (engine w3) = Some 0%nat)
    by (subst w3; by rewrite stopped_world_rainGainNode).
  exists w1, w2, w3, (mkChannel RAIN g1 false).
  split; [by eapply exec_play |].
  split; [exact (started_world_new_channel 0 RAIN g1 false world0) |].
  split; [done |]. split; [done |]. split; [done |].
  split.
  { subst w1. rewrite (start_rain_target 0 0 8000 false world0 g1 H0 Hg1).
    assert (Ho : othersPlaying (init (engine world0)) = false).
    { apply othersPlaying_false.
      destruct (init_fields (engine world0)) as (_ & _ & _ & _ & -> & _). done. }
    by rewrite Ho. }
  split; [by eapply exec_play |].
  split; [by apply (start_ducks_rain 1 WIND g2 false w1 0%nat) |].
  split; [done |].
  split.
  { subst w3. rewrite (stopped_world_rain 1 2 w2 _ g3 0%nat H2 Hk2 Hr3).
    assert (Ho : othersPlaying (engine (stopped_world 1 2 w2 (mkChannel WIND g2 false) g3))
                 = false).
    { apply othersPlaying_false. rewrite stopped_world_active, Ha2. simpl. set_solver. }
    by rewrite Ho. }
  unfold rain_fallback_run.
  erewrite run_cons by (by eapply exec_play).
  erewrite run_cons by (by eapply exec_play).
  erewrite run_cons by done. done.
Qed.

End Claim2.

Section Claim3.






Lemma wind_fallback_cutoff F :
  exists g p, build_graph 0 0 WIND F (init engine0) = Ok g
              /\ tuning g = Some p /\ p = mkParam 300 [].
Proof. eexists _, _. split; [reflexivity |]. split; reflexivity. Qed.

(** In the earlier copy of the engine two reference frequencies do give
    two tunings. *)
Lemma v1_fallback_tracks_frequency t type F1 F2 :
  F1 <> F2 -> V1.fallback_tuning t type F1 <> V1.fallback_tuning t type F2.
Proof.
  intros Hne. destruct type; unfold V1.fallback_tuning; simpl.
  - unfold exponentialRampToValueAtTime, setValueAtTime, schedule. simpl.
    rewrite !decide_False by lra. simpl. intros [= ? ?]. lra.
  - unfold set_value. simpl. intros [= ?]. lra.
  - unfold set_value. simpl. intros [= ?]. lra.
  - unfold set_value. simpl. intros [= ?]. lra.
  - unfold set_value. simpl. intros [= ?]. lra.
  - unfold set_value. simpl. intros [= ?]. lra.
Qed.

End Claim3.

Section Claim4.




Lemma stopped_world_other k now w c g j cj :
  j <> k -> channels w !! j = Some cj -> playing cj ->
  exists cj', channels (stopped_world k now w c g) !! j = Some cj'
              /\ ch_type cj' = ch_type cj /\ playing cj'.
Proof.
  intros Hne Hj Hpl. unfold stopped_world.
  match goal with
  | |- context [updateRainDynamics now ?w0] =>
      destruct (updateRain_exists playing now w0 j cj playing_on_gain)
        as (c' & ? & ? & ?)
  end; [by simpl; rewrite list_lookup_insert_ne | done |].
  by exists c'.
Qed.


(** Starting WIND twice and stopping the first channel: the second keeps
    playing, undisturbed, and WIND has left the set of active sounds. *)
Lemma double_start_loses_membership :
  exists w c,
    reachable w /\ channels w !! 1%nat = Some c /\ ch_type c = WIND /\ playing c
    /\ (WIND ∉ activeSounds (engine w)).
Proof.
  pose proof inv_world0 as H0.
  assert (Hr : unit_interval 0) by (unfold unit_interval; lra).
  destruct (playInteractionSound_eq 0 0 WIND 8000 false world0 H0)
    as (g1 & _ & Hwf1 & Hpl1 & _ & E1).
  set (w1 := started_world 0 WIND g1 false world0) in *.
  assert (Hs1 : steps world0 w1) by (by apply play_step with (rnd := 0) (F := 8000)).
  pose proof (steps_inv _ _ H0 Hs1) as H1.
  assert (Hl1 : length (channels w1) = 1%nat)
    by (subst w1; by rewrite started_world_length).
  destruct (playInteractionSound_eq 1 0 WIND 8000 false w1 H1)
    as (g2 & _ & Hwf2 & Hpl2 & _ & E2).
  set (w2 := started_world 1 WIND g2 false w1) in *.
  assert (Hs2 : steps w1 w2) by (by apply play_step with (rnd := 0) (F := 8000)).
  pose proof (steps_inv _ _ H1 Hs2) as H2.
  assert (Hk1 : channels w2 !! 1%nat = Some (mkChannel WIND g2 false)).
  { subst w2. rewrite <- Hl1. apply started_world_new_channel. }
  destruct (steps_chan_mono _ _ H1 Hs2 0%nat _
              (started_world_new_channel 0 WIND g1 false world0)) as (c0 & Hk0 & Hty0).
  destruct (stopFn_eq w2 0 c0 H2 Hk0 2) as (g3 & _ & _ & E3).
  destruct (stopped_world_other 0 2 w2 c0 g3 1%nat _ ltac:(done) Hk1 Hpl2)
    as (c1 & Hc1 & Hty1 & Hpl1').
  exists (stopped_world 0 2 w2 c0 g3), c1.
  split; [| split; [done | split; [done | split; [done |]]]].
  - apply (steps_step world0 w2 (CallStop 0 2)).
    + by apply (steps_trans world0 w1 w2).
    + change (0 < length (channels w2))%nat. eapply lookup_lt_Some. exact Hk0.
    + done.
  - rewrite stopped_world_active. simpl in Hty0. rewrite Hty0. set_solver.
Qed.


End Claim4.

Section Claim5.



End Claim5.

Section Claim6.

(** C6, on the code: WIND is started at time 0 with no sample loaded and
    stopped through its handle at time 0.5, in the middle of its fade-in.
    The stop schedules its fade-out and cancels nothing: the ramp of the
    fade-in, up to 0.25 at time 2, is still on the timeline of the gain and
    still to come. *)
Theorem wind_fallback_stop_keeps_ramp :
  exists w c,
    run wind_fallback_run world0 = Ok w
    /\ channels w !! 0%nat = Some c
    /\ ch_type c = WIND /\ synthesized c = true
    /\ events (gain (graph_gain (ch_graph c)))
       = [SetValueAtTime 0 0; LinearRampToValueAtTime 0.25 (0 + 2.0);
          LinearRampToValueAtTime 0 (0.5 + 2.0)]
    /\ pending 0.5 (gain (graph_gain (ch_graph c)))
       = [LinearRampToValueAtTime 0.25 (0 + 2.0); LinearRampToValueAtTime 0 (0.5 + 2.0)].
Proof.
  eexists _, _. split; [evaluate; reflexivity |]. split; [evaluate; reflexivity |].
  split; [reflexivity |]. split; [reflexivity |].
  evaluate. decide_times. split; reflexivity.
Qed.

(** The same run with the sample of WIND loaded: the stop cancels the ramp
    of the fade-in, and only its own fade-out is to come. *)
Lemma wind_sample_stop_cancels :
  exists w c,
    run wind_sample_run world0 = Ok w
    /\ channels w !! 0%nat = Some c
    /\ ch_type c = WIND /\ synthesized c = false
    /\ events (gain (graph_gain (ch_graph c)))
       = [SetValueAtTime 0 0; LinearRampToValueAtTime 0 (0.5 + 1.5)]
    /\ pending 0.5 (gain (graph_gain (ch_graph c)))
       = [LinearRampToValueAtTime 0 (0.5 + 1.5)].
Proof.
  eexists _, _. split; [evaluate; reflexivity |]. split; [evaluate; reflexivity |].
  split; [reflexivity |]. split; [reflexivity |].
  evaluate. decide_times. split; reflexivity.
Qed.

(** In general: the stop of a looping sample cancels before it fades, the
    stop of a synthesized channel only adds its fade to the timeline. *)
Lemma internalStop_timeline now c e g e' :
  ch_type c <> BIRD -> internalStop now c e = Ok (g, e') ->
  exists fade,
    events (gain (graph_gain g))
    = insert_event (LinearRampToValueAtTime 0 (now + fade))
        (if synthesized c
         then events (gain (graph_gain (ch_graph c)))
         else events (cancelScheduledValues now (gain (graph_gain (ch_graph c))))).
Proof.
  intros Hty. unfold internalStop, synthesized.
  destruct c as [ty gr cb]; simpl in *.
  destruct (ctx e); [| destruct ty, gr; done].
  destruct ty; try done; destruct gr as [src gn | src flt [[lfo lg] |] gn | car mdl mg gn];
    simpl.
  all: repeat match goal with
         | |- context [src_stop ?t ?s] => destruct (src_stop t s); simpl; [| done]
         | |- context [osc_stop ?t ?s] => destruct (osc_stop t s); simpl; [| done]
         end.
  all: intros [= <- <-]; simpl; eexists; reflexivity.
Qed.

End Claim6.

Section Claim7.

Lemma startPiano_truthy now rnd w w1 :
  inv w -> randoms_ok rnd -> startPiano now rnd w = Ok w1 ->
  truthy (pianoTimeout (engine w1)) = true
  /\ (forall tm, tm ∈ timers w1 -> is_piano_tick tm = false -> tm ∈ timers w).
Proof.
  intros H Hr. unfold startPiano.
  destruct (truthy (pianoTimeout (engine w))) eqn:Et.
  - intros [= <-]. auto.
  - intros E.
    destruct (playNextPianoNote_ok now rnd (on_engine init w)) as (w' & E' & _ & Ht);
      [by apply inv_init | done | |].
    { apply piano_timers_nil. apply (piano_timers_nil w). by apply no_piano_timers. }
    rewrite E in E'. injection E' as <-.
    destruct Ht as (ms & Ht & Hp); [simpl; by rewrite init_ctx |].
    simpl in *. rewrite Hp. split.
    + destruct (inv_timer_ids w H) as [Hone _]. by destruct (next_timer w); [lia |].
    + intros tm Htm Hpt. rewrite Ht in Htm. apply elem_of_app in Htm as [? | Htm]; [done |].
      apply list_elem_of_singleton in Htm. subst tm. done.
Qed.

(** C7. Enabling the generative sequencer and then disabling it, in any
    state of the engine and whatever the random draws, leaves no pending
    [setTimeout] callback of the sequencer: the timer that re-schedules the
    next note is cleared and [pianoTimeout] is null; every callback still
    pending was pending before the sequencer was enabled, so on a fresh
    engine none is left at all.  The same holds when the sequencer is
    disabled at any later moment of a run, after any number of notes. *)
Theorem piano_enable_disable (w : World) (now now' : R) (rnd rnd' : NoteRandoms) :
  reachable w -> randoms_ok rnd ->
  exists w1 w2,
    togglePiano now rnd true w = Ok w1
    /\ togglePiano now' rnd' false w1 = Ok w2
    /\ piano_timers w2 = []
    /\ pianoTimeout (engine w2) = None
    /\ (forall tm, tm ∈ timers w2 -> tm ∈ timers w)
    /\ (timers w = [] -> timers w2 = [])
    /\ (forall w' later, steps w1 w' ->
        exists w2', togglePiano later rnd' false w' = Ok w2' /\ piano_timers w2' = []).
Proof.
  intros Hw Hr. pose proof (reachable_inv w Hw) as H.
  destruct (startPiano_ok now rnd w H Hr) as (w1 & E & H1).
  destruct (startPiano_truthy now rnd w w1 H Hr E) as [Ht Hold].
  exists w1, (stopPiano w1). split; [done |]. split; [done |].
  destruct (inv_stopPiano w1 H1) as [H2 Hp].
  split; [done |].
  assert (Hsub : forall tm, tm ∈ timers (stopPiano w1) -> tm ∈ timers w).
  { intros tm Htm. apply piano_timers_nil in Hp. rewrite Forall_forall in Hp.
    apply Hold; [| by apply Hp].
    revert Htm. unfold stopPiano. rewrite Ht.
    destruct (pianoTimeout (engine w1)); [| done]. simpl.
    intros Htm. by apply list_elem_of_filter in Htm as [_ ?]. }
  split; [| split; [done | split]].
  - unfold stopPiano. rewrite Ht. by destruct (pianoTimeout (engine w1)).
  - intros E0. destruct (timers (stopPiano w1)) as [| tm l] eqn:El; [done |].
    specialize (Hsub tm). rewrite E0 in Hsub. exfalso.
    eapply not_elem_of_nil, Hsub. by left.
  - intros w' later Hs. exists (stopPiano w'). split; [done |].
    by apply inv_stopPiano, (steps_inv w1).
Qed.

Lemma piano_enable_disable_witness :
  reachable world0 /\ randoms_ok randoms0
  /\ exists w1 w2,
       togglePiano 0 randoms0 true world0 = Ok w1
       /\ togglePiano 1 randoms0 false w1 = Ok w2
       /\ piano_timers w2 = []
       /\ pianoTimeout (engine w2) = None
       /\ (forall tm, tm ∈ timers w2 -> tm ∈ timers world0)
       /\ (timers world0 = [] -> timers w2 = [])
       /\ (forall w' later, steps w1 w' ->
           exists w2', togglePiano later randoms0 false w' = Ok w2'
                       /\ piano_timers w2' = []).
Proof.
  assert (Hr : randoms_ok randoms0) by (repeat split; simpl; lra).
  split; [apply steps_refl |]. split; [done |].
  exact (piano_enable_disable world0 0 1 randoms0 randoms0 (steps_refl world0) Hr).
Defined.

End Claim7.

Section Claim8.

Lemma set_tinnitusGain_same e g : tinnitusGain e = Some g -> set_tinnitusGain (Some g) e = e.
Proof. destruct e; simpl. by intros ->. Qed.

Lemma fade_tone_idem now e : fade_tone now (fade_tone now e) = fade_tone now e.
Proof.
  unfold fade_tone. destruct (tinnitusGain e) as [g |] eqn:Eg; [| by rewrite Eg].
  destruct (ctx e) eqn:Ec; [| by rewrite Eg, Ec]. simpl. rewrite Ec.
  apply set_tinnitusGain_same. simpl. f_equal.
  unfold on_gain, exponentialRampToValueAtTime. simpl. by rewrite schedule_idem.
Qed.

Lemma fade_tone_fields now e :
  tinnitusOsc (fade_tone now e) = tinnitusOsc e /\ ctx (fade_tone now e) = ctx e.
Proof.
  unfold fade_tone. destruct (tinnitusGain e); [| done].
  by destruct (ctx e) eqn:Ec.
Qed.

Lemma fade_tone_silent now e :
  tinnitusOsc e = None -> stopTinnitusTone now e = Ok (fade_tone now e).
Proof.
  intros Eo. unfold stopTinnitusTone.
  destruct (fade_tone_fields now e) as [-> _]. by rewrite Eo.
Qed.

Lemma set_tinnitusOsc_fade now e :
  fade_tone now (set_tinnitusOsc None e) = set_tinnitusOsc None (fade_tone now e).
Proof.
  unfold fade_tone. simpl. destruct (tinnitusGain e); [| done]. by destruct (ctx e).
Qed.

(** C8. In any state of the engine [stopTinnitusTone] does not throw, with
    or without a tone playing; called again at once (at the same
    [currentTime]) it does not throw and leaves the engine exactly as the
    first call left it; called again at any later time it does not throw
    either and the tone stays stopped.  On an engine that holds no tone it
    changes nothing. *)
Theorem stopTinnitusTone_twice (w : World) (now : R) :
  reachable w ->
  exists e1,
    stopTinnitusTone now (engine w) = Ok e1
    /\ stopTinnitusTone now e1 = Ok e1
    /\ tinnitusOsc e1 = None
    /\ (forall later, exists e2, stopTinnitusTone later e1 = Ok e2 /\ tinnitusOsc e2 = None)
    /\ (tinnitusOsc (engine w) = None -> tinnitusGain (engine w) = None -> e1 = engine w).
Proof.
  intros Hw. pose proof (reachable_inv w Hw) as H.
  destruct (stopTinnitusTone_ok now w H) as (e1 & E & Ho & _).
  exists e1. split; [done |].
  assert (Hidem : fade_tone now e1 = e1).
  { revert E. unfold stopTinnitusTone.
    destruct (tinnitusOsc (fade_tone now (engine w))) as [o |].
    - destruct (ctx (fade_tone now (engine w))); [| done].
      destruct (osc_stop (now + 0.6) o); [| done]. simpl. intros [= <-].
      by rewrite set_tinnitusOsc_fade, fade_tone_idem.
    - intros [= <-]. apply fade_tone_idem. }
  split; [by rewrite fade_tone_silent, Hidem |].
  split; [done |]. split.
  - intros later. exists (fade_tone later e1). split; [by apply fade_tone_silent |].
    by destruct (fade_tone_fields later e1) as [-> _].
  - intros Eo Eg. rewrite fade_tone_silent in E by done. injection E as <-.
    unfold fade_tone. by rewrite Eg.
Qed.

Lemma stopTinnitusTone_twice_witness :
  exists w,
    run tone_run world0 = Ok w /\ reachable w /\ is_Some (tinnitusOsc (engine w))
    /\ exists e1,
         stopTinnitusTone 1 (engine w) = Ok e1
         /\ stopTinnitusTone 1 e1 = Ok e1
         /\ tinnitusOsc e1 = None
         /\ (forall later, exists e2,
               stopTinnitusTone later e1 = Ok e2 /\ tinnitusOsc e2 = None)
         /\ (tinnitusOsc (engine w) = None -> tinnitusGain (engine w) = None
             -> e1 = engine w).
Proof.
  eexists. split; [evaluate; reflexivity |].
  match goal with
  | |- reachable ?w /\ _ =>
      assert (Hw : reachable w)
        by (apply (steps_step world0 world0 (StartTinnitusTone 0 4500 0.1));
            [apply steps_refl | exact I | evaluate; reflexivity])
  end.
  split; [exact Hw |]. split; [by eexists |].
  exact (stopTinnitusTone_twice _ 1 Hw).
Defined.

End Claim8.

Section Claim9.

(** C9. In any state of the engine, enabling the drone twice in succession
    is enabling it once: the second [toggleDrone(true)] returns without
    touching the engine, whenever it is called.  When no drone was on, the
    first call builds the one stack of nine nodes, four oscillators among
    them; when one was on or fading in, the first call is a no-op too. *)
Theorem drone_enabled_once (w : World) (now now' : R) :
  reachable w ->
  exists w1,
    toggleDrone now true w = Ok w1
    /\ toggleDrone now' true w1 = Ok w1
    /\ (droneNodes (engine w) = [] ->
        length (droneNodes (engine w1)) = 9%nat
        /\ length (oscillators (droneNodes (engine w1))) = 4%nat)
    /\ (droneNodes (engine w) <> [] -> w1 = w).
Proof.
  intros Hw. pose proof (reachable_inv w Hw) as H.
  destruct (startDrone_ok now w H) as (e1 & E & H1 & Hlen & Hosc).
  exists (set_engine e1 w). unfold toggleDrone. rewrite E. simpl.
  split; [done |].
  assert (Hne : droneNodes e1 <> []).
  { destruct (decide (droneNodes (engine w) = [])) as [Hd | Hd].
    - intros E0. by rewrite E0 in Hlen.
    - rewrite startDrone_playing in E by done. by injection E as <-. }
  split; [| split].
  - rewrite startDrone_playing by done. simpl. by destruct w.
  - intros Hd. rewrite decide_True in Hlen by done. auto.
  - intros Hd. rewrite startDrone_playing in E by done. injection E as <-. by destruct w.
Qed.

Lemma drone_enabled_once_witness :
  reachable world0
  /\ exists w1,
       toggleDrone 0 true world0 = Ok w1
       /\ toggleDrone 1 true w1 = Ok w1
       /\ (droneNodes (engine world0) = [] ->
           length (droneNodes (engine w1)) = 9%nat
           /\ length (oscillators (droneNodes (engine w1))) = 4%nat)
       /\ (droneNodes (engine world0) <> [] -> w1 = world0).
Proof.
  split; [apply steps_refl |].
  exact (drone_enabled_once world0 0 1 (steps_refl world0)).
Defined.

End Claim9.

Section Claim10.

(** C10. On an engine with no insect sample, [playInteractionSound] for
    INSECT with any real reference frequency F creates the synthesized
    channel; the frequency of its carrier is F when F > 0 and 6000
    otherwise, so it is positive for every F. *)
Theorem insect_fallback_carrier (w : World) (now rnd F : R) (cb : bool) :
  reachable w -> insectBuffer (engine w) = None ->
  exists w1 carrier modulator modGain mainGain,
    playInteractionSound now rnd INSECT F cb w = Ok (StopFn (length (channels w)), w1)
    /\ channels w1 !! length (channels w)
       = Some (mkChannel INSECT (FM carrier modulator modGain mainGain) cb)
    /\ osc_type carrier = triangle
    /\ events (frequency carrier) = []
    /\ value (frequency carrier) = (if decide (0 < F) then F else 6000)
    /\ 0 < value (frequency carrier).
Proof.
  intros Hw Hb. pose proof (reachable_inv w Hw) as H.
  destruct (playInteractionSound_eq now rnd INSECT F cb w H) as (g & Hg & _ & _ & _ & E).
  assert (Hb' : insectBuffer (started_engine (length (channels w)) INSECT (engine w)) = None).
  { destruct (init_fields (engine w)) as (_ & _ & _ & _ & _ & _ & Hbuf & _).
    specialize (Hbuf INSECT). simpl in Hbuf. unfold started_engine. simpl. congruence. }
  assert (exists carrier modulator modGain mainGain,
            g = FM carrier modulator modGain mainGain
            /\ osc_type carrier = triangle
            /\ events (frequency carrier) = []
            /\ value (frequency carrier) = (if decide (0 < F) then F else 6000))
    as (carrier & modulator & modGain & mainGain & -> & Hty & Hev & Hval).
  { revert Hg. unfold build_graph, createSource.
    rewrite started_engine_ctx, Hb'. simpl. intros [= <-].
    by eexists _, _, _, _. }
  exists (started_world now INSECT (FM carrier modulator modGain mainGain) cb w),
    carrier, modulator, modGain, mainGain.
  split; [done |]. split; [apply started_world_new_channel |].
  split; [done |]. split; [done |]. split; [done |].
  rewrite Hval. destruct (decide (0 < F)); lra.
Qed.

Lemma insect_fallback_carrier_witness :
  reachable world0 /\ insectBuffer (engine world0) = None
  /\ exists w1 carrier modulator modGain mainGain,
       playInteractionSound 0 0 INSECT (-440) false world0
       = Ok (StopFn (length (channels world0)), w1)
       /\ channels w1 !! length (channels world0)
          = Some (mkChannel INSECT (FM carrier modulator modGain mainGain) false)
       /\ osc_type carrier = triangle
       /\ events (frequency carrier) = []
       /\ value (frequency carrier) = (if decide (0 < -440) then -440 else 6000)
       /\ 0 < value (frequency carrier).
Proof.
  split; [apply steps_refl |]. split; [reflexivity |].
  exact (insect_fallback_carrier world0 0 0 (-440) false (steps_refl world0) eq_refl).
Defined.

End Claim10.

Import WebAudio Engine Kept.

Section KeptFrames.

Lemma same_call_refl c : same_call c c.
Proof. by repeat split. Qed.

Lemma same_call_trans c1 c2 c3 : same_call c1 c2 -> same_call c2 c3 -> same_call c1 c3.
Proof.
  intros (? & ? & ? & ?) (? & ? & ? & ?). repeat split; try congruence. auto.
Qed.

Lemma same_call_on_gain f c : same_call c (on_ch_gain f c).
Proof.
  repeat split; simpl.
  - by destruct (ch_graph c).
  - unfold over. simpl. by rewrite graph_scheds_on_gain.
Qed.

Lemma chan_keep_eq w w' : channels w' = channels w -> chan_keep w w'.
Proof. intros E k c Hk. exists c. rewrite E. split; [done | apply same_call_refl]. Qed.

Lemma chan_keep_trans w1 w2 w3 : chan_keep w1 w2 -> chan_keep w2 w3 -> chan_keep w1 w3.
Proof.
  intros H12 H23 k c Hk. destruct (H12 k c Hk) as (c' & Hk' & Hs).
  destruct (H23 k c' Hk') as (c'' & Hk'' & Hs'). exists c''.
  split; [done | by eapply same_call_trans].
Qed.

Lemma chan_keep_alter f k w w' :
  (forall c, same_call c (f c)) ->
  channels w' = alter f k (channels w) -> chan_keep w w'.
Proof.
  intros Hf E j c Hj. rewrite E. destruct (decide (k = j)) as [-> | Hne].
  - rewrite list_lookup_alter_eq, Hj. simpl. eauto.
  - rewrite list_lookup_alter_ne by done. exists c. split; [done | apply same_call_refl].
Qed.

Lemma chan_keep_updateRain now w : chan_keep w (updateRainDynamics now w).
Proof.
  unfold updateRainDynamics.
  destruct (rainGainNode (engine w)) as [r |]; [| by apply chan_keep_eq].
  destruct (ctx (engine w)); [| by apply chan_keep_eq].
  eapply chan_keep_alter; [| reflexivity]. intros c. apply same_call_on_gain.
Qed.

(** The channels other than the RAIN gain are untouched by the ducking. *)
Lemma updateRain_audible now w k c :
  channels w !! k = Some c -> audible c ->
  exists c', channels (updateRainDynamics now w) !! k = Some c' /\ same_call c c' /\ audible c'.
Proof.
  intros Hk Ha. unfold updateRainDynamics.
  destruct (rainGainNode (engine w)) as [r |];
    [| exists c; split; [done | split; [apply same_call_refl | done]]].
  destruct (ctx (engine w));
    [| exists c; split; [done | split; [apply same_call_refl | done]]].
  simpl. destruct (decide (r = k)) as [-> | Hne].
  - rewrite list_lookup_alter_eq, Hk. simpl. eexists. split; [done |].
    split; [apply same_call_on_gain | by apply audible_on_gain].
  - rewrite list_lookup_alter_ne by done.
    exists c; split; [done | split; [apply same_call_refl | done]].
Qed.

End KeptFrames.

Section KeptEngine.

Lemma kept_engine_kept w : kept w -> engine_kept (engine w).
Proof. intros []. by repeat split. Qed.

Lemma quad_engine_kept e e' : quad e' = quad e -> engine_kept e -> engine_kept e'.
Proof.
  unfold quad, engine_kept. intros E. injection E as -> -> -> ->. done.
Qed.

Lemma init_engine_kept e : engine_kept e -> engine_kept (init e).
Proof.
  intros (Ha & Hm & Hc & Hd & Hn).
  destruct (init_cases e) as [[E ->] | [E ->]]; repeat split; simpl; auto; try done.
  - by intros g [= <-].
  - by intros c [= <-].
  - by intros c [= <-].
Qed.

Lemma stopTinnitusTone_quad now e e' :
  stopTinnitusTone now e = Ok e' -> quad e' = quad e.
Proof.
  unfold stopTinnitusTone, fade_tone. intros E.
  destruct (tinnitusGain e) as [g |], (ctx e) as [c |] eqn:Ec; simpl in E;
    destruct (tinnitusOsc e) as [o |]; simpl in E; rewrite ?Ec in E; simpl in E;
    try (destruct (osc_stop _ o); simpl in E); simplify_eq; done.
Qed.

Lemma startTinnitusTone_quad now frequency vol e e' :
  startTinnitusTone now frequency vol e = Ok e' -> quad e' = quad (init e).
Proof.
  unfold startTinnitusTone. intros E.
  destruct (ctx (init e)) eqn:Ec; [| by simplify_eq].
  destruct (masterGain (init e)) eqn:Em; [| by simplify_eq].
  destruct (tinnitusOsc (init e)) as [o |].
  - destruct (stopTinnitusTone now (init e)) as [e1 |] eqn:E1; [| done]. simpl in E.
    apply stopTinnitusTone_quad in E1. injection E as <-.
    unfold quad in *. simpl. done.
  - simpl in E. injection E as <-. done.
Qed.

Lemma updateTinnitusFreq_quad now frequency e :
  quad (updateTinnitusFreq now frequency e) = quad e.
Proof.
  unfold updateTinnitusFreq. by destruct (tinnitusOsc e), (ctx e).
Qed.

Lemma set_buffer_quad type b e : quad (set_buffer type b e) = quad e.
Proof. by destruct type. Qed.

Lemma startAmbientTrack_kept F e : engine_kept e -> engine_kept (startAmbientTrack F e).
Proof.
  intros H. apply init_engine_kept in H. unfold startAmbientTrack.
  destruct (ctx (init e)); [| done]. destruct (masterGain (init e)); [| done].
  destruct (ambientSource (init e)); [| done].
  destruct H as (? & ? & ? & ? & ?). by repeat split.
Qed.

Lemma startDrone_kept now e e' :
  engine_kept e -> startDrone now e = Ok e' -> engine_kept e'.
Proof.
  intros H. unfold startDrone. case_bool_decide as Hl; [by intros [= <-] |].
  apply init_engine_kept in H.
  destruct (ctx (init e)) eqn:Ec; [| by intros [= <-]].
  destruct (masterGain (init e)); [| by intros [= <-]].
  simpl. intros [= <-]. destruct H as (? & ? & ? & ? & ?). repeat split; simpl; auto.
  - right. eexists _, _. split; [reflexivity |]. split; [done |]. split; [done |].
    repeat constructor; simpl; done.
  - by rewrite Ec.
Qed.

(** A step that writes the engine only. *)
Lemma kept_set_engine w e' :
  kept w -> engine_kept e' -> (ctx e' = None -> ctx (engine w) = None) ->
  kept (set_engine e' w).
Proof.
  intros [] (? & ? & ? & ? & ?) ?. constructor; simpl; auto.
Qed.

End KeptEngine.

Section KeptWorld.

(** A step that leaves the timers and the notifications alone. *)
Lemma kept_channels w w' :
  kept w -> engine_kept (engine w') -> (ctx (engine w') = None -> ctx (engine w) = None) ->
  timers w' = timers w -> next_timer w' = next_timer w -> notified w' = notified w ->
  (forall k c, channels w !! k = Some c ->
     exists c', channels w' !! k = Some c' /\ same_call c c'
       /\ ((exists tm, tm ∈ timers w /\ timer_cb tm = ChirpDone k) -> audible c -> audible c')) ->
  kept w'.
Proof.
  intros [] (? & ? & ? & ? & ?) Hctx Et En Eno Hch.
  constructor; rewrite ?Et, ?En, ?Eno; try done; auto.
  - intros tm k Htm Hcb. destruct (kept_chirp0 tm k Htm Hcb) as (c & Hk & Hty & Hfm & Ha).
    destruct (Hch k c Hk) as (c' & Hk' & (Hty' & _ & Hfm' & _) & Ha').
    exists c'. split; [done |]. split; [congruence |]. split; [congruence | eauto].
  - intros k Hk. destruct (kept_notified0 k Hk) as (c & Hc & Hty & Hon & Hov).
    destruct (Hch k c Hc) as (c' & Hk' & (Hty' & Hon' & _ & Hov') & _).
    exists c'. split; [done |]. split; [congruence |]. split; [congruence | auto].
Qed.

Lemma kept_on_engine f w :
  kept w -> engine_kept (f (engine w)) -> (ctx (f (engine w)) = None -> ctx (engine w) = None) ->
  kept (on_engine f w).
Proof. intros. by apply kept_set_engine. Qed.

Lemma kept_updateRain now w : kept w -> kept (updateRainDynamics now w).
Proof.
  intros H. apply (kept_channels w); try done.
  - rewrite updateRain_engine. by apply kept_engine_kept.
  - by rewrite updateRain_engine.
  - apply updateRain_timers.
  - apply updateRain_next_timer.
  - unfold updateRainDynamics.
    by destruct (rainGainNode (engine w)), (ctx (engine w)).
  - intros k c Hk. destruct (decide (audible c)) as [Ha | Hna].
    + destruct (updateRain_audible now w k c Hk Ha) as (c' & ? & ? & ?). eauto.
    + destruct (chan_keep_updateRain now w k c Hk) as (c' & ? & ?). exists c'.
      split; [done |]. split; [done |]. by intros _ ?.
Qed.

Lemma kept_setTimeout cb ms w :
  kept w ->
  (forall k, cb = ChirpDone k ->
     (exists c, channels w !! k = Some c /\ ch_type c = BIRD
                /\ is_FM (ch_graph c) = true /\ audible c)
     /\ forall tm, tm ∈ timers w -> timer_cb tm <> ChirpDone k) ->
  (cb = PianoTick -> 2000 <= ms < 5000) ->
  ctx (engine w) <> None ->
  kept (snd (setTimeout cb ms w)).
Proof.
  intros [] Hcb Hms Hctx. constructor; simpl; try done.
  - apply Forall_app. split.
    + eapply Forall_impl; [exact kept_fresh0 |]. simpl. lia.
    + constructor; [simpl; lia | constructor].
  - rewrite fmap_app. apply NoDup_app. split; [done |]. split.
    + intros x Hx. simpl. intros Hin. apply list_elem_of_singleton in Hin. subst x.
      apply list_elem_of_fmap in Hx as (tm & E & Htm).
      rewrite Forall_forall in kept_fresh0. specialize (kept_fresh0 tm Htm). lia.
    + simpl. apply NoDup_singleton.
  - apply Forall_app. split; [done |]. constructor; [| constructor]. simpl.
    unfold is_piano_tick. simpl. destruct cb; try done. auto.
  - intros tm k Htm E. apply elem_of_app in Htm as [Htm | Htm]; [eauto |].
    apply list_elem_of_singleton in Htm. subst tm. simpl in E.
    by destruct (Hcb k E).
  - intros tm tm' k Htm Htm' E E'.
    apply elem_of_app in Htm as [Htm | Htm]; apply elem_of_app in Htm' as [Htm' | Htm'].
    + eauto.
    + apply list_elem_of_singleton in Htm'. subst tm'. simpl in E'.
      destruct (Hcb k E') as [_ Hno]. by destruct (Hno tm Htm).
    + apply list_elem_of_singleton in Htm. subst tm. simpl in E.
      destruct (Hcb k E) as [_ Hno]. by destruct (Hno tm' Htm').
    + apply list_elem_of_singleton in Htm, Htm'. by subst.
Qed.

Lemma kept_clearTimeout id w : kept w -> kept (clearTimeout id w).
Proof.
  intros []. constructor; simpl; try done.
  - intros E. by rewrite kept_ctx_timers0.
  - apply Forall_forall. intros tm Htm. apply list_elem_of_filter in Htm as [_ Htm].
    rewrite Forall_forall in kept_fresh0. auto.
  - eapply sublist_NoDup; [exact kept_ids0 |]. apply fmap_sublist, sublist_filter.
  - apply Forall_forall. intros tm Htm. apply list_elem_of_filter in Htm as [_ Htm].
    rewrite Forall_forall in kept_delay0. auto.
  - intros tm k Htm. apply list_elem_of_filter in Htm as [_ Htm]. eauto.
  - intros tm tm' k Htm Htm'.
    apply list_elem_of_filter in Htm as [_ Htm]. apply list_elem_of_filter in Htm' as [_ Htm'].
    eauto.
Qed.

Lemma kept_set_notes v w : kept w -> kept (set_notes v w).
Proof. intros []. by constructor. Qed.

End KeptWorld.

Section KeptSteps.

Lemma over_not_audible c : over c -> audible c -> False.
Proof.
  unfold over, audible. destruct (ch_graph c) as [? ? | ? ? [[? ?] |] ? | ? ? ? ?]; simpl;
    intros Ho Ha; apply Forall_cons in Ho as [Ho _]; apply Forall_cons in Ha as [Ha _];
    congruence.
Qed.

Lemma same_playback_same_call c g :
  same_playback (ch_graph c) g ->
  same_call c (with_graph g c) /\ (audible c -> audible (with_graph g c)).
Proof.
  intros [Hs Hshape]. split.
  - repeat split; simpl.
    + destruct (ch_graph c), g; done.
    + unfold over. simpl. intros Ho.
      induction Hs as [| s s' l l' [_ He] _ IH]; [constructor |].
      apply Forall_cons in Ho as [Ho1 Ho2]. constructor; [congruence | auto].
  - unfold audible. simpl. intros Ha.
    induction Hs as [| s s' l l' [_ He] _ IH]; [constructor |].
    apply Forall_cons in Ha as [Ha1 Ha2]. constructor; [congruence | auto].
Qed.

Lemma kept_started_world now type g cb w :
  kept w -> playing (mkChannel type g cb) ->
  kept (started_world now type g cb w).
Proof.
  intros H Hpl. unfold started_world.
  set (w0 := updateRainDynamics now _).
  assert (H0 : kept w0).
  { apply kept_updateRain, kept_on_engine; [apply kept_on_engine; [done | |] | |].
    - by apply init_engine_kept, kept_engine_kept.
    - by rewrite init_ctx.
    - simpl. eapply quad_engine_kept; [| by apply init_engine_kept, kept_engine_kept]. done.
    - simpl. by rewrite init_ctx. }
  assert (C0 : ctx (engine w0) <> None).
  { subst w0. rewrite updateRain_engine. simpl. by rewrite init_ctx. }
  assert (L0 : length (channels w0) = length (channels w))
    by (subst w0; by rewrite updateRain_length).
  set (w1 := match type with RAIN => _ | _ => w0 end).
  assert (H1 : kept w1 /\ channels w1 = channels w0 /\ timers w1 = timers w0
               /\ ctx (engine w1) <> None).
  { subst w1. destruct type; try done.
    split; [| done]. apply kept_on_engine; [done | | done].
    eapply quad_engine_kept; [| by apply kept_engine_kept]. done. }
  destruct H1 as (H1 & Ec1 & Et1 & C1).
  set (w2 := set_channels _ w1).
  assert (H2 : kept w2).
  { apply (kept_channels w1); try done.
    - exact (kept_engine_kept w1 H1).
    - intros k c Hk. exists c. simpl. split; [by apply lookup_app_l_Some |].
      split; [apply same_call_refl | auto]. }
  assert (Hno : forall tm, tm ∈ timers w2 -> timer_cb tm <> ChirpDone (length (channels w))).
  { intros tm Htm E. destruct (kept_chirp w1 H1 tm _ Htm E) as (c & Hk & _).
    apply lookup_lt_Some in Hk. rewrite Ec1, L0 in Hk. lia. }
  assert (Hnew : channels w2 !! length (channels w) = Some (mkChannel type g cb)).
  { subst w2. simpl. rewrite Ec1, lookup_app_r by lia. by rewrite L0, Nat.sub_diag. }
  destruct type; try done. destruct g as [? ? | ? ? ? ? | ? ? ? ?]; try done.
  apply kept_setTimeout; [done | | done | exact C1]. intros k [= <-]. split; [| done].
  eexists. split; [exact Hnew |]. split; [done |]. split; [done |]. by destruct Hpl.
Qed.

Lemma kept_stopped_world k now w c g :
  kept w -> channels w !! k = Some c -> same_playback (ch_graph c) g ->
  kept (stopped_world k now w c g).
Proof.
  intros H Hk Hsp. unfold stopped_world.
  apply kept_updateRain, kept_on_engine.
  - apply (kept_channels w); try done.
    + simpl. destruct (decide (ch_type c = RAIN)); [| by apply kept_engine_kept].
      eapply quad_engine_kept; [| by apply kept_engine_kept]. done.
    + simpl. by destruct (decide (ch_type c = RAIN)).
    + intros j cj Hj. simpl. destruct (decide (j = k)) as [-> | Hne].
      * rewrite list_lookup_insert_eq by (by eapply lookup_lt_Some).
        rewrite Hk in Hj. injection Hj as <-.
        destruct (same_playback_same_call c g Hsp). eexists. split; [done |]. split; auto.
      * rewrite list_lookup_insert_ne by done. exists cj.
        split; [done |]. split; [apply same_call_refl | auto].
  - simpl. destruct (decide (ch_type c = RAIN)); simpl.
    + eapply quad_engine_kept; [| by apply kept_engine_kept]. done.
    + eapply quad_engine_kept; [| by apply kept_engine_kept]. done.
  - simpl. by destruct (decide (ch_type c = RAIN)).
Qed.

Lemma graph_end_over c : over (with_graph (graph_end (ch_graph c)) c).
Proof.
  unfold over. simpl.
  destruct (ch_graph c) as [? ? | ? ? [[? ?] |] ? | ? ? ? ?]; simpl; repeat constructor.
Qed.

Lemma kept_mark_ended k w :
  kept w -> (forall tm, tm ∈ timers w -> timer_cb tm <> ChirpDone k) ->
  kept (mark_ended k w).
Proof.
  intros H Hno. apply (kept_channels w); try done.
  - exact (kept_engine_kept w H).
  - intros j cj Hj. simpl. destruct (decide (k = j)) as [-> | Hne].
    + rewrite list_lookup_alter_eq, Hj. simpl. eexists. split; [done |]. split.
      * repeat split; simpl; [by destruct (ch_graph cj) | intros _; apply graph_end_over].
      * intros (tm & Htm & E). by destruct (Hno tm Htm).
    + rewrite list_lookup_alter_ne by done. exists cj.
      split; [done |]. split; [apply same_call_refl | auto].
Qed.

Lemma kept_natural_end k now w c :
  kept w -> channels w !! k = Some c -> ch_type c = BIRD -> over c -> k ∉ notified w ->
  kept (natural_end k now w).
Proof.
  intros H Hk Hty Hov Hnot. unfold natural_end. rewrite Hk.
  set (w1 := updateRainDynamics now _).
  assert (H1 : kept w1).
  { apply kept_updateRain, kept_on_engine; [done | | done].
    eapply quad_engine_kept; [| by apply kept_engine_kept]. done. }
  destruct (ch_onEnded c) eqn:Eon; [| done].
  assert (Eno : notified w1 = notified w).
  { subst w1. unfold updateRainDynamics. simpl.
    by destruct (rainGainNode (engine w)), (ctx (engine w)). }
  destruct (chan_keep_updateRain now
              (on_engine (fun e => set_activeSounds (activeSounds e ∖ {[ch_type c]}) e) w)
              k c Hk) as (c' & Hk' & Hty' & Hon' & _ & Hov').
  fold w1 in Hk'.
  destruct H1. constructor; try done; simpl.
  - intros j Hj. apply elem_of_app in Hj as [Hj | Hj]; [eauto |].
    apply list_elem_of_singleton in Hj. subst j. exists c'.
    split; [done |]. split; [congruence |]. split; [congruence | auto].
  - apply NoDup_app. split; [done |]. split; [| apply NoDup_singleton].
    intros j Hj Hin. apply list_elem_of_singleton in Hin. subst j. by rewrite Eno in Hj.
Qed.

Lemma kept_playNextPianoNote now rnd w w' :
  kept w -> randoms_ok rnd -> playNextPianoNote now rnd w = Ok w' -> kept w'.
Proof.
  intros H (_ & _ & _ & [Hd1 Hd2]). unfold playNextPianoNote.
  destruct (ctx (engine w)) eqn:Ec; [| by intros [= <-]].
  destruct (masterGain (engine w)); [| by intros [= <-]].
  destruct (Math_floor _); try done.
  all: destruct (scale !! _); try done; simpl; intros [= <-].
  all: apply kept_on_engine;
    [| simpl; eapply quad_engine_kept; [| by apply kept_engine_kept]; done | done].
  all: match goal with
       | |- kept (set_next_timer _ (set_timers _ ?w0)) =>
           apply (kept_setTimeout PianoTick (2000 + rnd_delay rnd * 3000) w0);
             [by apply kept_set_notes | done | intros _; lra | simpl; by rewrite Ec]
       end.
Qed.

Lemma kept_stopDrone now w : kept w -> kept (stopDrone now w).
Proof.
  intros H. unfold stopDrone.
  destruct (droneNodes (engine w)) as [| master rest]; [done |].
  destruct (ctx (engine w)) eqn:Ec; [| done].
  apply kept_on_engine.
  - destruct master; simpl; try done. apply kept_setTimeout; try done. by rewrite Ec.
  - assert (He : forall w1, engine w1 = engine w -> engine_kept (set_droneNodes [] (engine w1))).
    { intros w1 ->. destruct (kept_engine_kept w H) as (? & ? & ? & ? & ?).
      repeat split; simpl; auto. by left. }
    apply He. by destruct master.
  - assert (He : forall w1, engine w1 = engine w -> ctx (engine w1) <> None).
    { intros w1 ->. by rewrite Ec. }
    intros E. exfalso. simpl in E. revert E. apply He. by destruct master.
Qed.

End KeptSteps.

Section KeptRuns.

Lemma may_end_not_over c : may_end c -> over c -> False.
Proof. intros [Ha _] Ho. by eapply over_not_audible. Qed.

Lemma kept_timer_fires id now rnd w w' :
  inv w -> kept w -> randoms_ok rnd -> timer_fires id now rnd w = Ok w' -> kept w'.
Proof.
  intros Hi H Hr. unfold timer_fires.
  destruct (find_timer id w) as [tm |] eqn:Ef; [| by intros [= <-]].
  apply find_timer_Some in Ef as [Htm Eid].
  pose proof (kept_clearTimeout id w H) as H1.
  destruct (timer_cb tm) as [| k | l] eqn:Ecb; simpl.
  - by apply kept_playNextPianoNote.
  - intros [= <-].
    destruct (kept_chirp w H tm k Htm Ecb) as (c & Hk & Hty & Hfm & Ha).
    assert (Hno : forall tm', tm' ∈ timers (clearTimeout id w) -> timer_cb tm' <> ChirpDone k).
    { intros tm' Htm' E. simpl in Htm'. apply list_elem_of_filter in Htm' as [Hne Htm'].
      pose proof (kept_chirps w H tm tm' k Htm Htm' Ecb E). congruence. }
    apply (kept_natural_end k now _ (with_graph (graph_end (ch_graph c)) c)).
    + by apply kept_mark_ended.
    + simpl. by rewrite list_lookup_alter_eq, Hk.
    + done.
    + apply graph_end_over.
    + simpl. intros Hin. destruct (kept_notified w H k Hin) as (c0 & Hk0 & _ & _ & Ho).
      rewrite Hk in Hk0. injection Hk0 as <-. by eapply over_not_audible.
  - by intros [= <-].
Qed.

Lemma kept_playback_ends k now w c :
  kept w -> channels w !! k = Some c -> may_end c -> kept (playback_ends k now w).
Proof.
  intros H Hk Hme. unfold playback_ends. rewrite Hk.
  assert (Hno : forall tm, tm ∈ timers w -> timer_cb tm <> ChirpDone k).
  { intros tm Htm E. destruct (kept_chirp w H tm k Htm E) as (c0 & Hk0 & Hty & Hfm & _).
    rewrite Hk in Hk0. injection Hk0 as <-. destruct Hme as [_ Hme].
    destruct (ch_graph c); try done. by destruct Hme. }
  pose proof (kept_mark_ended k w H Hno) as H1.
  destruct (has_onended c) eqn:Eh; [| done].
  apply (kept_natural_end k now _ (with_graph (graph_end (ch_graph c)) c)).
  - done.
  - simpl. by rewrite list_lookup_alter_eq, Hk.
  - simpl. unfold has_onended in Eh. by destruct (ch_type c).
  - apply graph_end_over.
  - simpl. intros Hin. destruct (kept_notified w H k Hin) as (c0 & Hk0 & _ & _ & Ho).
    rewrite Hk in Hk0. injection Hk0 as <-. by eapply may_end_not_over.
Qed.

Lemma exec_kept op w w' :
  inv w -> kept w -> enabled op w -> exec op w = Ok w' -> kept w'.
Proof.
  intros Hi H Hen Hex. pose proof (kept_engine_kept w H) as He.
  assert (Hinit : forall e, ctx (init e) = None -> ctx e = None)
    by (intros e E; by rewrite init_ctx in E).
  assert (Hq : forall e e', quad e' = quad e -> ctx e' = None -> ctx e = None)
    by (intros e e' [= _ _ -> _]; done).
  destruct op as [| ty b | t f v | t f | t | F | t sp | t rnd sp | t rnd ty F cb
                 | k t | id t rnd | k t | i]; simpl in *.
  - injection Hex as <-. apply kept_on_engine; [done | by apply init_engine_kept | auto].
  - injection Hex as <-. apply kept_on_engine; [done | |].
    + eapply quad_engine_kept; [apply set_buffer_quad | done].
    + apply Hq, set_buffer_quad.
  - destruct (startTinnitusTone _ _ _ _) as [e' |] eqn:E; [| done]. injection Hex as <-.
    apply startTinnitusTone_quad in E.
    apply kept_set_engine; [done | |].
    + eapply quad_engine_kept; [exact E | by apply init_engine_kept].
    + intros E'. apply Hinit. by eapply Hq.
  - injection Hex as <-. apply kept_on_engine; [done | |].
    + eapply quad_engine_kept; [apply updateTinnitusFreq_quad | done].
    + apply Hq, updateTinnitusFreq_quad.
  - destruct (stopTinnitusTone _ _) as [e' |] eqn:E; [| done]. injection Hex as <-.
    apply stopTinnitusTone_quad in E.
    apply kept_set_engine; [done | |].
    + eapply quad_engine_kept; [exact E | done].
    + by apply Hq.
  - injection Hex as <-. apply kept_on_engine; [done | by apply startAmbientTrack_kept |].
    unfold startAmbientTrack. rewrite init_ctx.
    destruct (masterGain (init (engine w))), (ambientSource (init (engine w)));
      simpl; by rewrite init_ctx.
  - unfold toggleDrone in Hex. destruct sp.
    + destruct (startDrone _ _) as [e' |] eqn:E; [| done]. injection Hex as <-.
      apply kept_set_engine; [done | by eapply startDrone_kept |].
      revert E. unfold startDrone. case_bool_decide; [by intros [= <-] |].
      rewrite init_ctx. destruct (masterGain (init (engine w))); intros [= <-]; simpl;
        by rewrite init_ctx.
    + injection Hex as <-. by apply kept_stopDrone.
  - unfold togglePiano, startPiano, stopPiano in Hex. destruct sp.
    + destruct (truthy _); [by injection Hex as <- |].
      eapply kept_playNextPianoNote; [| exact Hen | exact Hex].
      apply kept_on_engine; [done | by apply init_engine_kept | auto].
    + injection Hex as <-. destruct (truthy _); [| done].
      destruct (pianoTimeout _); [| done].
      apply kept_on_engine; [by apply kept_clearTimeout | | done].
      eapply quad_engine_kept; [| exact He]. done.
  - destruct (playInteractionSound_eq t rnd ty F cb w Hi) as (g & _ & _ & Hpl & _ & E).
    rewrite E in Hex. injection Hex as <-. by apply kept_started_world.
  - destruct (lookup_lt_is_Some_2 _ _ Hen) as [c Hk].
    destruct (stopFn_eq w k c Hi Hk t) as (g & _ & Hsp & E).
    rewrite E in Hex. injection Hex as <-. by apply kept_stopped_world.
  - destruct Hen as [Hr _]. by eapply kept_timer_fires.
  - injection Hex as <-. destruct Hen as (c & Hk & Hme). by eapply kept_playback_ends.
  - injection Hex as <-. by apply kept_set_notes.
Qed.

Lemma kept_world0 : kept world0.
Proof.
  constructor; simpl; try done.
  - by left.
  - constructor.
  - intros tm k Htm. by apply elem_of_nil in Htm.
  - intros tm tm' k Htm. by apply elem_of_nil in Htm.
  - intros k Hk. by apply elem_of_nil in Hk.
  - constructor.
Qed.

Lemma find_timer_elem w tm :
  kept w -> tm ∈ timers w -> find_timer (timer_id tm) w = Some tm.
Proof.
  intros H. pose proof (kept_ids w H) as Hnd. unfold find_timer.
  induction (timers w) as [| x l IH]; intros Htm; [by apply elem_of_nil in Htm |].
  rewrite fmap_cons in Hnd. apply NoDup_cons in Hnd as [Hx Hnd].
  rewrite filter_cons. destruct (decide (timer_id x = timer_id tm)) as [E | Hne].
  - simpl. f_equal. apply elem_of_cons in Htm as [-> | Htm]; [done |].
    exfalso. apply Hx. rewrite E. by apply list_elem_of_fmap_2.
  - apply elem_of_cons in Htm as [-> | Htm]; [done |]. auto.
Qed.

Lemma steps_kept w w' : inv w -> kept w -> steps w w' -> kept w'.
Proof.
  intros Hi H Hs. induction Hs as [| w w1 op w2 Hs IH Hen Hex]; [done |].
  eapply exec_kept; [| by apply IH | done | done]. by eapply steps_inv.
Qed.

Lemma reachable_kept w : reachable w -> kept w.
Proof. apply steps_kept; [apply inv_world0 | apply kept_world0]. Qed.

End KeptRuns.

Import WebAudio Engine Kept OneShot.

Ltac evaluate_in H :=
  lazy -[Rlt_dec Req_dec_T IZR Rplus Rminus Rmult Rdiv Rinv Ropp sqrt Rmax Rmin Rlt] in H.

Section Context_.

Lemma init_noop e :
  engine_kept e -> ctx e <> None -> init e = e.
Proof.
  intros (_ & _ & Hr & _) Hc. destruct (init_cases e) as [[E _] | [_ ->]]; [done |].
  destruct (ctx e) as [[st] |] eqn:Ec; [| done].
  specialize (Hr _ eq_refl). simpl in Hr. subst st. rewrite <- Ec. by destruct e.
Qed.

(** X1. [init] sets the engine up once.  In every state of a run, a second
    [init] changes nothing after a first; once the context exists [init]
    changes nothing at all: no second context, no new master gain. *)
Theorem init_once (w : World) :
  reachable w ->
  init (init (engine w)) = init (engine w)
  /\ (ctx (engine w) <> None -> init (engine w) = engine w).
Proof.
  intros Hw. pose proof (kept_engine_kept w (reachable_kept w Hw)) as He. split.
  - apply init_noop; [by apply init_engine_kept | by rewrite init_ctx].
  - by apply init_noop.
Qed.

Lemma reachable_init : reachable (on_engine init world0).
Proof.
  apply (steps_step world0 world0 Init); [apply steps_refl | exact I | reflexivity].
Qed.

Lemma init_once_witness :
  reachable (on_engine init world0)
  /\ init (init (engine (on_engine init world0))) = init (engine (on_engine init world0))
  /\ (ctx (engine (on_engine init world0)) <> None ->
      init (engine (on_engine init world0)) = engine (on_engine init world0)).
Proof.
  split; [exact reachable_init |].
  exact (init_once _ reachable_init).
Defined.

(** X2. No operation touches the master gain: in every state of a run in
    which the context exists, the master gain is the node [init] created,
    its value 0.5 and nothing scheduled on it. *)
Theorem masterGain_untouched (w : World) :
  reachable w -> ctx (engine w) <> None ->
  exists g, masterGain (engine w) = Some g /\ value (gain g) = 0.5 /\ events (gain g) = [].
Proof.
  intros Hw Hc. pose proof (inv_master w (reachable_inv w Hw) Hc) as Hm.
  destruct (masterGain (engine w)) as [g |] eqn:Eg; [| done].
  exists g. split; [done |].
  by rewrite (kept_master w (reachable_kept w Hw) g Eg).
Qed.

Lemma masterGain_untouched_witness :
  reachable (on_engine init world0) /\ ctx (engine (on_engine init world0)) <> None
  /\ exists g, masterGain (engine (on_engine init world0)) = Some g
               /\ value (gain g) = 0.5 /\ events (gain g) = [].
Proof.
  assert (Hc : ctx (engine (on_engine init world0)) <> None) by done.
  split; [exact reachable_init |]. split; [exact Hc |].
  exact (masterGain_untouched _ reachable_init Hc).
Defined.

(** X3. [startAmbientTrack] starts nothing: in every state of a run it does
    what [init] does, whatever frequency it is given, and once the context
    exists it leaves the engine as it is.  ([ambientSource] is never
    assigned a source, so there is none to stop.) *)
Theorem startAmbientTrack_is_init (w : World) (tinnitusFreq : R) :
  reachable w ->
  ambientSource (engine w) = None
  /\ startAmbientTrack tinnitusFreq (engine w) = init (engine w)
  /\ (ctx (engine w) <> None -> startAmbientTrack tinnitusFreq (engine w) = engine w).
Proof.
  intros Hw. pose proof (reachable_kept w Hw) as Hk.
  pose proof (kept_engine_kept w Hk) as He.
  assert (E : startAmbientTrack tinnitusFreq (engine w) = init (engine w)).
  { unfold startAmbientTrack.
    destruct (init_fields (engine w)) as (_ & _ & _ & _ & _ & _ & _ & Ea).
    rewrite Ea, (kept_ambient w Hk).
    by destruct (ctx (init (engine w))), (masterGain (init (engine w))). }
  split; [exact (kept_ambient w Hk) |]. split; [done |].
  intros Hc. rewrite E. by apply init_noop.
Qed.

Lemma startAmbientTrack_is_init_witness :
  reachable (on_engine init world0)
  /\ ambientSource (engine (on_engine init world0)) = None
  /\ startAmbientTrack 4500 (engine (on_engine init world0))
     = init (engine (on_engine init world0))
  /\ (ctx (engine (on_engine init world0)) <> None ->
      startAmbientTrack 4500 (engine (on_engine init world0))
      = engine (on_engine init world0)).
Proof.
  split; [exact reachable_init |].
  exact (startAmbientTrack_is_init _ 4500 reachable_init).
Defined.

End Context_.

Section Notifications.


End Notifications.

Section OneShots.

Lemma natural_end_bird k now w c :
  ctx (engine w) <> None ->
  (forall r, rainGainNode (engine w) = Some r -> is_Some (channels w !! r)) ->
  channels w !! k = Some c -> ch_type c = BIRD -> over c ->
  activeSounds (engine (natural_end k now w)) = activeSounds (engine w) ∖ {[BIRD]}
  /\ notified (natural_end k now w) = notified w ++ (if ch_onEnded c then [k] else [])
  /\ (exists c', channels (natural_end k now w) !! k = Some c' /\ over c')
  /\ (forall r, rainGainNode (engine (natural_end k now w)) = Some r ->
        rain_target (natural_end k now w)
        = Some (if othersPlaying (engine (natural_end k now w)) then 0.05 else 0.15)).
Proof.
  intros Hc Hr Hk Hty Hov. unfold natural_end. rewrite Hk, Hty.
  set (w0 := on_engine _ w). set (w1 := updateRainDynamics now w0).
  assert (E1 : engine w1 = engine w0) by apply updateRain_engine.
  assert (En : notified w1 = notified w).
  { subst w1 w0. unfold updateRainDynamics. simpl.
    by destruct (rainGainNode (engine w)), (ctx (engine w)). }
  destruct (chan_keep_updateRain now w0 k c Hk) as (c' & Hk' & _ & _ & _ & Hov').
  fold w1 in Hk'.
  assert (Hrain : forall r, rainGainNode (engine w1) = Some r ->
            rain_target w1 = Some (if othersPlaying (engine w1) then 0.05 else 0.15)).
  { intros r Er. rewrite E1 in Er. rewrite E1.
    apply rain_target_updateRain with (r := r); [done | done |].
    subst w0. simpl in *. auto. }
  destruct (ch_onEnded c).
  - split; [simpl; by rewrite E1 |]. split; [simpl; by rewrite En |].
    split; [exists c'; split; [done | auto] |]. exact Hrain.
  - split; [by rewrite E1 |]. split; [by rewrite En, app_nil_r |].
    split; [exists c'; split; [done | auto] |]. exact Hrain.
Qed.

Lemma bird_end_after_mark w k c now w0 :
  inv w -> channels w !! k = Some c -> ch_type c = BIRD ->
  channels w0 = channels w -> engine w0 = engine w -> notified w0 = notified w ->
  bird_ended w k c (natural_end k now (mark_ended k w0)).
Proof.
  intros Hi Hk Hty Ec Ee En. unfold bird_ended. rewrite <- Ee, <- En.
  apply (natural_end_bird k now (mark_ended k w0)
           (with_graph (graph_end (ch_graph c)) c)).
  - simpl. rewrite Ee. by eapply inv_has_ctx.
  - simpl. rewrite Ee, Ec. intros r Er.
    destruct (inv_rain w Hi r Er) as (cr & Hr & _).
    apply lookup_lt_is_Some. rewrite length_alter. by eapply lookup_lt_Some.
  - simpl. by rewrite Ec, list_lookup_alter_eq, Hk.
  - done.
  - apply graph_end_over.
Qed.

Lemma chirp_timer_fires w k c now tm rnd :
  inv w -> kept w -> channels w !! k = Some c -> ch_type c = BIRD ->
  tm ∈ timers w -> timer_cb tm = ChirpDone k ->
  synthesized c = true
  /\ exists w', timer_fires (timer_id tm) now rnd w = Ok w'
                /\ bird_ended w k c w' /\ tm ∉ timers w'.
Proof.
  intros Hi Hkp Hk Hty Htm Ecb.
  destruct (kept_chirp w Hkp tm k Htm Ecb) as (c0 & Hk0 & _ & Hfm & _).
  rewrite Hk in Hk0. injection Hk0 as <-.
  split; [unfold synthesized; by destruct (ch_graph c) |].
  unfold timer_fires. rewrite (find_timer_elem w tm Hkp Htm), Ecb. simpl.
  eexists. split; [done |]. split; [by apply bird_end_after_mark |].
  assert (Et : timers (natural_end k now (mark_ended k (clearTimeout (timer_id tm) w)))
               = timers (clearTimeout (timer_id tm) w)).
  { unfold natural_end. simpl. destruct (alter _ k (channels w) !! k); [| done].
    destruct (ch_onEnded _); simpl; by rewrite updateRain_timers. }
  rewrite Et. simpl. intros Hin. by apply list_elem_of_filter in Hin as [Hne _].
Qed.

(** X5. The end of a one-shot BIRD.  When the sample of a BIRD channel runs
    out ([src.onended]), and when the 500 ms timer of a synthesized BIRD
    chirp fires, BIRD leaves the set of active sounds, the ducking of RAIN
    is evaluated again, and the caller's [onEnded], if one was passed, is
    called for that channel; the timer does not stay pending. *)
Theorem bird_one_shot_ends (w : World) (k : nat) (c : Channel) (now : R) :
  reachable w -> channels w !! k = Some c -> ch_type c = BIRD ->
  (synthesized c = false -> may_end c -> bird_ended w k c (playback_ends k now w))
  /\ (forall tm rnd, tm ∈ timers w -> timer_cb tm = ChirpDone k ->
        synthesized c = true
        /\ exists w', timer_fires (timer_id tm) now rnd w = Ok w'
                      /\ bird_ended w k c w' /\ tm ∉ timers w').
Proof.
  intros Hw Hk Hty. pose proof (reachable_inv w Hw) as Hi.
  pose proof (reachable_kept w Hw) as Hkp.
  split.
  - intros Hs Hme. unfold playback_ends. rewrite Hk.
    assert (Eh : has_onended c = true).
    { unfold has_onended. rewrite Hty. unfold synthesized in Hs. by destruct (ch_graph c). }
    rewrite Eh. by apply bird_end_after_mark.
  - intros tm rnd Htm Ecb. by apply chirp_timer_fires.
Qed.

Lemma started_bird_chirp :
  exists w c, reachable w /\ channels w !! 0%nat = Some c /\ ch_type c = BIRD
              /\ ch_onEnded c = true /\ notified w = []
              /\ mkTimer 1 500 (ChirpDone 0) ∈ timers w.
Proof.
  destruct (playInteractionSound_eq 0 0 BIRD 8000 true world0 inv_world0)
    as (g & Hg & _ & _ & _ & E).
  assert (Hs : reachable (started_world 0 BIRD g true world0)).
  { apply play_step with (rnd := 0) (F := 8000); [unfold unit_interval; lra | done]. }
  exists (started_world 0 BIRD g true world0), (mkChannel BIRD g true).
  split; [done |]. split; [apply (started_world_new_channel 0 BIRD g true world0) |].
  split; [done |]. split; [done |].
  evaluate_in Hg. injection Hg as <-.
  split; [evaluate; reflexivity |].
  evaluate. apply list_elem_of_singleton. reflexivity.
Qed.

Lemma bird_one_shot_ends_witness :
  exists w c,
    reachable w /\ channels w !! 0%nat = Some c /\ ch_type c = BIRD
    /\ (synthesized c = false -> may_end c -> bird_ended w 0 c (playback_ends 0 0.5 w))
    /\ (forall tm rnd, tm ∈ timers w -> timer_cb tm = ChirpDone 0 ->
          synthesized c = true
          /\ exists w', timer_fires (timer_id tm) 0.5 rnd w = Ok w'
                        /\ bird_ended w 0 c w' /\ tm ∉ timers w').
Proof.
  destruct started_bird_chirp as (w & c & Hw & Hk & Hty & _).
  exists w, c. split; [done |]. split; [done |]. split; [done |].
  exact (bird_one_shot_ends w 0 c 0.5 Hw Hk Hty).
Defined.



End OneShots.

Import WebAudio Engine Kept Sequencer.

Section Ticking.

Lemma stopTinnitusTone_pianoTimeout now e e' :
  stopTinnitusTone now e = Ok e' -> pianoTimeout e' = pianoTimeout e.
Proof.
  unfold stopTinnitusTone, fade_tone. intros E.
  destruct (tinnitusGain e) as [g |], (ctx e) as [c |] eqn:Ec; simpl in E;
    destruct (tinnitusOsc e) as [o |]; simpl in E; rewrite ?Ec in E; simpl in E;
    try (destruct (osc_stop _ o); simpl in E); simplify_eq; done.
Qed.

Lemma init_pianoTimeout e : pianoTimeout (init e) = pianoTimeout e.
Proof. by destruct (init_fields e) as (_ & _ & _ & -> & _). Qed.

Lemma startTinnitusTone_pianoTimeout now frequency vol e e' :
  startTinnitusTone now frequency vol e = Ok e' -> pianoTimeout e' = pianoTimeout e.
Proof.
  unfold startTinnitusTone. intros E. rewrite <- (init_pianoTimeout e).
  destruct (ctx (init e)); [| by simplify_eq].
  destruct (masterGain (init e)); [| by simplify_eq].
  destruct (tinnitusOsc (init e)) as [o |].
  - destruct (stopTinnitusTone now (init e)) as [e1 |] eqn:E1; [| done]. simpl in E.
    apply stopTinnitusTone_pianoTimeout in E1. injection E as <-. done.
  - simpl in E. by injection E as <-.
Qed.

Lemma startDrone_pianoTimeout now e e' :
  startDrone now e = Ok e' -> pianoTimeout e' = pianoTimeout e.
Proof.
  unfold startDrone. case_bool_decide; [by intros [= <-] |].
  rewrite <- (init_pianoTimeout e).
  destruct (ctx (init e)); [| by intros [= <-]].
  destruct (masterGain (init e)); by intros [= <-].
Qed.

(** A step that keeps [pianoTimeout] and drops no timer. *)
Lemma ticking_frame w w' :
  ticking w -> pianoTimeout (engine w') = pianoTimeout (engine w) ->
  (forall tm, tm ∈ timers w -> tm ∈ timers w') -> ticking w'.
Proof.
  intros H Ep Ht id Eid. rewrite Ep in Eid.
  destruct (H id Eid) as (tm & ? & ? & ?). exists tm. auto.
Qed.

Lemma ticking_playNextPianoNote now rnd w w' :
  inv w -> randoms_ok rnd -> piano_timers w = [] -> ctx (engine w) <> None ->
  playNextPianoNote now rnd w = Ok w' -> ticking w'.
Proof.
  intros Hi Hr Hp Hc E.
  destruct (playNextPianoNote_ok now rnd w Hi Hr Hp) as (w1 & E1 & _ & Hw1).
  rewrite E in E1. injection E1 as <-.
  destruct (Hw1 Hc) as (ms & Et & Ep). intros id Eid. rewrite Ep in Eid.
  injection Eid as <-. exists (mkTimer (next_timer w) ms PianoTick). split; [| done].
  rewrite Et. apply elem_of_app. right. by apply list_elem_of_singleton.
Qed.

Lemma natural_end_timers k now w : timers (natural_end k now w) = timers w.
Proof.
  unfold natural_end. destruct (channels w !! k) as [c |]; [| done].
  destruct (ch_onEnded c); simpl; by rewrite updateRain_timers.
Qed.

Lemma natural_end_pianoTimeout k now w :
  pianoTimeout (engine (natural_end k now w)) = pianoTimeout (engine w).
Proof.
  unfold natural_end. destruct (channels w !! k) as [c |]; [| done].
  destruct (ch_onEnded c); simpl; by rewrite updateRain_engine.
Qed.

Lemma timer_ids_inj w tm tm' :
  kept w -> tm ∈ timers w -> tm' ∈ timers w -> timer_id tm = timer_id tm' -> tm = tm'.
Proof.
  intros H Htm Htm' E.
  pose proof (find_timer_elem w tm H Htm) as E1.
  pose proof (find_timer_elem w tm' H Htm') as E2.
  rewrite E in E1. congruence.
Qed.

Lemma exec_ticking op w w' :
  inv w -> kept w -> ticking w -> enabled op w -> exec op w = Ok w' -> ticking w'.
Proof.
  intros Hi Hk H Hen Hex.
  destruct op as [| ty b | t f v | t f | t | F | t sp | t rnd sp | t rnd ty F cb
                 | k t | id t rnd | k t | i]; simpl in *.
  - injection Hex as <-. apply (ticking_frame w); [done | apply init_pianoTimeout | done].
  - injection Hex as <-. apply (ticking_frame w); [done | by destruct ty | done].
  - destruct (startTinnitusTone _ _ _ _) as [e' |] eqn:E; [| done]. injection Hex as <-.
    apply (ticking_frame w); [done | by eapply startTinnitusTone_pianoTimeout | done].
  - injection Hex as <-. apply (ticking_frame w); [done | | done].
    simpl. unfold updateTinnitusFreq.
    by destruct (tinnitusOsc (engine w)), (ctx (engine w)).
  - destruct (stopTinnitusTone _ _) as [e' |] eqn:E; [| done]. injection Hex as <-.
    apply (ticking_frame w); [done | by eapply stopTinnitusTone_pianoTimeout | done].
  - injection Hex as <-. apply (ticking_frame w); [done | | done].
    simpl. unfold startAmbientTrack. rewrite <- (init_pianoTimeout (engine w)).
    by destruct (ctx (init (engine w))), (masterGain (init (engine w))),
      (ambientSource (init (engine w))).
  - unfold toggleDrone in Hex. destruct sp.
    + destruct (startDrone _ _) as [e' |] eqn:E; [| done]. injection Hex as <-.
      apply (ticking_frame w); [done | by eapply startDrone_pianoTimeout | done].
    + injection Hex as <-. apply (ticking_frame w); [done | |].
      * unfold stopDrone. destruct (droneNodes (engine w)) as [| [] ?]; [done | ..];
          by destruct (ctx (engine w)).
      * intros tm Htm. unfold stopDrone.
        destruct (droneNodes (engine w)) as [| [] ?]; [done | ..];
          destruct (ctx (engine w)); try done.
        simpl. apply elem_of_app. by left.
  - unfold togglePiano, startPiano, stopPiano in Hex. destruct sp.
    + destruct (truthy (pianoTimeout (engine w))) eqn:Et; [by injection Hex as <- |].
      eapply (ticking_playNextPianoNote t rnd (on_engine init w)); try done.
      * by apply inv_init.
      * pose proof (no_piano_timers w Hi Et). done.
      * simpl. by rewrite init_ctx.
    + injection Hex as <-. destruct (truthy (pianoTimeout (engine w))) eqn:Et; [| done].
      destruct (pianoTimeout (engine w)); [| done]. by intros id' [=].
  - destruct (playInteractionSound_eq t rnd ty F cb w Hi) as (g & _ & _ & _ & _ & E).
    rewrite E in Hex. injection Hex as <-. apply (ticking_frame w); [done | |].
    + rewrite started_world_engine.
      by destruct (started_engine_fields (length (channels w)) ty (engine w))
        as (_ & -> & _).
    + intros tm Htm. destruct (started_world_timers t ty g cb w) as (extra & -> & _).
      apply elem_of_app. by left.
  - destruct (lookup_lt_is_Some_2 _ _ Hen) as [c Hc].
    destruct (stopFn_eq w k c Hi Hc t) as (g & _ & _ & E).
    rewrite E in Hex. injection Hex as <-. apply (ticking_frame w); [done | |].
    + unfold stopped_world. rewrite updateRain_engine. simpl.
      by destruct (decide (ch_type c = RAIN)).
    + intros tm Htm. unfold stopped_world. by rewrite updateRain_timers.
  - destruct Hen as [Hr [tm Ef]]. unfold timer_fires in Hex. rewrite Ef in Hex.
    apply find_timer_Some in Ef as [Htm Eid].
    destruct (timer_cb tm) as [| k | l] eqn:Ecb; simpl in Hex.
    + assert (Hpt : is_piano_tick tm = true) by (unfold is_piano_tick; by rewrite Ecb).
      pose proof (inv_piano w Hi) as Hp. rewrite Forall_forall in Hp.
      assert (Ep : pianoTimeout (engine w) = Some id) by (rewrite <- Eid; auto).
      eapply (ticking_playNextPianoNote t rnd (clearTimeout id w)); try done.
      * by apply inv_clear.
      * apply piano_timers_nil, Forall_forall. intros tm' Htm'.
        simpl in Htm'. apply list_elem_of_filter in Htm' as [Hne Htm'].
        destruct (is_piano_tick tm') eqn:E'; [| done].
        specialize (Hp tm' Htm' E'). congruence.
      * simpl. intros Ec. rewrite (kept_ctx_timers w Hk Ec) in Htm.
        by apply elem_of_nil in Htm.
    + injection Hex as <-. intros id' Eid'.
      rewrite natural_end_pianoTimeout in Eid'. simpl in Eid'.
      destruct (H id' Eid') as (tm' & Htm' & E' & Hpt').
      exists tm'. rewrite natural_end_timers. simpl. split; [| done].
      apply list_elem_of_filter. split; [| done]. intros Eq.
      assert (tm' = tm) by (apply (timer_ids_inj w); [done | done | done | congruence]).
      subst tm'. unfold is_piano_tick in Hpt'. by rewrite Ecb in Hpt'.
    + injection Hex as <-. intros id' Eid'. simpl in Eid'.
      destruct (H id' Eid') as (tm' & Htm' & E' & Hpt').
      exists tm'. simpl. split; [| done].
      apply list_elem_of_filter. split; [| done]. intros Eq.
      assert (tm' = tm) by (apply (timer_ids_inj w); [done | done | done | congruence]).
      subst tm'. unfold is_piano_tick in Hpt'. by rewrite Ecb in Hpt'.
  - injection Hex as <-. apply (ticking_frame w); [done | |].
    + unfold playback_ends. destruct (channels w !! k) as [c |]; [| done].
      destruct (has_onended c); [| done]. by rewrite natural_end_pianoTimeout.
    + intros tm Htm. unfold playback_ends. destruct (channels w !! k) as [c |]; [| done].
      destruct (has_onended c); [| done]. by rewrite natural_end_timers.
  - injection Hex as <-. by apply (ticking_frame w).
Qed.

Lemma reachable_ticking w : reachable w -> ticking w.
Proof.
  intros Hs. unfold reachable in Hs.
  remember world0 as w0 eqn:E0.
  induction Hs as [| w w1 op w2 Hs IH Hen Hex]; [subst; by intros id [=] |].
  subst w. specialize (IH eq_refl).
  eapply exec_ticking; [| | exact IH | done | done].
  - by apply reachable_inv.
  - by apply reachable_kept.
Qed.

End Ticking.

Section SequencerFacts.

Lemma all_same_singleton {A} (l : list A) (a : A) :
  NoDup l -> (forall x, x ∈ l -> x = a) -> a ∈ l -> l = [a].
Proof.
  intros Hnd Hall Ha. destruct l as [| x l]; [by apply elem_of_nil in Ha |].
  assert (x = a) by (apply Hall; by left). subst x. f_equal.
  destruct l as [| y l]; [done |]. exfalso.
  assert (y = a) by (apply Hall; right; by left). subst y.
  apply NoDup_cons in Hnd as [Hn _]. apply Hn. by left.
Qed.

Lemma piano_timers_cases w :
  reachable w ->
  match pianoTimeout (engine w) with
  | Some id => exists ms, piano_timers w = [mkTimer id ms PianoTick] /\ 2000 <= ms < 5000
  | None => piano_timers w = []
  end.
Proof.
  intros Hw. pose proof (reachable_inv w Hw) as Hi. pose proof (reachable_kept w Hw) as Hk.
  destruct (pianoTimeout (engine w)) as [id |] eqn:Ep.
  - destruct (reachable_ticking w Hw id Ep) as (tm & Htm & Eid & Hpt).
    exists (timer_ms tm).
    assert (Etm : tm = mkTimer id (timer_ms tm) PianoTick).
    { destruct tm as [i ms cb]. simpl in *. subst i. unfold is_piano_tick in Hpt.
      simpl in Hpt. by destruct cb. }
    split.
    + rewrite <- Etm. apply all_same_singleton.
      * apply NoDup_filter. eapply NoDup_fmap_1. exact (kept_ids w Hk).
      * intros tm' Htm'. apply list_elem_of_filter in Htm' as [Hpt' Htm'].
        pose proof (inv_piano w Hi) as Hp. rewrite Forall_forall in Hp.
        specialize (Hp tm' Htm' Hpt'). rewrite Ep in Hp. injection Hp as Hp.
        apply (timer_ids_inj w); [done | done | done | congruence].
      * by apply list_elem_of_filter.
    + pose proof (kept_delay w Hk) as Hd. rewrite Forall_forall in Hd. by apply Hd.
  - apply no_piano_timers; [done | by rewrite Ep].
Qed.

(** X6. While the sequencer is enabled exactly one of its callbacks is
    pending, the one [pianoTimeout] names, due between 2 and 5 seconds
    after it was set; while it is disabled none is.  This holds in every
    state of a run: notes never pile up and the sequence never stalls. *)
Theorem sequencer_one_tick_pending (w : World) :
  reachable w ->
  match pianoTimeout (engine w) with
  | Some id => exists ms, piano_timers w = [mkTimer id ms PianoTick] /\ 2000 <= ms < 5000
  | None => piano_timers w = []
  end.
Proof. exact (piano_timers_cases w). Qed.

Lemma piano_started :
  exists w, reachable w /\ pianoTimeout (engine w) = Some 1%nat
            /\ togglePiano 0 randoms0 true world0 = Ok w.
Proof.
  assert (Hr : randoms_ok randoms0) by (repeat split; simpl; lra).
  destruct (playNextPianoNote_ok 0 randoms0 (on_engine init world0)
              (inv_init world0 inv_world0) Hr eq_refl) as (w & E & _ & Hw).
  destruct Hw as (ms & _ & Ep); [done |].
  exists w. split; [| split; [done | exact E]].
  by apply (steps_step world0 world0 (TogglePiano 0 randoms0 true)); [apply steps_refl | |].
Qed.

Lemma sequencer_one_tick_pending_witness :
  exists w,
    reachable w /\ pianoTimeout (engine w) = Some 1%nat
    /\ match pianoTimeout (engine w) with
       | Some id => exists ms, piano_timers w = [mkTimer id ms PianoTick] /\ 2000 <= ms < 5000
       | None => piano_timers w = []
       end.
Proof.
  destruct piano_started as (w & Hw & Ep & _).
  exists w. split; [done |]. split; [done |].
  exact (sequencer_one_tick_pending w Hw).
Defined.

Lemma playNextPianoNote_note now rnd w :
  randoms_ok rnd -> ctx (engine w) <> None -> masterGain (engine w) <> None ->
  exists n,
    playNextPianoNote now rnd w
    = Ok (on_engine (set_pianoTimeout (Some (next_timer w)))
            (snd (setTimeout PianoTick (2000 + rnd_delay rnd * 3000)
                    (set_notes (notes w ++ [n]) w))))
    /\ note_of now rnd n.
Proof.
  intros (Hr & _) Hc Hm. unfold playNextPianoNote.
  destruct (ctx (engine w)); [| done]. destruct (masterGain (engine w)); [| done].
  destruct (floor_scale _ Hr) as (i & freq & -> & Hf).
  assert (Hbody : forall z, Z.to_nat z = i -> (0 <= z)%Z ->
            scale !! Z.to_nat z = Some freq) by (intros z <- _; done).
  assert (Hin : freq ∈ scale) by (by eapply list_elem_of_lookup_2).
  destruct (Z.of_nat i) as [| p | p] eqn:Ez; [| | lia].
  all: rewrite Hbody by lia; simpl.
  all: eexists; split; [reflexivity |].
  all: repeat split; simpl; try done.
  all: unfold insert_event; simpl.
  all: rewrite !decide_False by (simpl; first [lra | intros [? ?]; done]); done.
Qed.

(** X7. One tick of the sequencer.  When the pending callback of the
    sequencer runs, it plays one note and sets the next callback: a triangle
    oscillator on a frequency of the scale, through a lowpass filter with a
    cutoff in [600, 800), its gain rising to a velocity in [0.03, 0.06)
    within 0.1 s and decaying until 4 s, the oscillator stopping at 4.5 s;
    the next callback is due in [2000, 5000) ms and [pianoTimeout] names
    it.  No channel and no active sound changes. *)
Theorem sequencer_tick (w : World) (id : nat) (now : R) (rnd : NoteRandoms) :
  reachable w -> randoms_ok rnd -> pianoTimeout (engine w) = Some id ->
  exists w' n,
    timer_fires id now rnd w = Ok w'
    /\ notes w' = notes w ++ [n] /\ note_of now rnd n
    /\ 0.03 <= 0.03 + rnd_velocity rnd * 0.03 < 0.06
    /\ 600 <= 600 + rnd_filter rnd * 200 < 800
    /\ pianoTimeout (engine w') = Some (next_timer w)
    /\ piano_timers w' = [mkTimer (next_timer w) (2000 + rnd_delay rnd * 3000) PianoTick]
    /\ 2000 <= 2000 + rnd_delay rnd * 3000 < 5000
    /\ channels w' = channels w
    /\ activeSounds (engine w') = activeSounds (engine w).
Proof.
  intros Hw Hr Ep. pose proof (reachable_inv w Hw) as Hi.
  pose proof (reachable_kept w Hw) as Hk.
  destruct (reachable_ticking w Hw id Ep) as (tm & Htm & Eid & Hpt).
  assert (Ecb : timer_cb tm = PianoTick).
  { unfold is_piano_tick in Hpt. by destruct (timer_cb tm). }
  assert (Hc : ctx (engine w) <> None).
  { intros Ec. rewrite (kept_ctx_timers w Hk Ec) in Htm. by apply elem_of_nil in Htm. }
  pose proof (inv_master w Hi Hc) as Hm.
  unfold timer_fires. rewrite <- Eid, (find_timer_elem w tm Hk Htm), Ecb. simpl.
  destruct (playNextPianoNote_note now rnd (clearTimeout (timer_id tm) w) Hr Hc Hm)
    as (n & -> & Hn).
  eexists _, n. split; [reflexivity |]. split; [done |]. split; [done |].
  destruct Hr as (_ & Hv & Hf & Hd). unfold unit_interval in *.
  split; [lra |]. split; [lra |]. split; [done |]. split; [| split; [lra | split; done]].
  unfold piano_timers. simpl. rewrite filter_app.
  assert (Hnone : piano_timers (clearTimeout (timer_id tm) w) = []).
  { apply piano_timers_nil, Forall_forall. intros tm' Htm'.
    simpl in Htm'. apply list_elem_of_filter in Htm' as [Hne Htm'].
    destruct (is_piano_tick tm') eqn:E'; [| done].
    pose proof (inv_piano w Hi) as Hp. rewrite Forall_forall in Hp.
    specialize (Hp tm' Htm' E'). congruence. }
  unfold piano_timers in Hnone. simpl in Hnone. rewrite Hnone. reflexivity.
Qed.

Lemma sequencer_tick_witness :
  exists w,
    reachable w /\ randoms_ok randoms0 /\ pianoTimeout (engine w) = Some 1%nat
    /\ exists w' n,
         timer_fires 1 5 randoms0 w = Ok w'
         /\ notes w' = notes w ++ [n] /\ note_of 5 randoms0 n
         /\ 0.03 <= 0.03 + rnd_velocity randoms0 * 0.03 < 0.06
         /\ 600 <= 600 + rnd_filter randoms0 * 200 < 800
         /\ pianoTimeout (engine w') = Some (next_timer w)
         /\ piano_timers w'
            = [mkTimer (next_timer w) (2000 + rnd_delay randoms0 * 3000) PianoTick]
         /\ 2000 <= 2000 + rnd_delay randoms0 * 3000 < 5000
         /\ channels w' = channels w
         /\ activeSounds (engine w') = activeSounds (engine w).
Proof.
  assert (Hr : randoms_ok randoms0) by (repeat split; simpl; lra).
  destruct piano_started as (w & Hw & Ep & _).
  exists w. split; [done |]. split; [done |]. split; [done |].
  exact (sequencer_tick w 1 5 randoms0 Hw Hr Ep).
Defined.

(** X8. Enabling the sequencer twice is enabling it once: in every state
    of a run the second [togglePiano(true)] changes nothing, and after the
    first exactly one callback of the sequencer is pending; when the
    sequencer was already on, the first call changes nothing either. *)
Theorem sequencer_enabled_once (w : World) (now now' : R) (rnd rnd' : NoteRandoms) :
  reachable w -> randoms_ok rnd ->
  exists w1,
    togglePiano now rnd true w = Ok w1
    /\ togglePiano now' rnd' true w1 = Ok w1
    /\ length (piano_timers w1) = 1%nat
    /\ (pianoTimeout (engine w) <> None -> w1 = w).
Proof.
  intros Hw Hr. pose proof (reachable_inv w Hw) as Hi.
  destruct (startPiano_ok now rnd w Hi Hr) as (w1 & E & _).
  destruct (startPiano_truthy now rnd w w1 Hi Hr E) as [Ht _].
  assert (Hw1 : reachable w1).
  { by apply (steps_step world0 w (TogglePiano now rnd true)). }
  exists w1. split; [done |]. split; [| split].
  - simpl. unfold startPiano. by rewrite Ht.
  - pose proof (piano_timers_cases w1 Hw1) as Hc.
    destruct (pianoTimeout (engine w1)); [| done]. by destruct Hc as (ms & -> & _).
  - intros Hne. unfold startPiano in E.
    destruct (pianoTimeout (engine w)) as [id |] eqn:Ep; [| done].
    destruct id as [| id].
    + exfalso. destruct (reachable_ticking w Hw 0%nat Ep) as (tm & Htm & Eid & _).
      destruct (inv_timer_ids w Hi) as [_ Hid]. rewrite Forall_forall in Hid.
      specialize (Hid tm Htm). lia.
    + simpl in E. by injection E as <-.
Qed.

Lemma sequencer_enabled_once_witness :
  reachable world0 /\ randoms_ok randoms0
  /\ exists w1,
       togglePiano 0 randoms0 true world0 = Ok w1
       /\ togglePiano 1 randoms0 true w1 = Ok w1
       /\ length (piano_timers w1) = 1%nat
       /\ (pianoTimeout (engine world0) <> None -> w1 = world0).
Proof.
  assert (Hr : randoms_ok randoms0) by (repeat split; simpl; lra).
  split; [apply steps_refl |]. split; [done |].
  exact (sequencer_enabled_once world0 0 1 randoms0 randoms0 (steps_refl world0) Hr).
Defined.

End SequencerFacts.

Import WebAudio Engine Kept.

Section Tone.

Lemma startTinnitusTone_eq now frequency vol w :
  inv w ->
  exists e2,
    match tinnitusOsc (init (engine w)) with
    | Some _ => stopTinnitusTone now (init (engine w))
    | None => Ok (init (engine w))
    end = Ok e2
    /\ startTinnitusTone now frequency vol (engine w)
       = Ok (set_tinnitusGain
               (Some (on_gain (linearRampToValueAtTime vol (now + 0.1))
                        (on_gain (setValueAtTime 0 now) createGain)))
               (set_tinnitusOsc
                  (Some (with_osc_sched (mkSched (Some 0) None false)
                           (on_frequency (setValueAtTime frequency now)
                              (with_osc_type sine createOscillator)))) e2)).
Proof.
  intros H. pose proof (inv_init w H) as Hi.
  unfold startTinnitusTone. rewrite init_ctx.
  destruct (masterGain (init (engine w))) eqn:Em;
    [| by destruct (inv_master _ Hi); simpl; rewrite ?init_ctx].
  destruct (stopTinnitusTone_ok now _ Hi) as (e1 & He & _). simpl in He.
  destruct (tinnitusOsc (init (engine w))).
  - exists e1. rewrite He. by split.
  - exists (init (engine w)). by split.
Qed.

(** X9. [startTinnitusTone] never throws, in any state of a run, also when
    a tone is playing (the playing oscillator is stopped first).  It leaves
    one running sine oscillator set to the requested frequency, and a gain
    that rises from 0 to the requested volume within 0.1 s. *)
Theorem startTinnitusTone_plays (w : World) (now frequency vol : R) :
  reachable w ->
  exists e' o g,
    startTinnitusTone now frequency vol (engine w) = Ok e'
    /\ tinnitusOsc e' = Some o /\ tinnitusGain e' = Some g
    /\ osc_type o = sine
    /\ events (WebAudio.frequency o) = [SetValueAtTime frequency now]
    /\ osc_sched o = mkSched (Some 0) None false
    /\ events (gain g) = [SetValueAtTime 0 now; LinearRampToValueAtTime vol (now + 0.1)]
    /\ target (gain g) = vol.
Proof.
  intros Hw. destruct (startTinnitusTone_eq now frequency vol w (reachable_inv w Hw))
    as (e2 & _ & ->).
  eexists _, _, _. split; [reflexivity |]. split; [reflexivity |]. split; [reflexivity |].
  split; [done |]. split; [done |]. split; [done |].
  assert (E : events (gain (on_gain (linearRampToValueAtTime vol (now + 0.1))
                              (on_gain (setValueAtTime 0 now) createGain)))
              = [SetValueAtTime 0 now; LinearRampToValueAtTime vol (now + 0.1)]).
  { simpl. rewrite !decide_False by (simpl; first [lra | intros [? ?]; done]). done. }
  split; [exact E |]. unfold target. by rewrite E.
Qed.

Lemma tone_playing :
  exists w, reachable w /\ is_Some (tinnitusOsc (engine w)).
Proof.
  destruct (startTinnitusTone_eq 0 4500 0.1 world0 inv_world0) as (e2 & _ & E).
  eexists (set_engine _ world0). split.
  - apply (steps_step world0 world0 (StartTinnitusTone 0 4500 0.1));
      [apply steps_refl | exact I |]. unfold exec. rewrite E. reflexivity.
  - by eexists.
Qed.

Lemma startTinnitusTone_plays_witness :
  exists w,
    reachable w /\ is_Some (tinnitusOsc (engine w))
    /\ exists e' o g,
         startTinnitusTone 1 6000 0.1 (engine w) = Ok e'
         /\ tinnitusOsc e' = Some o /\ tinnitusGain e' = Some g
         /\ osc_type o = sine
         /\ events (WebAudio.frequency o) = [SetValueAtTime 6000 1]
         /\ osc_sched o = mkSched (Some 0) None false
         /\ events (gain g) = [SetValueAtTime 0 1; LinearRampToValueAtTime 0.1 (1 + 0.1)]
         /\ target (gain g) = 0.1.
Proof.
  destruct tone_playing as (w & Hw & Ho).
  exists w. split; [done |]. split; [done |].
  exact (startTinnitusTone_plays w 1 6000 0.1 Hw).
Defined.

(** X10. [updateTinnitusFreq] only retunes a playing tone.  With no tone
    playing (never started, or stopped) it changes nothing; with one
    playing it schedules a glide to the new frequency on the oscillator and
    touches nothing else, the oscillator keeps running; when the glide is
    the latest event of the timeline the oscillator ends on the new
    frequency. *)
Theorem updateTinnitusFreq_retunes (w : World) (now frequency : R) :
  reachable w ->
  (tinnitusOsc (engine w) = None ->
   updateTinnitusFreq now frequency (engine w) = engine w)
  /\ (forall e1 later, stopTinnitusTone now (engine w) = Ok e1 ->
      updateTinnitusFreq later frequency e1 = e1)
  /\ (forall o, tinnitusOsc (engine w) = Some o ->
      exists o',
        updateTinnitusFreq now frequency (engine w) = set_tinnitusOsc (Some o') (engine w)
        /\ osc_sched o' = osc_sched o /\ osc_type o' = osc_type o
        /\ events (WebAudio.frequency o')
           = insert_event (SetTargetAtTime frequency now 0.1) (events (WebAudio.frequency o))
        /\ (Forall (fun x => ev_time x < now) (events (WebAudio.frequency o)) ->
            target (WebAudio.frequency o') = frequency)).
Proof.
  intros Hw. pose proof (reachable_inv w Hw) as Hi. split; [| split].
  - intros E. unfold updateTinnitusFreq. by rewrite E.
  - intros e1 later E.
    destruct (stopTinnitusTone_ok now w Hi) as (e1' & E' & Ho & _).
    rewrite E in E'. injection E' as <-. unfold updateTinnitusFreq. by rewrite Ho.
  - intros o Eo. unfold updateTinnitusFreq. rewrite Eo.
    destruct (ctx (engine w)) eqn:Ec;
      [| destruct (inv_ctx w Hi Ec) as [_ ?]; congruence].
    eexists. split; [reflexivity |]. split; [done |]. split; [done |]. split; [done |].
    intros Hall. simpl.
    exact (target_schedule_after (SetTargetAtTime frequency now 0.1) _ Hall).
Qed.

Lemma updateTinnitusFreq_retunes_witness :
  exists w,
    reachable w /\ is_Some (tinnitusOsc (engine w))
    /\ (tinnitusOsc (engine w) = None ->
        updateTinnitusFreq 1 6000 (engine w) = engine w)
    /\ (forall e1 later, stopTinnitusTone 1 (engine w) = Ok e1 ->
        updateTinnitusFreq later 6000 e1 = e1)
    /\ (forall o, tinnitusOsc (engine w) = Some o ->
        exists o',
          updateTinnitusFreq 1 6000 (engine w) = set_tinnitusOsc (Some o') (engine w)
          /\ osc_sched o' = osc_sched o /\ osc_type o' = osc_type o
          /\ events (WebAudio.frequency o')
             = insert_event (SetTargetAtTime 6000 1 0.1) (events (WebAudio.frequency o))
          /\ (Forall (fun x => ev_time x < 1) (events (WebAudio.frequency o)) ->
              target (WebAudio.frequency o') = 6000)).
Proof.
  destruct tone_playing as (w & Hw & Ho).
  exists w. split; [done |]. split; [done |].
  exact (updateTinnitusFreq_retunes w 1 6000 Hw).
Defined.

End Tone.

Section Drone.

Lemma fade_to_zero now d p :
  0 < d ->
  events (linearRampToValueAtTime 0 (now + d) (cancelScheduledValues now p))
  = filter (fun x => ev_time x < now) (events p) ++ [LinearRampToValueAtTime 0 (now + d)]
  /\ target (linearRampToValueAtTime 0 (now + d) (cancelScheduledValues now p)) = 0.
Proof.
  intros Hd.
  assert (Hall : Forall (fun x => ev_time x < ev_time (LinearRampToValueAtTime 0 (now + d)))
                   (events (cancelScheduledValues now p))).
  { eapply Forall_impl; [apply cancel_before |]. simpl. intros x Hx. lra. }
  split.
  - unfold linearRampToValueAtTime, schedule. simpl. by rewrite insert_event_after.
  - exact (target_schedule_after _ _ Hall).
Qed.

(** X11. Disabling the drone.  In every state of a run [toggleDrone(false)]
    returns without throwing and leaves [droneNodes] empty; a second call
    changes nothing.  With no drone on it changes nothing.  With a drone
    on, the master gain of the drone drops what was scheduled from now on
    and ramps to 0 within 1.5 s, and one callback is set, for 1600 ms,
    holding the nine nodes to stop and disconnect; no channel and no active
    sound is touched. *)
Theorem stopDrone_releases (w : World) (now now' : R) :
  reachable w ->
  exists w',
    toggleDrone now false w = Ok w'
    /\ droneNodes (engine w') = []
    /\ toggleDrone now' false w' = Ok w'
    /\ channels w' = channels w
    /\ activeSounds (engine w') = activeSounds (engine w)
    /\ (droneNodes (engine w) = [] -> w' = w)
    /\ (droneNodes (engine w) <> [] ->
        exists g rest,
          droneNodes (engine w) = NGain g :: rest
          /\ length rest = 8%nat /\ length (oscillators rest) = 4%nat
          /\ timers w'
             = timers w
               ++ [mkTimer (next_timer w) 1600
                     (DroneTeardown
                        (NGain (on_gain (linearRampToValueAtTime 0 (now + 1.5))
                                  (on_gain (cancelScheduledValues now) g)) :: rest))]
          /\ events (linearRampToValueAtTime 0 (now + 1.5)
                       (cancelScheduledValues now (gain g)))
             = filter (fun x => ev_time x < now) (events (gain g))
               ++ [LinearRampToValueAtTime 0 (now + 1.5)]
          /\ target (linearRampToValueAtTime 0 (now + 1.5)
                       (cancelScheduledValues now (gain g))) = 0).
Proof.
  intros Hw. pose proof (reachable_kept w Hw) as Hk.
  exists (stopDrone now w). split; [done |].
  assert (Hemp : droneNodes (engine (stopDrone now w)) = []).
  { unfold stopDrone. destruct (droneNodes (engine w)) as [| m rest] eqn:Ed; [done |].
    destruct (ctx (engine w)) eqn:Ec; [done |].
    pose proof (kept_drone_ctx w Hk Ec). congruence. }
  split; [done |]. split; [| split; [| split; [| split]]].
  - simpl. unfold stopDrone at 1. by rewrite Hemp.
  - unfold stopDrone. destruct (droneNodes (engine w)) as [| [] ?]; [done | ..];
      by destruct (ctx (engine w)).
  - unfold stopDrone. destruct (droneNodes (engine w)) as [| [] ?]; [done | ..];
      by destruct (ctx (engine w)).
  - intros E. unfold stopDrone. by rewrite E.
  - intros Hne. destruct (kept_drone w Hk) as [E | (g & rest & E & Hl & Ho & _)]; [done |].
    exists g, rest. split; [done |]. split; [done |]. split; [done |].
    destruct (fade_to_zero now 1.5 (gain g)) as [Hev Htg]; [lra |].
    split; [| by split].
    unfold stopDrone. rewrite E.
    destruct (ctx (engine w)) eqn:Ec; [done |].
    pose proof (kept_drone_ctx w Hk Ec). congruence.
Qed.

Lemma drone_playing :
  exists w, reachable w /\ droneNodes (engine w) <> [].
Proof.
  destruct (startDrone_ok 0 world0 inv_world0) as (e' & E & _ & Hl & _).
  exists (set_engine e' world0). split.
  - apply (steps_step world0 world0 (ToggleDrone 0 true)); [apply steps_refl | exact I |].
    unfold exec, toggleDrone. by rewrite E.
  - simpl in *. intros E0. by rewrite E0 in Hl.
Qed.

Lemma stopDrone_releases_witness :
  exists w,
    reachable w /\ droneNodes (engine w) <> []
    /\ exists w',
         toggleDrone 2 false w = Ok w'
         /\ droneNodes (engine w') = []
         /\ toggleDrone 3 false w' = Ok w'
         /\ channels w' = channels w
         /\ activeSounds (engine w') = activeSounds (engine w)
         /\ (droneNodes (engine w) = [] -> w' = w)
         /\ (droneNodes (engine w) <> [] ->
             exists g rest,
               droneNodes (engine w) = NGain g :: rest
               /\ length rest = 8%nat /\ length (oscillators rest) = 4%nat
               /\ timers w'
                  = timers w
                    ++ [mkTimer (next_timer w) 1600
                          (DroneTeardown
                             (NGain (on_gain (linearRampToValueAtTime 0 (2 + 1.5))
                                       (on_gain (cancelScheduledValues 2) g)) :: rest))]
               /\ events (linearRampToValueAtTime 0 (2 + 1.5)
                            (cancelScheduledValues 2 (gain g)))
                  = filter (fun x => ev_time x < 2) (events (gain g))
                    ++ [LinearRampToValueAtTime 0 (2 + 1.5)]
               /\ target (linearRampToValueAtTime 0 (2 + 1.5)
                            (cancelScheduledValues 2 (gain g))) = 0).
Proof.
  destruct drone_playing as (w & Hw & Hd).
  exists w. split; [done |]. split; [done |].
  exact (stopDrone_releases w 2 3 Hw).
Defined.

End Drone.

Import WebAudio Engine Kept Graphs.

Section BuildGraph.





Lemma calculatePitch_bounds F (aggressive : bool) :
  0.5 <= Pitch.calculatePitch F 8000 aggressive <= 2.5.
Proof.
  unfold Pitch.calculatePitch, Pitch.Math_max, Pitch.Math_min. destruct aggressive.
  - unfold Rmax, Rmin. repeat destruct (Rle_dec _ _); lra.
  - unfold Rmax, Rmin. repeat destruct (Rle_dec _ _); lra.
Qed.

Lemma damped_bounds F : 0.6 <= Pitch.calculatePitch F 8000 false <= 1.8.
Proof.
  unfold Pitch.calculatePitch, Pitch.Math_max, Pitch.Math_min.
  unfold Rmax, Rmin. repeat destruct (Rle_dec _ _); lra.
Qed.

(** X13. The playback rate of a sample.  When the buffer of a sound is
    loaded, the rate set on its player is the pitch multiplier of the
    sound, times the random detuning of LEAVES (within 10 %) and WATER
    (within 5 %); for every reference frequency that is not negative it
    lies between 0.5 and 2.5. *)
Theorem sampled_rate_bounded (type : SoundId) (t rnd F : R) (e : AudioEngine)
    (b : AudioBuffer) :
  ctx e <> None -> buffer_of type e = Some b -> unit_interval rnd -> 0 <= F ->
  exists src gn,
    build_graph t rnd type F e = Ok (Sample src gn)
    /\ value (playbackRate src) = Pitch.rate type F * detune_of type rnd
    /\ 0.5 <= value (playbackRate src) <= 2.5.
Proof.
  intros Hc Hb [Hr0 Hr1] _.
  destruct (sampled_playbackRate t rnd type F e b Hc Hb) as (src & gn & E & Hv).
  exists src, gn. split; [done |].
  assert (Hv' : value (playbackRate src) = Pitch.rate type F * detune_of type rnd).
  { rewrite Hv. unfold detune_of. destruct type; lra. }
  split; [done |]. rewrite Hv'. unfold Pitch.rate, detune_of.
  destruct type;
    first [ pose proof (calculatePitch_bounds F true); lra
          | pose proof (damped_bounds F); nra ].
Qed.

Lemma sampled_rate_bounded_witness :
  ctx (set_buffer LEAVES (Some (Decoded 30)) (init engine0)) <> None
  /\ buffer_of LEAVES (set_buffer LEAVES (Some (Decoded 30)) (init engine0))
     = Some (Decoded 30)
  /\ unit_interval 0.5 /\ 0 <= 4500
  /\ exists src gn,
       build_graph 0 0.5 LEAVES 4500 (set_buffer LEAVES (Some (Decoded 30)) (init engine0))
       = Ok (Sample src gn)
       /\ value (playbackRate src) = Pitch.rate LEAVES 4500 * detune_of LEAVES 0.5
       /\ 0.5 <= value (playbackRate src) <= 2.5.
Proof.
  assert (Hc : ctx (set_buffer LEAVES (Some (Decoded 30)) (init engine0)) <> None) by done.
  assert (Hr : unit_interval 0.5) by (unfold unit_interval; lra).
  assert (HF : 0 <= 4500) by lra.
  split; [exact Hc |]. split; [reflexivity |]. split; [exact Hr |]. split; [exact HF |].
  exact (sampled_rate_bounded LEAVES 0 0.5 4500 _ (Decoded 30) Hc eq_refl Hr HF).
Defined.

(** X14. The envelope of the BIRD sample.  For a bird sample of at least
    one second, the gain of the channel rises from 0 to 0.7 within 0.2 s,
    holds, and falls back to 0 over the last 0.2 s of the playback, whose
    length is the duration of the sample divided by the playback rate; the
    player does not loop. *)
Theorem bird_sample_envelope (t rnd F : R) (e : AudioEngine) (b : AudioBuffer) :
  ctx e <> None -> birdBuffer e = Some b -> 1 <= duration b -> 0 <= F ->
  exists src gn,
    build_graph t rnd BIRD F e = Ok (Sample src gn)
    /\ loop src = false
    /\ events (gain gn)
       = [SetValueAtTime 0 t;
          LinearRampToValueAtTime 0.7 (t + 0.2);
          SetValueAtTime 0.7 (t + duration b / Pitch.rate BIRD F - 0.2);
          LinearRampToValueAtTime 0 (t + duration b / Pitch.rate BIRD F)]
    /\ target (gain gn) = 0
    /\ 0.4 <= duration b / Pitch.rate BIRD F.
Proof.
  intros Hc Hb Hd _. destruct (ctx e) as [c |] eqn:Ec; [| done].
  pose proof (calculatePitch_bounds F true) as [Hr1 Hr2].
  unfold build_graph, createSource, Pitch.rate. rewrite Ec, Hb.
  remember (Pitch.calculatePitch F 8000 true) as r eqn:Er.
  assert (Hlen : 0.4 <= duration b / r).
  { unfold Rdiv.
    assert (Hrr : r * / r = 1) by (apply Rinv_r; lra).
    assert (Hp : 0 < / r) by (apply Rinv_0_lt_compat; lra).
    nra. }
  simpl. eexists _, _. split; [reflexivity |]. split; [done |].
  assert (E : events (gain (fadeInOut t createGain (duration b / r) false 0.2 0.7))
              = [SetValueAtTime 0 t;
                 LinearRampToValueAtTime 0.7 (t + 0.2);
                 SetValueAtTime 0.7 (t + duration b / r - 0.2);
                 LinearRampToValueAtTime 0 (t + duration b / r)]).
  { unfold fadeInOut. simpl.
    rewrite bool_decide_eq_true_2 by lra.
    repeat (simpl;
            rewrite !decide_False by (simpl; first [lra | intros [? ?]; first [done | lra]])).
    done. }
  split; [exact E |]. split; [| done]. unfold target. by rewrite E.
Qed.

Lemma bird_sample_envelope_witness :
  ctx (set_buffer BIRD (Some (Decoded 3)) (init engine0)) <> None
  /\ birdBuffer (set_buffer BIRD (Some (Decoded 3)) (init engine0)) = Some (Decoded 3)
  /\ 1 <= duration (Decoded 3) /\ 0 <= 4500
  /\ exists src gn,
       build_graph 0 0 BIRD 4500 (set_buffer BIRD (Some (Decoded 3)) (init engine0))
       = Ok (Sample src gn)
       /\ loop src = false
       /\ events (gain gn)
          = [SetValueAtTime 0 0;
             LinearRampToValueAtTime 0.7 (0 + 0.2);
             SetValueAtTime 0.7 (0 + duration (Decoded 3) / Pitch.rate BIRD 4500 - 0.2);
             LinearRampToValueAtTime 0 (0 + duration (Decoded 3) / Pitch.rate BIRD 4500)]
       /\ target (gain gn) = 0
       /\ 0.4 <= duration (Decoded 3) / Pitch.rate BIRD 4500.
Proof.
  assert (Hc : ctx (set_buffer BIRD (Some (Decoded 3)) (init engine0)) <> None) by done.
  assert (Hd : 1 <= duration (Decoded 3)) by (simpl; lra).
  assert (HF : 0 <= 4500) by lra.
  split; [exact Hc |]. split; [reflexivity |]. split; [exact Hd |]. split; [exact HF |].
  exact (bird_sample_envelope 0 0 4500 _ (Decoded 3) Hc eq_refl Hd HF).
Defined.

End BuildGraph.

Import WebAudio Engine Kept Graphs.

Section Stops.

Lemma updateRain_lookup_eq now w j :
  channels (updateRainDynamics now w) !! j
  = if decide (rainGainNode (engine w) = Some j /\ ctx (engine w) <> None)
    then on_ch_gain
           (fun p => setTargetAtTime (if othersPlaying (engine w) then 0.05 else 0.15)
                       now 0.5 (cancelScheduledValues now p))
         <$> channels w !! j
    else channels w !! j.
Proof.
  unfold updateRainDynamics.
  destruct (rainGainNode (engine w)) as [r |] eqn:Err.
  - destruct (ctx (engine w)) eqn:Ec.
    + simpl. destruct (decide (r = j)) as [-> | Hne].
      * rewrite decide_True by done. by rewrite list_lookup_alter_eq.
      * rewrite decide_False by (intros [[= ?] _]; done).
        by rewrite list_lookup_alter_ne.
    + by rewrite decide_False by (intros [_ ?]; done).
  - by rewrite decide_False by (intros [? _]; done).
Qed.

Lemma updateRain_notified now w : notified (updateRainDynamics now w) = notified w.
Proof.
  unfold updateRainDynamics. by destruct (rainGainNode (engine w)), (ctx (engine w)).
Qed.

Lemma updateRain_keeps now w j cj :
  channels w !! j = Some cj ->
  exists cj',
    channels (updateRainDynamics now w) !! j = Some cj'
    /\ ch_type cj' = ch_type cj
    /\ graph_scheds (ch_graph cj') = graph_scheds (ch_graph cj)
    /\ (rainGainNode (engine w) <> Some j -> cj' = cj).
Proof.
  intros Hj. rewrite updateRain_lookup_eq, Hj.
  destruct (decide (rainGainNode (engine w) = Some j /\ ctx (engine w) <> None))
    as [[Er' _] | Hn]; simpl.
  - eexists. split; [done |]. split; [done |].
    split; [apply graph_scheds_on_gain | done].
  - exists cj. by repeat split.
Qed.




(** X16. A stop handle is local.  Calling the handle of channel [k], in any
    state of a run, returns without throwing and changes the graph of
    channel [k] only, besides the gain of RAIN that the ducking retargets:
    every other channel keeps its type, its sources and their schedules,
    and is the very same channel unless it is the RAIN channel; no timer and
    no notification is added or removed. *)
Theorem stop_handle_is_local (w : World) (k : nat) (c : Channel) (now : R) :
  reachable w -> channels w !! k = Some c ->
  exists w' g,
    stopFn k now w = Ok w'
    /\ channels w' !! k = Some (with_graph g c)
    /\ length (channels w') = length (channels w)
    /\ timers w' = timers w /\ notified w' = notified w
    /\ forall j cj, j <> k -> channels w !! j = Some cj ->
         exists cj',
           channels w' !! j = Some cj'
           /\ ch_type cj' = ch_type cj
           /\ graph_scheds (ch_graph cj') = graph_scheds (ch_graph cj)
           /\ (rainGainNode (engine w) <> Some j -> cj' = cj).
Proof.
  intros Hw Hk. pose proof (reachable_inv w Hw) as Hi.
  destruct (stopFn_eq w k c Hi Hk now) as (g & _ & _ & ->).
  exists (stopped_world k now w c g), g. split; [done |].
  assert (Hlt : (k < length (channels w))%nat) by (by eapply lookup_lt_Some).
  unfold stopped_world.
  set (e1 := if decide (ch_type c = RAIN) then _ else _).
  set (w1 := on_engine _ _).
  assert (Er : forall r, rainGainNode (engine w1) = Some r ->
             rainGainNode (engine w) = Some r /\ r <> k).
  { subst w1 e1. simpl. intros r. destruct (decide (ch_type c = RAIN)) as [Hty | Hty]; [done |].
    intros Er. split; [done |]. intros ->.
    destruct (inv_rain w Hi k Er) as (c0 & Hk0 & Hty0). congruence. }
  assert (Hch : channels w1 = <[k := with_graph g c]> (channels w)) by done.
  split; [| split; [| split; [| split]]].
  - rewrite updateRain_lookup_eq. rewrite decide_False.
    + rewrite Hch. by rewrite list_lookup_insert_eq.
    + intros [Er' _]. by destruct (Er k Er').
  - by rewrite updateRain_length, Hch, length_insert.
  - by rewrite updateRain_timers.
  - by rewrite updateRain_notified.
  - intros j cj Hne Hj.
    destruct (updateRain_keeps now w1 j cj) as (cj' & ? & ? & ? & Heq).
    { by rewrite Hch, list_lookup_insert_ne. }
    exists cj'. split; [done |]. split; [done |]. split; [done |].
    intros Hn. apply Heq. intros Er'. by destruct (Er j Er').
Qed.

Lemma wind_started :
  exists w c, reachable w /\ channels w !! 0%nat = Some c /\ ch_type c = WIND.
Proof.
  destruct (playInteractionSound_eq 0 0 WIND 8000 false world0 inv_world0)
    as (g & _ & _ & _ & _ & E).
  exists (started_world 0 WIND g false world0), (mkChannel WIND g false).
  split; [| split; [| done]].
  - apply play_step with (rnd := 0) (F := 8000); [unfold unit_interval; lra | done].
  - apply (started_world_new_channel 0 WIND g false world0).
Qed.

Lemma stop_handle_is_local_witness :
  exists w c,
    reachable w /\ channels w !! 0%nat = Some c
    /\ exists w' g,
         stopFn 0 1 w = Ok w'
         /\ channels w' !! 0%nat = Some (with_graph g c)
         /\ length (channels w') = length (channels w)
         /\ timers w' = timers w /\ notified w' = notified w
         /\ forall j cj, j <> 0%nat -> channels w !! j = Some cj ->
              exists cj',
                channels w' !! j = Some cj'
                /\ ch_type cj' = ch_type cj
                /\ graph_scheds (ch_graph cj') = graph_scheds (ch_graph cj)
                /\ (rainGainNode (engine w) <> Some j -> cj' = cj).
Proof.
  destruct wind_started as (w & c & Hw & Hk & _).
  exists w, c. split; [done |]. split; [done |].
  exact (stop_handle_is_local w 0 c 1 Hw Hk).
Defined.




(** X18. The ducking is local.  [updateRainDynamics] writes the gain of the
    registered RAIN channel and nothing else: the engine, the timers, the
    notifications and every other channel are as before, and with no RAIN
    registered nothing changes at all.  On the gain of RAIN it drops every
    event scheduled from now on (an unfinished fade-in, an earlier ducking)
    and appends one approach, with time constant 0.5, to 0.05 when another
    sound is active and to 0.15 otherwise; the sources of RAIN keep
    playing. *)
Theorem ducking_is_local (w : World) (now : R) :
  reachable w ->
  engine (updateRainDynamics now w) = engine w
  /\ timers (updateRainDynamics now w) = timers w
  /\ notified (updateRainDynamics now w) = notified w
  /\ (rainGainNode (engine w) = None -> updateRainDynamics now w = w)
  /\ (forall j cj, channels w !! j = Some cj -> rainGainNode (engine w) <> Some j ->
      channels (updateRainDynamics now w) !! j = Some cj)
  /\ (forall r, rainGainNode (engine w) = Some r ->
      exists c c',
        channels w !! r = Some c /\ ch_type c = RAIN
        /\ channels (updateRainDynamics now w) !! r = Some c'
        /\ ch_type c' = RAIN
        /\ graph_scheds (ch_graph c') = graph_scheds (ch_graph c)
        /\ events (gain (graph_gain (ch_graph c')))
           = filter (fun x => ev_time x < now) (events (gain (graph_gain (ch_graph c))))
             ++ [SetTargetAtTime (if othersPlaying (engine w) then 0.05 else 0.15) now 0.5]).
Proof.
  intros Hw. pose proof (reachable_inv w Hw) as Hi.
  split; [apply updateRain_engine |]. split; [apply updateRain_timers |].
  split; [apply updateRain_notified |]. split; [apply rain_idle |]. split.
  - intros j cj Hj Hn. rewrite updateRain_lookup_eq, decide_False; [done |].
    by intros [? _].
  - intros r Er. destruct (inv_rain w Hi r Er) as (c & Hr & Hty).
    eexists c, _. split; [done |]. split; [done |].
    rewrite updateRain_lookup_eq, decide_True, Hr; [| split; [done | by eapply inv_has_ctx]].
    split; [reflexivity |]. split; [done |]. split; [apply graph_scheds_on_gain |].
    assert (Hev : forall p,
              events (setTargetAtTime (if othersPlaying (engine w) then 0.05 else 0.15)
                        now 0.5 (cancelScheduledValues now p))
              = filter (fun x => ev_time x < now) (events p)
                ++ [SetTargetAtTime (if othersPlaying (engine w) then 0.05 else 0.15)
                      now 0.5]).
    { intros p. unfold setTargetAtTime, schedule. simpl. apply insert_event_after.
      apply (cancel_before now p). }
    simpl. destruct (ch_graph c); simpl; apply Hev.
Qed.

Lemma rain_started :
  exists w, reachable w /\ rainGainNode (engine w) = Some 0%nat.
Proof.
  destruct (playInteractionSound_eq 0 0 RAIN 8000 false world0 inv_world0)
    as (g & _ & _ & _ & _ & E).
  exists (started_world 0 RAIN g false world0). split.
  - apply play_step with (rnd := 0) (F := 8000); [unfold unit_interval; lra | done].
  - by rewrite started_world_rainGainNode.
Qed.

Lemma ducking_is_local_witness :
  exists w,
    reachable w /\ rainGainNode (engine w) = Some 0%nat
    /\ engine (updateRainDynamics 1 w) = engine w
    /\ timers (updateRainDynamics 1 w) = timers w
    /\ notified (updateRainDynamics 1 w) = notified w
    /\ (rainGainNode (engine w) = None -> updateRainDynamics 1 w = w)
    /\ (forall j cj, channels w !! j = Some cj -> rainGainNode (engine w) <> Some j ->
        channels (updateRainDynamics 1 w) !! j = Some cj)
    /\ (forall r, rainGainNode (engine w) = Some r ->
        exists c c',
          channels w !! r = Some c /\ ch_type c = RAIN
          /\ channels (updateRainDynamics 1 w) !! r = Some c'
          /\ ch_type c' = RAIN
          /\ graph_scheds (ch_graph c') = graph_scheds (ch_graph c)
          /\ events (gain (graph_gain (ch_graph c')))
             = filter (fun x => ev_time x < 1) (events (gain (graph_gain (ch_graph c))))
               ++ [SetTargetAtTime (if othersPlaying (engine w) then 0.05 else 0.15) 1 0.5]).
Proof.
  destruct rain_started as (w & Hw & Er).
  exists w. split; [done |]. split; [done |].
  exact (ducking_is_local w 1 Hw).
Defined.

End Stops.

Import WebAudio Engine Kept Graphs Loader.

Section Loading.

Lemma try_paths_Some net paths b :
  try_paths net paths = Some b <->
  exists i path, paths !! i = Some path /\ net path = Decodes b
                 /\ forall j p, (j < i)%nat -> paths !! j = Some p -> ~ decodes net p.
Proof.
  induction paths as [| p ps IH]; simpl.
  - split; [done |]. by intros (i & path & Hi & _).
  - destruct (net p) eqn:Ep.
    1-4: rewrite IH; split;
      [ intros (i & path & Hi & Hn & Hb); exists (S i), path;
        split; [done |]; split; [done |];
        intros [| j] q Hj Hq; simpl in Hq;
        [ injection Hq as <-; intros [b' Hb']; congruence
        | apply (Hb j q); [lia | done] ]
      | intros (i & path & Hi & Hn & Hb); destruct i as [| i]; simpl in Hi;
        [ injection Hi as <-; congruence
        | exists i, path; split; [done |]; split; [done |];
          intros j q Hj Hq; apply (Hb (S j) q); [lia | done] ] ].
    split.
    + intros [= <-]. exists 0%nat, p. split; [done |]. split; [done |]. intros; lia.
    + intros (i & path & Hi & Hn & Hb). destruct i as [| i]; simpl in Hi.
      * injection Hi as <-. congruence.
      * exfalso. apply (Hb 0%nat p); [lia | done |]. by eexists.
Qed.

Lemma try_paths_None net paths :
  try_paths net paths = None <-> forall p, p ∈ paths -> ~ decodes net p.
Proof.
  induction paths as [| p ps IH]; simpl.
  - split; [| done]. intros _ q Hq. by apply elem_of_nil in Hq.
  - destruct (net p) eqn:Ep.
    1-4: rewrite IH; split;
      [ intros H q Hq; apply elem_of_cons in Hq as [-> | Hq];
        [ intros [b' Hb']; congruence | by apply H ]
      | intros H q Hq; apply H; by right ].
    split; [done |]. intros H. exfalso. apply (H p); [by left | by eexists].
Qed.

(** X19. [loadBuffer] takes the first path that works.  Of the three paths
    it tries, in the order [./file], [/file], [file], it returns the buffer
    of the first that fetches, reads and decodes; a response that is not
    [ok] and an exception of [fetch], [arrayBuffer] or [decodeAudioData]
    only move it on to the next path.  It returns null exactly when none of
    the three paths gives a buffer, and it never throws. *)
Theorem loadBuffer_first_success (net : Network) (filename : string) :
  pathsToTry filename = ["./" +:+ filename; "/" +:+ filename; filename]
  /\ (forall b, loadBuffer net filename = Some b <->
        exists i path,
          pathsToTry filename !! i = Some path /\ net path = Decodes b
          /\ forall j p, (j < i)%nat -> pathsToTry filename !! j = Some p -> ~ decodes net p)
  /\ (loadBuffer net filename = None <->
        forall p, p ∈ pathsToTry filename -> ~ decodes net p).
Proof.
  split; [done |]. split.
  - intros b. apply try_paths_Some.
  - apply try_paths_None.
Qed.





End Loading.

Import TuningPanel.

Section Slider.

Lemma clamp01 (x : R) : 0 <= Pitch.Math_max 0 (Pitch.Math_min 1 x) <= 1.
Proof.
  unfold Pitch.Math_max, Pitch.Math_min, Rmax, Rmin.
  repeat destruct (Rle_dec _ _); lra.
Qed.


Lemma clamp01_mono (x y : R) :
  x <= y -> Pitch.Math_max 0 (Pitch.Math_min 1 x) <= Pitch.Math_max 0 (Pitch.Math_min 1 y).
Proof.
  unfold Pitch.Math_max, Pitch.Math_min, Rmax, Rmin.
  repeat destruct (Rle_dec _ _); lra.
Qed.

Lemma ln_ratio_pos : 0 < ln (MAX_FREQ / MIN_FREQ).
Proof.
  rewrite <- ln_1. apply ln_increasing; unfold MAX_FREQ, MIN_FREQ; lra.
Qed.

Lemma exp_le (x y : R) : x <= y -> exp x <= exp y.
Proof.
  intros [H | ->]; [left; by apply exp_increasing | right; reflexivity].
Qed.

Lemma pow_ratio_bounds (c : R) :
  0 <= c <= 1 -> 1 <= Math_pow (MAX_FREQ / MIN_FREQ) c <= MAX_FREQ / MIN_FREQ.
Proof.
  intros [H0 H1]. unfold Math_pow, Rpower. pose proof ln_ratio_pos as Hl. split.
  - rewrite <- exp_0. apply exp_le. nra.
  - rewrite <- (exp_ln (MAX_FREQ / MIN_FREQ)) at 2 by (unfold MAX_FREQ, MIN_FREQ; lra).
    apply exp_le. nra.
Qed.

Lemma pow_ratio_mono (c d : R) :
  c <= d -> Math_pow (MAX_FREQ / MIN_FREQ) c <= Math_pow (MAX_FREQ / MIN_FREQ) d.
Proof.
  intros H. unfold Math_pow, Rpower. pose proof ln_ratio_pos as Hl. apply exp_le. nra.
Qed.

Lemma Int_part_ge (n : Z) (y : R) : IZR n <= y -> (n <= Int_part y)%Z.
Proof.
  intros H. destruct (base_Int_part y) as [_ Hb].
  assert (Hlt : IZR (n - 1) < IZR (Int_part y)) by (rewrite minus_IZR; lra).
  apply lt_IZR in Hlt. lia.
Qed.

Lemma Int_part_le (n : Z) (y : R) : y < IZR n + 1 -> (Int_part y <= n)%Z.
Proof.
  intros H. destruct (base_Int_part y) as [Hb _].
  assert (Hlt : IZR (Int_part y) < IZR (n + 1)) by (rewrite plus_IZR; lra).
  apply lt_IZR in Hlt. lia.
Qed.

Lemma Math_round_mono (x y : R) : x <= y -> Math_round x <= Math_round y.
Proof.
  intros H. unfold Math_round. apply IZR_le.
  destruct (base_Int_part (x + 0.5)) as [Hx _].
  apply Int_part_ge. lra.
Qed.

Lemma Math_round_int (n : Z) : Math_round (IZR n) = IZR n.
Proof.
  unfold Math_round. f_equal. symmetry. apply Int_part_spec. lra.
Qed.

Lemma toLogFreq_range_aux (position : R) : 4500 <= toLogFreq position <= 10000.
Proof.
  unfold toLogFreq.
  pose proof (clamp01 position) as Hc.
  pose proof (pow_ratio_bounds _ Hc) as [Hp1 Hp2].
  set (x := MIN_FREQ * Math_pow (MAX_FREQ / MIN_FREQ) _) in *.
  assert (Hx : 4500 <= x <= 10000).
  { subst x. unfold MIN_FREQ, MAX_FREQ in *. split; nra. }
  unfold Math_round. split.
  - apply IZR_le. apply Int_part_ge. lra.
  - apply IZR_le. apply Int_part_le. lra.
Qed.

(** X21. The slider stays in range.  For every position of the pointer,
    also outside the track, [toLogFreq] gives a whole number of hertz
    between 4500 and 10000; it gives 4500 at and left of the start of the
    track and 10000 at and right of its end, and it grows with the
    position. *)
Theorem toLogFreq_in_range (position : R) :
  (exists n : Z, toLogFreq position = IZR n)
  /\ MIN_FREQ <= toLogFreq position <= MAX_FREQ
  /\ (position <= 0 -> toLogFreq position = MIN_FREQ)
  /\ (1 <= position -> toLogFreq position = MAX_FREQ)
  /\ (forall q, position <= q -> toLogFreq position <= toLogFreq q).
Proof.
  split; [by eexists |].
  split; [exact (toLogFreq_range_aux position) |].
  unfold toLogFreq. split; [| split].
  - intros Hle.
    replace (Pitch.Math_max 0 (Pitch.Math_min 1 position)) with 0.
    + unfold Math_pow. rewrite Rpower_O by (unfold MAX_FREQ, MIN_FREQ; lra).
      rewrite Rmult_1_r. apply (Math_round_int 4500).
    + unfold Pitch.Math_max, Pitch.Math_min, Rmax, Rmin.
      repeat destruct (Rle_dec _ _); lra.
  - intros Hge.
    replace (Pitch.Math_max 0 (Pitch.Math_min 1 position)) with 1.
    + unfold Math_pow. rewrite Rpower_1 by (unfold MAX_FREQ, MIN_FREQ; lra).
      replace (MIN_FREQ * (MAX_FREQ / MIN_FREQ)) with 10000
        by (unfold MAX_FREQ, MIN_FREQ; lra).
      apply (Math_round_int 10000).
    + unfold Pitch.Math_max, Pitch.Math_min, Rmax, Rmin.
      repeat destruct (Rle_dec _ _); lra.
  - intros q Hq. apply Math_round_mono.
    apply Rmult_le_compat_l; [unfold MIN_FREQ; lra |].
    apply pow_ratio_mono. by apply clamp01_mono.
Qed.


(** X23. On the slider's range the pitch mapping never clamps.  For the
    frequency set from any position of the pointer, the rate computed by
    [playInteractionSound] is the plain ratio to 8000 Hz for BIRD and
    INSECT, between 0.5625 and 1.25, and its square root for the other
    sounds, between 0.75 and 1.12: the bounds 0.5, 2.5, 0.6 and 1.8 of
    [calculatePitch] are never met. *)
Theorem slider_pitch_never_clamps (position : R) (type : SoundId) :
  Pitch.rate type (toLogFreq position)
  = match type with
    | BIRD | INSECT => toLogFreq position / 8000
    | _ => sqrt (toLogFreq position / 8000)
    end
  /\ 0.5625 <= toLogFreq position / 8000 <= 1.25
  /\ 0.75 <= sqrt (toLogFreq position / 8000) <= 1.12.
Proof.
  destruct (toLogFreq_range_aux position) as [H1 H2].
  set (F := toLogFreq position) in *.
  assert (Hr : 0.5625 <= F / 8000 <= 1.25) by lra.
  assert (Hs : 0.75 <= sqrt (F / 8000) <= 1.12).
  { apply sqrt_between; lra. }
  split; [| split; done].
  unfold Pitch.rate, Pitch.calculatePitch, Pitch.Math_max, Pitch.Math_min, Rmax, Rmin.
  destruct type; repeat destruct (Rle_dec _ _); lra.
Qed.

End Slider.

Import WebAudio Engine Kept App.

Section Presets.

Lemma Set_add_elem x y s : x ∈ Set_add y s <-> x = y \/ x ∈ s.
Proof.
  unfold Set_add, Set_has. case_bool_decide.
  - split; [auto |]. intros [-> | ?]; done.
  - rewrite elem_of_app, list_elem_of_singleton. tauto.
Qed.

Lemma Set_add_NoDup y s : NoDup s -> NoDup (Set_add y s).
Proof.
  intros H. unfold Set_add, Set_has. case_bool_decide; [done |].
  apply NoDup_app. split; [done |]. split; [| apply NoDup_singleton].
  intros x Hx Hy. apply list_elem_of_singleton in Hy. congruence.
Qed.



Lemma foldl_add_elem x l s :
  x ∈ foldl (fun s sound => Set_add sound s) s l <-> x ∈ l \/ x ∈ s.
Proof.
  revert s. induction l as [| y l IH]; intros s; simpl.
  - rewrite elem_of_nil. tauto.
  - rewrite IH, Set_add_elem, elem_of_cons. tauto.
Qed.

Lemma foldl_add_NoDup l s :
  NoDup s -> NoDup (foldl (fun s sound => Set_add sound s) s l).
Proof.
  revert s. induction l as [| y l IH]; intros s H; simpl; [done |].
  by apply IH, Set_add_NoDup.
Qed.

End Presets.

Section Highlight.

Lemma start_new_set now rnd F active sounds s fns w s' fns' w' :
  start_new now rnd F active sounds s fns w = Ok (s', fns', w') ->
  s' = foldl (fun s sound => Set_add sound s) s (filter (fun x => x ∉ active) sounds).
Proof.
  revert s fns w. induction sounds as [| x sounds IH]; intros s fns w; simpl.
  - by intros [= <- _ _].
  - unfold Set_has. rewrite filter_cons. case_bool_decide as Hx.
    + rewrite decide_False by tauto. apply IH.
    + rewrite decide_True by done.
      destruct (playInteractionSound _ _ _ _ _ _) as [[stop w1] |]; [| done]. apply IH.
Qed.

Lemma applyPreset_set now rnd p a w a' w' :
  applyPreset now rnd p a w = Ok (a', w') ->
  NoDup (app_activeSounds a')
  /\ forall x, x ∈ app_activeSounds a' <-> x ∈ preset_sounds p.
Proof.
  unfold applyPreset. intros E.
  destruct (stop_missing _ _ _ _ _) as [[fns1 w1] |]; [| done]. simpl in E.
  destruct (start_new _ _ _ _ _ _ _ _) as [[[s2 fns2] w2] |] eqn:E2; [| done].
  injection E as <- <-. simpl. apply start_new_set in E2 as ->. split.
  - apply foldl_add_NoDup, foldl_add_NoDup, NoDup_nil_2.
  - intros x. rewrite !foldl_add_elem, !list_elem_of_filter, elem_of_nil.
    destruct (decide (x ∈ app_activeSounds a)); tauto.
Qed.

Lemma forallb_eq {A : Type} (f g : A -> bool) (l : list A) :
  (forall x, f x = g x) -> forallb f l = forallb g l.
Proof. intros E. induction l as [| x l IH]; simpl; [done |]. by rewrite E, IH. Qed.

(** A preset is shown as active when the active sounds are exactly its
    sounds: the four presets have different sounds. *)
Lemma activePresetId_of (l : list SoundId) (p : Preset) :
  p ∈ PRESETS -> NoDup l -> (forall x, x ∈ l <-> x ∈ preset_sounds p) ->
  activePresetId l = Some (preset_id p).
Proof.
  intros Hp Hnd Hl.
  assert (Hpd : NoDup (preset_sounds p)).
  { unfold PRESETS in Hp. rewrite !elem_of_cons, elem_of_nil in Hp.
    destruct Hp as [-> | [-> | [-> | [-> | []]]]];
      apply (bool_decide_unpack _); vm_compute; exact I. }
  assert (Hlen : length l = length (preset_sounds p)).
  { apply Permutation_length, NoDup_Permutation; done. }
  assert (Hm : forall q, matches l q = matches (preset_sounds p) q).
  { intros q. unfold matches. rewrite Hlen. destruct (negb _); [done |].
    apply forallb_eq. intros s. unfold Set_has. apply bool_decide_ext, Hl. }
  unfold activePresetId.
  assert (Hf : List.find (matches l) PRESETS = List.find (matches (preset_sounds p)) PRESETS).
  { unfold PRESETS. simpl. by rewrite !Hm. }
  rewrite Hf. clear -Hp. unfold PRESETS in Hp. rewrite !elem_of_cons, elem_of_nil in Hp.
  destruct Hp as [-> | [-> | [-> | [-> | []]]]]; vm_compute; reflexivity.
Qed.

(** X24. [applyPreset], [activePresetId]: whatever sounds were active, the
    set that [applyPreset] stores holds exactly the sounds of the preset,
    and [activePresetId] is then the id of that preset: the button of the
    preset just chosen is the one shown as active. *)
Theorem applyPreset_highlights (now : R) (rnd : SoundId -> R) (p : Preset)
    (a a' : AppState) (w w' : World) :
  p ∈ PRESETS ->
  applyPreset now rnd p a w = Ok (a', w') ->
  (forall x, x ∈ app_activeSounds a' <-> x ∈ preset_sounds p)
  /\ activePresetId (app_activeSounds a') = Some (preset_id p).
Proof.
  intros Hp E. destruct (applyPreset_set now rnd p a w a' w' E) as [Hnd Hl].
  split; [done |]. by apply activePresetId_of.
Qed.

End Highlight.

Section Frames.

Lemma frame_refl w : frame w w.
Proof. split; [apply steps_refl |]. split; [by apply chan_keep_eq | done]. Qed.

Lemma frame_trans w1 w2 w3 : frame w1 w2 -> frame w2 w3 -> frame w1 w3.
Proof.
  intros (? & ? & ?) (? & ? & ?). split; [by eapply steps_trans |].
  split; [by eapply chan_keep_trans | auto].
Qed.


Lemma handles_weaken l l' fns w : (forall X, X ∈ l' -> X ∈ l) -> handles l fns w -> handles l' fns w.
Proof. intros Hl H X HX. apply H, Hl, HX. Qed.

Lemma play_frame now rnd X F w :
  reachable w -> unit_interval rnd ->
  exists g,
    playInteractionSound now rnd X F true w
    = Ok (StopFn (length (channels w)), started_world now X g true w)
    /\ frame w (started_world now X g true w).
Proof.
  intros Hr Hrnd. pose proof (reachable_inv w Hr) as Hinv.
  destruct (playInteractionSound_eq now rnd X F true w Hinv) as (g & _ & _ & _ & _ & E).
  exists g. split; [done |]. split; [by eapply play_step |]. split.
  - intros k c Hk. rewrite started_world_channels.
    match goal with
    | |- context [updateRainDynamics now ?w0] =>
        destruct (chan_keep_updateRain now w0 k c) as (c' & Hk' & Hs); [done |]
    end.
    exists c'. split; [by apply lookup_app_l_Some | done].
  - intros Hon. rewrite started_world_channels. apply Forall_app. split.
    + by apply updateRain_Forall.
    + by constructor.
Qed.

Lemma stop_frame now k c w :
  reachable w -> channels w !! k = Some c ->
  exists w',
    call_handle (StopFn k) now w = Ok w'
    /\ activeSounds (engine w') = activeSounds (engine w) ∖ {[ch_type c]}
    /\ frame w w'.
Proof.
  intros Hr Hk. pose proof (reachable_inv w Hr) as Hinv.
  destruct (stopFn_eq w k c Hinv Hk now) as (g & _ & Hsp & E).
  exists (stopped_world k now w c g). split; [done |].
  split; [apply stopped_world_active |]. split.
  { apply (steps_step w w (CallStop k now)); [apply steps_refl | | done].
    simpl. by eapply lookup_lt_Some. }
  split.
  - unfold stopped_world. eapply chan_keep_trans; [| apply chan_keep_updateRain].
    intros j cj Hj. simpl. destruct (decide (j = k)) as [-> | Hne].
    + rewrite list_lookup_insert_eq by (by eapply lookup_lt_Some).
      rewrite Hk in Hj. injection Hj as <-.
      destruct (same_playback_same_call c g Hsp). eauto.
    + rewrite list_lookup_insert_ne by done. exists cj.
      split; [done | apply same_call_refl].
  - intros Hon. unfold stopped_world. apply updateRain_Forall; [done |]. simpl.
    apply Forall_insert; [exact Hon |]. simpl.
    exact (Forall_lookup_1 _ _ _ _ Hon Hk).
Qed.

Lemma call_stop_frame now X fns w :
  reachable w -> handles [X] fns w ->
  exists w',
    call_stop now X fns w = Ok w'
    /\ activeSounds (engine w') = activeSounds (engine w) ∖ {[X]}
    /\ frame w w'.
Proof.
  intros Hr H. destruct (H X) as (k & c & Hf & Hc & Hty); [by apply list_elem_of_singleton |].
  unfold call_stop. rewrite Hf. subst X. by apply stop_frame.
Qed.

Lemma frame_reachable w w' : reachable w -> frame w w' -> reachable w'.
Proof. intros Hr [Hs _]. by eapply steps_trans. Qed.

End Frames.

Section Handlers.

Lemma stop_missing_ok now sounds active :
  forall fns w,
    reachable w -> NoDup active -> handles active fns w ->
    exists fns' w',
      stop_missing now sounds active fns w = Ok (fns', w')
      /\ frame w w'
      /\ (forall X, X ∈ activeSounds (engine w')
                    <-> X ∈ activeSounds (engine w) /\ ~ (X ∈ active /\ X ∉ sounds))
      /\ (forall X, X ∈ sounds \/ X ∉ active -> fns' !! X = fns !! X).
Proof.
  induction active as [| sound rest IH]; intros fns w Hr Hnd Hh; simpl.
  - exists fns, w. split; [done |]. split; [apply frame_refl |].
    split; [| done]. intros X. rewrite elem_of_nil. tauto.
  - apply NoDup_cons in Hnd as [Hnot Hnd]. case_bool_decide as Hs.
    + destruct (IH fns w Hr Hnd) as (fns' & w' & E & Hf & Ha & Hfns).
      { eapply handles_weaken; [| exact Hh]. intros X HX. by right. }
      exists fns', w'. split; [done |]. split; [done |]. split.
      * intros X. rewrite Ha, elem_of_cons. split; [| tauto].
        intros [? Hn]. split; [done |]. intros [[-> | ?] ?]; tauto.
      * intros X HX. apply Hfns. rewrite elem_of_cons in HX. tauto.
    + destruct (call_stop_frame now sound fns w Hr) as (w1 & E1 & Ha1 & Hf1).
      { eapply handles_weaken; [| exact Hh].
        intros X ->%list_elem_of_singleton. by left. }
      rewrite E1. simpl.
      destruct (IH (delete sound fns) w1) as (fns' & w' & E & Hf & Ha & Hfns).
      { by eapply frame_reachable. }
      { done. }
      { intros X HX. destruct (Hh X) as (k & c & Hl & Hc & Hty); [by right |].
        destruct Hf1 as (_ & Hk1 & _). destruct (Hk1 k c Hc) as (c' & Hc' & Hty' & _).
        exists k, c'. rewrite lookup_delete_ne by (intros ->; done).
        split; [done |]. split; [done | congruence]. }
      exists fns', w'. split; [done |]. split; [by eapply frame_trans |]. split.
      * intros X. rewrite Ha, Ha1, elem_of_cons, elem_of_difference, elem_of_singleton.
        split.
        -- intros [[? ?] ?]. split; [done |]. intros [[-> | ?] ?]; tauto.
        -- intros [? Hn]. split; [split; [done |] |]; [intros -> | ]; tauto.
      * intros X HX. rewrite Hfns.
        -- apply lookup_delete_ne. intros ->. rewrite elem_of_cons in HX. tauto.
        -- rewrite elem_of_cons in HX. tauto.
Qed.

Lemma start_new_ok now rnd F active sounds :
  (forall x, unit_interval (rnd x)) ->
  forall s fns w,
    reachable w ->
    exists s' fns' w',
      start_new now rnd F active sounds s fns w = Ok (s', fns', w')
      /\ frame w w'
      /\ (forall X, X ∈ activeSounds (engine w')
                    <-> X ∈ activeSounds (engine w) \/ (X ∈ sounds /\ X ∉ active))
      /\ (forall X, X ∉ sounds \/ X ∈ active -> fns' !! X = fns !! X)
      /\ handles (filter (fun x => x ∉ active) sounds) fns' w'.
Proof.
  intros Hrnd. induction sounds as [| sound rest IH]; intros s fns w Hr; simpl.
  - exists s, fns, w. split; [done |]. split; [apply frame_refl |]. split.
    { intros X. rewrite elem_of_nil. tauto. }
    split; [done |]. intros X HX. by apply elem_of_nil in HX.
  - unfold Set_has. rewrite filter_cons. case_bool_decide as Hs.
    + rewrite decide_False by tauto.
      destruct (IH s fns w Hr) as (s' & fns' & w' & E & Hf & Ha & Hfns & Hh).
      exists s', fns', w'. split; [done |]. split; [done |]. split.
      * intros X. rewrite Ha, elem_of_cons. split; [tauto |].
        intros [? | [[-> | ?] ?]]; tauto.
      * split; [| done]. intros X HX. apply Hfns. rewrite elem_of_cons in HX. tauto.
    + rewrite decide_True by done.
      destruct (play_frame now (rnd sound) sound F w Hr (Hrnd sound)) as (g & E1 & Hf1).
      rewrite E1. simpl. set (w1 := started_world now sound g true w) in *.
      destruct (IH (Set_add sound s) (<[sound := StopFn (length (channels w))]> fns) w1)
        as (s' & fns' & w' & E & Hf & Ha & Hfns & Hh).
      { by eapply frame_reachable. }
      exists s', fns', w'. split; [done |]. split; [by eapply frame_trans |]. split.
      * intros X. rewrite Ha. subst w1.
        rewrite started_world_active, elem_of_union, elem_of_singleton, elem_of_cons.
        split; [| intros [? | [[-> | ?] ?]]; tauto].
        intros [[-> | ?] | ?]; tauto.
      * split.
        -- intros X HX. rewrite Hfns.
           ++ apply lookup_insert_ne. intros ->. rewrite elem_of_cons in HX. tauto.
           ++ rewrite elem_of_cons in HX. tauto.
        -- intros X HX. apply elem_of_cons in HX as [-> | HX]; [| by apply Hh].
           destruct (decide (sound ∈ rest)) as [Hin | Hnin].
           { apply Hh. by apply list_elem_of_filter. }
           destruct Hf as (_ & Hk & _).
           destruct (Hk (length (channels w)) (mkChannel sound g true))
             as (c' & Hc' & Hty' & _).
           { subst w1. apply started_world_new_channel. }
           exists (length (channels w)), c'.
           rewrite Hfns by tauto. rewrite lookup_insert_eq. done.
Qed.

Lemma applyPreset_ok now rnd p a w :
  (forall x, unit_interval (rnd x)) -> reachable w -> agrees a w ->
  exists a' w',
    applyPreset now rnd p a w = Ok (a', w')
    /\ reachable w' /\ agrees a' w'.
Proof.
  intros Hrnd Hr (Hnd & Hact & Hh & Hon). unfold applyPreset.
  destruct (stop_missing_ok now (preset_sounds p) (app_activeSounds a) (app_stopFns a) w
              Hr Hnd Hh) as (fns1 & w1 & E1 & Hf1 & Ha1 & Hfns1).
  rewrite E1. simpl.
  pose proof (frame_reachable w w1 Hr Hf1) as Hr1.
  destruct (start_new_ok now rnd (app_frequency a) (app_activeSounds a) (preset_sounds p)
              Hrnd
              (foldl (fun s sound => Set_add sound s) []
                 (filter (fun sound => sound ∈ preset_sounds p) (app_activeSounds a)))
              fns1 w1 Hr1) as (s2 & fns2 & w2 & E2 & Hf2 & Ha2 & Hfns2 & Hh2).
  assert (Eall : applyPreset now rnd p a w = Ok (set_sounds s2 fns2 a, w2)).
  { unfold applyPreset. rewrite E1. simpl. by rewrite E2. }
  rewrite E2. simpl. eexists _, _. split; [done |].
  split; [by eapply frame_reachable |].
  destruct (applyPreset_set now rnd p a w _ _ Eall) as [Hnd' Hl]. simpl in Hnd', Hl.
  split; [done |]. split; [| split].
  - intros X. simpl. rewrite Hl, Ha2, Ha1, <- Hact.
    destruct (decide (X ∈ app_activeSounds a)); tauto.
  - intros X HX. simpl in *. apply Hl in HX.
    destruct (decide (X ∈ app_activeSounds a)) as [Hin | Hnin].
    + destruct (Hh X Hin) as (k & c & Hl0 & Hc & Hty).
      destruct (frame_trans _ _ _ Hf1 Hf2) as (_ & Hk & _).
      destruct (Hk k c Hc) as (c' & Hc' & Hty' & _). exists k, c'.
      rewrite Hfns2, Hfns1 by tauto. split; [done |]. split; [done | congruence].
    + apply Hh2. by apply list_elem_of_filter.
  - simpl. destruct Hf1 as (_ & _ & Hon1), Hf2 as (_ & _ & Hon2). auto.
Qed.


End Handlers.

Section Toggle.




End Toggle.

Section Background.













End Background.

Section AppWitnesses.

Lemma agrees0 : agrees app0 world0.
Proof.
  split; [apply NoDup_nil_2 |]. split; [| split].
  - intros X. simpl. rewrite elem_of_nil. set_solver.
  - intros X HX. by apply elem_of_nil in HX.
  - simpl. constructor.
Qed.

Lemma unit_interval_0 : unit_interval 0.
Proof. unfold unit_interval. lra. Qed.

Lemma forest_preset :
  mkPreset "forest" "Quiet Forest" [BIRD; LEAVES; INSECT] ∈ PRESETS.
Proof. unfold PRESETS. apply elem_of_cons. by left. Qed.

Lemma applyPreset_highlights_witness :
  exists a' w',
    mkPreset "forest" "Quiet Forest" [BIRD; LEAVES; INSECT] ∈ PRESETS
    /\ applyPreset 0 (fun _ => 0) (mkPreset "forest" "Quiet Forest" [BIRD; LEAVES; INSECT])
         app0 world0 = Ok (a', w')
    /\ (forall x, x ∈ app_activeSounds a' <-> x ∈ [BIRD; LEAVES; INSECT])
    /\ activePresetId (app_activeSounds a') = Some "forest".
Proof.
  destruct (applyPreset_ok 0 (fun _ => 0)
              (mkPreset "forest" "Quiet Forest" [BIRD; LEAVES; INSECT]) app0 world0
              (fun _ => unit_interval_0) (steps_refl world0) agrees0)
    as (a' & w' & E & _).
  exists a', w'. split; [exact forest_preset |]. split; [exact E |].
  exact (applyPreset_highlights 0 (fun _ => 0) _ app0 a' world0 w' forest_preset E).
Defined.






End AppWitnesses.

Import WaterSurface.

Section Water.

Lemma lerp_between (x y t lo hi : R) :
  0 <= t <= 1 -> lo <= x <= hi -> lo <= y <= hi -> lo <= lerp x y t <= hi.
Proof. intros Ht Hx Hy. unfold lerp. nra. Qed.

Lemma frames_cons f fs u : frames (f :: fs) u = frames fs (useFrame f u).
Proof. reflexivity. Qed.

Lemma frames_bounded (lo hi : R) (fs : list Frame) :
  Forall (fun f => lo <= prop_frequency (props f) <= hi) fs ->
  forall u,
    lo <= uFrequency u <= hi -> 0 <= uTransition u <= 1 -> 0 <= uActive u <= 1 ->
    lo <= uFrequency (frames fs u) <= hi
    /\ 0 <= uTransition (frames fs u) <= 1
    /\ 0 <= uActive (frames fs u) <= 1.
Proof.
  induction 1 as [| f fs Hf _ IH]; intros u HF HT HA; [done |].
  rewrite frames_cons. apply IH; simpl.
  - apply lerp_between; [lra | done | done].
  - apply lerp_between; [lra | done |]. destruct (decide _); lra.
  - apply lerp_between; [lra | done |]. destruct (prop_isActive _); lra.
Qed.

(** X29. [WaterSurface], the callback of [useFrame]: whatever the props
    of the frames, [uTransition] and [uActive] stay between 0 and 1, and
    [uFrequency] stays in any range that holds the frequencies given. *)
Theorem water_uniforms_bounded (p0 : WaterSurfaceProps) (fs : list Frame) (lo hi : R) :
  lo <= prop_frequency p0 <= hi ->
  Forall (fun f => lo <= prop_frequency (props f) <= hi) fs ->
  lo <= uFrequency (frames fs (uniforms p0)) <= hi
  /\ 0 <= uTransition (frames fs (uniforms p0)) <= 1
  /\ 0 <= uActive (frames fs (uniforms p0)) <= 1.
Proof.
  intros H0 Hfs. apply frames_bounded; simpl; [done | done | lra | lra].
Qed.

Lemma water_uniforms_bounded_witness :
  4500 <= prop_frequency (mkProps 4500 TUNING false) <= 10000
  /\ Forall (fun f => 4500 <= prop_frequency (props f) <= 10000)
       [mkFrame 0.016 (mkProps 6000 TUNING false); mkFrame 0.033 (mkProps 6000 GARDEN true)]
  /\ 4500 <= uFrequency (frames [mkFrame 0.016 (mkProps 6000 TUNING false);
                                 mkFrame 0.033 (mkProps 6000 GARDEN true)]
                           (uniforms (mkProps 4500 TUNING false))) <= 10000
  /\ 0 <= uTransition (frames [mkFrame 0.016 (mkProps 6000 TUNING false);
                               mkFrame 0.033 (mkProps 6000 GARDEN true)]
                         (uniforms (mkProps 4500 TUNING false))) <= 1
  /\ 0 <= uActive (frames [mkFrame 0.016 (mkProps 6000 TUNING false);
                           mkFrame 0.033 (mkProps 6000 GARDEN true)]
                     (uniforms (mkProps 4500 TUNING false))) <= 1.
Proof.
  assert (H0 : 4500 <= prop_frequency (mkProps 4500 TUNING false) <= 10000)
    by (simpl; lra).
  assert (Hfs : Forall (fun f => 4500 <= prop_frequency (props f) <= 10000)
                  [mkFrame 0.016 (mkProps 6000 TUNING false);
                   mkFrame 0.033 (mkProps 6000 GARDEN true)])
    by (repeat constructor; simpl; lra).
  split; [exact H0 |]. split; [exact Hfs |].
  exact (water_uniforms_bounded _ _ 4500 10000 H0 Hfs).
Defined.

Lemma frames_steady (p : WaterSurfaceProps) (fs : list Frame) :
  Forall (fun f => props f = p) fs ->
  forall u,
    uFrequency (frames fs u)
    = prop_frequency p + (uFrequency u - prop_frequency p) * 0.95 ^ length fs
    /\ uTransition (frames fs u)
       = (if decide (prop_mode p = GARDEN) then 1 else 0)
         + (uTransition u - (if decide (prop_mode p = GARDEN) then 1 else 0))
           * 0.98 ^ length fs
    /\ uActive (frames fs u)
       = (if prop_isActive p then 1 else 0)
         + (uActive u - (if prop_isActive p then 1 else 0)) * 0.97 ^ length fs.
Proof.
  induction 1 as [| f fs Hf _ IH]; intros u.
  - simpl. repeat split; lra.
  - rewrite frames_cons. destruct (IH (useFrame f u)) as (-> & -> & ->).
    simpl. rewrite Hf. unfold lerp.
    destruct (decide _), (prop_isActive p); repeat split;
      match goal with |- context [?b ^ length fs] => generalize (b ^ length fs) end;
      intros q; nra.
Qed.

(** X30. [WaterSurface], the callback of [useFrame]: while the props stay
    the same, each frame takes [uFrequency], [uTransition] and [uActive]
    towards the value the props ask for, and what is left of the way
    shrinks by the factor 0.95, 0.98 and 0.97 a frame. *)
Theorem water_uniforms_approach (p : WaterSurfaceProps) (fs : list Frame) (u : Uniforms) :
  Forall (fun f => props f = p) fs ->
  uFrequency (frames fs u) - prop_frequency p
  = (uFrequency u - prop_frequency p) * 0.95 ^ length fs
  /\ uTransition (frames fs u) - (if decide (prop_mode p = GARDEN) then 1 else 0)
     = (uTransition u - (if decide (prop_mode p = GARDEN) then 1 else 0)) * 0.98 ^ length fs
  /\ uActive (frames fs u) - (if prop_isActive p then 1 else 0)
     = (uActive u - (if prop_isActive p then 1 else 0)) * 0.97 ^ length fs.
Proof.
  intros Hfs. destruct (frames_steady p fs Hfs u) as (-> & -> & ->).
  repeat split; lra.
Qed.

Lemma water_uniforms_approach_witness :
  Forall (fun f => props f = mkProps 6000 GARDEN true)
    [mkFrame 0.016 (mkProps 6000 GARDEN true); mkFrame 0.033 (mkProps 6000 GARDEN true)]
  /\ uActive (frames [mkFrame 0.016 (mkProps 6000 GARDEN true);
                      mkFrame 0.033 (mkProps 6000 GARDEN true)]
                (uniforms (mkProps 4500 TUNING false))) - 1
     = (0 - 1) * 0.97 ^ 2.
Proof.
  assert (Hfs : Forall (fun f => props f = mkProps 6000 GARDEN true)
                  [mkFrame 0.016 (mkProps 6000 GARDEN true);
                   mkFrame 0.033 (mkProps 6000 GARDEN true)])
    by (repeat constructor).
  split; [exact Hfs |].
  exact (proj2 (proj2 (water_uniforms_approach (mkProps 6000 GARDEN true) _
                         (uniforms (mkProps 4500 TUNING false)) Hfs))).
Defined.

End Water.
